(** * OpenFMR: the numeric core of [fmr.py], [OpenFMR_Fit.py] and
    [devices.py]

    A shallow embedding of the numeric routines of the OpenFMR acquisition
    and fitting scripts, of the instrument classes they drive and of the
    files they exchange, with Python floats idealised as real numbers.
    Where the code takes a discrete decision on a computed float (the
    number of points of [np.arange], the index that [np.argmin] picks), the
    decision depends on how the float was rounded; for these the model
    has, beside the routine in exact arithmetic, a variant that takes the
    computed float as an argument, and the module [binary64] evaluates
    the arithmetic of the planner on IEEE 754 doubles.

    - Python exceptions are the [Raise] branch of the [result] monad, the
      exception being identified by its class name;
    - numpy arrays of floats are [list R];
    - numpy and scipy routines called by the sources ([np.mean],
      [np.argmin], [np.arange], [np.gradient], [cumtrapz], ...) are given
      by their documented behaviour in the modules [np] and [scipy];
    - the least-squares routine [scipy.optimize.curve_fit] and the special
      function [scipy.special.voigt_profile] are section variables: nothing
      is assumed about what they return;
    - what an instrument replies is an argument of the model of a method,
      what the method sends is part of its result;
    - the conversions between numbers and text are section variables. *)

From Stdlib Require Import Ascii String Reals Lra Lia Psatz List ZArith Bool
  PeanoNat.
From Stdlib Require PrimFloat FloatOps SpecFloat.
Import ListNotations.
Open Scope R_scope.

(** ** Exceptions and the result monad *)

(** A Python exception, identified by the name of its class. *)
Definition exn := string.

Definition ValueError : exn := "ValueError"%string.
Definition TypeError : exn := "TypeError"%string.
Definition IndexError : exn := "IndexError"%string.
Definition ZeroDivisionError : exn := "ZeroDivisionError"%string.
Definition KeyError : exn := "KeyError"%string.
Definition UnboundLocalError : exn := "UnboundLocalError"%string.

Inductive result (A : Type) : Type :=
| Ok (a : A)
| Raise (e : exn).
Arguments Ok {A} a.
Arguments Raise {A} e.

Definition bind {A B : Type} (m : result A) (k : A -> result B) : result B :=
  match m with
  | Ok a => k a
  | Raise e => Raise e
  end.

Notation "x <- m ;; k" := (bind m (fun x => k))
  (at level 61, m at next level, right associativity).
Notation "' p <- m ;; k" := (bind m (fun p => k))
  (at level 61, p pattern, m at next level, right associativity).

(** ** Comparisons and rounding on floats-as-reals *)

Definition Reqb (a b : R) : bool := if Req_dec_T a b then true else false.

(** [math.ceil]: the least integer not below [x]. *)
Definition ceil (x : R) : Z := (- Int_part (- x))%Z.

(** Indexing [a[i]] with a non-negative index: [IndexError] out of range. *)
Definition getitem (a : list R) (i : nat) : result R :=
  match nth_error a i with
  | Some v => Ok v
  | None => Raise IndexError
  end.

Definition sum (a : list R) : R := fold_right Rplus 0 a.

(** ** numpy *)

Module np.

Definition pi : R := PI.
Definition sqrt (x : R) : R := sqrt x.
Definition abs (x : R) : R := Rabs x.
Definition cos (x : R) : R := cos x.
Definition sin (x : R) : R := sin x.

(** [np.mean]: the sum over the number of entries. *)
Definition mean (a : list R) : R := sum a / INR (length a).

(** Scan for [np.argmin]: [best] is the least value seen so far, at index
    [besti]; [i] is the index of the head of the rest.  Only a strictly
    smaller value replaces the current best, so the first occurrence of
    the minimum wins. *)
Fixpoint argmin_from (best : R) (besti i : nat) (a : list R) : nat :=
  match a with
  | [] => besti
  | v :: t =>
      if Rlt_dec v best then argmin_from v i (S i) t
      else argmin_from best besti (S i) t
  end.

Fixpoint argmax_from (best : R) (besti i : nat) (a : list R) : nat :=
  match a with
  | [] => besti
  | v :: t =>
      if Rlt_dec best v then argmax_from v i (S i) t
      else argmax_from best besti (S i) t
  end.

(** [np.argmin] and [np.argmax] raise [ValueError] on an empty array. *)
Definition argmin (a : list R) : result nat :=
  match a with
  | [] => Raise ValueError
  | v :: t => Ok (argmin_from v 0 1 t)
  end.

Definition argmax (a : list R) : result nat :=
  match a with
  | [] => Raise ValueError
  | v :: t => Ok (argmax_from v 0 1 t)
  end.

(** [np.arange(start, stop, step)]: [ceil((stop - start) / step)] values
    [start + i * step]; none when that count is not positive.  The count is
    taken on the exact quotient here; its rounding in floating point, which
    can move it by one when the quotient is a whole number, is the subject
    of [arange_rounded]. *)
Definition arange (start stop step : R) : result (list R) :=
  if Req_dec_T step 0 then Raise ZeroDivisionError
  else
    let n := Z.to_nat (ceil ((stop - start) / step)) in
    Ok (map (fun i => start + INR i * step) (seq 0 n)).

(** [np.arange] with the count that the code computes.  numpy takes the
    ceiling of the quotient [(stop - start) / step] as double arithmetic
    yields it; [fl q] stands for that double, [q] being what exact
    arithmetic yields for the same operands.  The values stay
    [start + i * step]. *)
Definition arange_rounded (fl : R -> R) (start stop step : R)
  : result (list R) :=
  if Req_dec_T step 0 then Raise ZeroDivisionError
  else
    let n := Z.to_nat (ceil (fl ((stop - start) / step))) in
    Ok (map (fun i => start + INR i * step) (seq 0 n)).

(** [np.linspace(start, stop, num)] for [num >= 2]: [num] values
    [start + i * (stop - start) / (num - 1)]. *)
Definition linspace (start stop : R) (num : nat) : list R :=
  map (fun i => start + INR i * ((stop - start) / INR (num - 1))) (seq 0 num).

(** [np.diff]: the differences of consecutive entries. *)
Fixpoint diff (a : list R) : list R :=
  match a with
  | a0 :: ((a1 :: _) as t) => (a1 - a0) :: diff t
  | _ => []
  end.

(** Infinite bounds, as in [-np.inf] and [np.inf]. *)
Inductive ext : Type :=
| ninf
| fin (r : R)
| inf.

(** [np.gradient(f, x, edge_order=2)] on one axis with a coordinate array.
    It raises [ValueError] when the lengths differ, [IndexError] when
    there are fewer than two samples (the first of the spacings is looked
    up before the number of samples is checked) and [ValueError] when
    there are two.  When all spacings are equal the routine switches to the
    constant-spacing coefficients; otherwise it uses the coefficients for
    uneven spacing.  [i] is the index of the middle sample of the stencil
    for [interior], of its first sample for [first_edge] and of its last
    sample for [last_edge]. *)
Section gradient.
Variables f x : list R.

Definition at_ (a : list R) (i : nat) : R := nth i a 0.

Definition uniform_spacing : bool :=
  match diff x with
  | [] => true
  | d0 :: ds => forallb (fun d => Reqb d d0) ds
  end.

Definition interior (i : nat) : R :=
  if uniform_spacing then
    (at_ f (i + 1) - at_ f (i - 1)) / (2 * at_ (diff x) 0)
  else
    let dx1 := at_ (diff x) (i - 1) in
    let dx2 := at_ (diff x) i in
    let a := - dx2 / (dx1 * (dx1 + dx2)) in
    let b := (dx2 - dx1) / (dx1 * dx2) in
    let c := dx1 / (dx2 * (dx1 + dx2)) in
    a * at_ f (i - 1) + b * at_ f i + c * at_ f (i + 1).

Definition first_edge : R :=
  let '(a, b, c) :=
    if uniform_spacing then
      let ax_dx := at_ (diff x) 0 in
      (- (3 / 2) / ax_dx, 2 / ax_dx, - (1 / 2) / ax_dx)
    else
      let dx1 := at_ (diff x) 0 in
      let dx2 := at_ (diff x) 1 in
      (- (2 * dx1 + dx2) / (dx1 * (dx1 + dx2)),
       (dx1 + dx2) / (dx1 * dx2),
       - dx1 / (dx2 * (dx1 + dx2))) in
  a * at_ f 0 + b * at_ f 1 + c * at_ f 2.

Definition last_edge : R :=
  let n := length f in
  let '(a, b, c) :=
    if uniform_spacing then
      let ax_dx := at_ (diff x) 0 in
      ((1 / 2) / ax_dx, - 2 / ax_dx, (3 / 2) / ax_dx)
    else
      let dx1 := at_ (diff x) (n - 3) in
      let dx2 := at_ (diff x) (n - 2) in
      (dx2 / (dx1 * (dx1 + dx2)),
       - (dx2 + dx1) / (dx1 * dx2),
       (2 * dx2 + dx1) / (dx2 * (dx1 + dx2))) in
  a * at_ f (n - 3) + b * at_ f (n - 2) + c * at_ f (n - 1).

Definition gradient : result (list R) :=
  let n := length f in
  if negb (length x =? n)%nat then Raise ValueError
  else if (n <? 2)%nat then Raise IndexError
  else if (n <? 3)%nat then Raise ValueError
  else
    Ok (map (fun i =>
               if (i =? 0)%nat then first_edge
               else if (i =? n - 1)%nat then last_edge
               else interior i)
            (seq 0 n)).
End gradient.

(** [np.polyfit(x, y, 1)]: slope and intercept of the least-squares line,
    in closed form.  It raises [TypeError] for an empty [x] and for
    arrays of different lengths.  The closed form is the least-squares
    solution when the entries of [x] are not all equal; the other case
    (a warning and the solution of least norm) is not modelled. *)
Definition polyfit_1 (x y : list R) : result (list R) :=
  if (length x =? 0)%nat then Raise TypeError
  else if negb (length x =? length y)%nat then Raise TypeError
  else
    let n := INR (length x) in
    let sx := sum x in
    let sy := sum y in
    let sxx := sum (map (fun v => v * v) x) in
    let sxy := sum (map (fun '(u, v) => u * v) (combine x y)) in
    let slope := (n * sxy - sx * sy) / (n * sxx - sx * sx) in
    Ok [slope; (sy - slope * sx) / n].

End np.

(** ** scipy.integrate *)

Module scipy.
Module integrate.

Fixpoint cumsum_from (acc : R) (a : list R) : list R :=
  match a with
  | [] => []
  | v :: t => (acc + v) :: cumsum_from (acc + v) t
  end.

(** The areas [d * (y[1:] + y[:-1]) / 2] of the single trapezoids. *)
Fixpoint trapezoids (y x : list R) : list R :=
  match y, x with
  | y0 :: ((y1 :: _) as yt), x0 :: ((x1 :: _) as xt) =>
      (x1 - x0) * (y1 + y0) / 2 :: trapezoids yt xt
  | _, _ => []
  end.

(** [cumtrapz(y, x)] with the default [initial=None]: entry [k] is the
    integral from [x[0]] to [x[k+1]], so the result has one entry less
    than [y]; [ValueError] when the lengths differ. *)
Definition cumtrapz (y x : list R) : result (list R) :=
  if negb (length x =? length y)%nat then Raise ValueError
  else Ok (cumsum_from 0 (trapezoids y x)).

End integrate.
End scipy.

(** ** Builtins *)

(** The builtin [max] of a sequence: [ValueError] when it is empty. *)
Definition py_max (a : list R) : result R :=
  match a with
  | [] => Raise ValueError
  | v :: t => Ok (fold_left Rmax t v)
  end.

Definition py_min (a : list R) : result R :=
  match a with
  | [] => Raise ValueError
  | v :: t => Ok (fold_left Rmin t v)
  end.

(** [int(x)], also the [%i] conversion of a float: rounds towards zero. *)
Definition py_int (x : R) : Z := if Rle_dec 0 x then Int_part x else ceil x.

(** The builtin [round] of a float: the nearest integer, a tie going to the
    even one. *)
Definition py_round (x : R) : Z :=
  let n := Int_part x in
  let r := x - IZR n in
  if Rlt_dec r (1 / 2) then n
  else if Rlt_dec (1 / 2) r then (n + 1)%Z
  else if Z.even n then n else (n + 1)%Z.

(** Monadic map: a [for] loop that appends one result per element. *)
Fixpoint mapM {A B : Type} (k : A -> result B) (l : list A) : result (list B) :=
  match l with
  | [] => Ok []
  | a :: t => b <- k a ;; bs <- mapM k t ;; Ok (b :: bs)
  end.

(** Element-wise binary operation on two arrays with numpy broadcasting:
    equal lengths pair up, a one-element array is stretched, anything else
    raises [ValueError]. *)
Fixpoint zip_with {A B C : Type} (f : A -> B -> C) (a : list A) (b : list B)
  : list C :=
  match a, b with
  | a0 :: a', b0 :: b' => f a0 b0 :: zip_with f a' b'
  | _, _ => []
  end.

Definition broadcast {A B C : Type} (f : A -> B -> C) (a : list A) (b : list B)
  : result (list C) :=
  if (length a =? length b)%nat then Ok (zip_with f a b)
  else
    match a, b with
    | [a0], _ => Ok (map (f a0) b)
    | _, [b0] => Ok (map (fun v => f v b0) a)
    | _, _ => Raise ValueError
    end.

(** Complex numbers, as Python's [complex]. *)
Record complex : Type := Complex { real : R; imag : R }.

Definition Cadd (a b : complex) : complex :=
  Complex (real a + real b) (imag a + imag b).
Definition Cmul (a b : complex) : complex :=
  Complex (real a * real b - imag a * imag b)
          (real a * imag b + imag a * real b).
Definition of_real (x : R) : complex := Complex x 0.
(** The literal [1j]. *)
Definition j1 : complex := Complex 0 1.

(** ** Physical constants (identical in [fmr.py] and [OpenFMR_Fit.py]) *)

Definition mu0 : R := 12566 / 10 ^ 10.   (* 1.2566e-6 *)
Definition e : R := 1602 / 10 ^ 22.      (* 1.602e-19 *)
Definition me : R := 911 / 10 ^ 33.      (* 9.11e-31 *)

(** ** fmr.py, class System *)

Module System.

(** helper function to determine the best power as a function of frequency *)
Definition signalgenerator_power (frequency : R) : R :=
  let f0 := 1 * 10 ^ 9 in
  let fmax := 30 * 10 ^ 9 in
  let P0 := 1 / 2 in
  let Pmax := 15 in
  let P := P0 + (Pmax - P0) / (fmax - f0) * frequency in
  (* round to closest multiple of 0.5 *)
  IZR (py_round (P * 2)) / 2.

End System.

(** ** devices.py

    The classes of [devices.py] talk to the instruments.  What an
    instrument answers is an argument of the model of a method, and what the
    method writes to the instrument is part of its result.  Failures of
    the connection itself are not modelled. *)

(** [s[-n:]]: the last [n] characters of a string, all of it when it is
    shorter. *)
Definition py_last (n : nat) (s : string) : string :=
  String.substring (String.length s - n) n s.

(** [x % m] on floats, for a positive [m]: the result is in [[0, m)]. *)
Definition py_mod (x m : R) : R := x - m * IZR (Int_part (x / m)).

(** *** class SG30000PRO *)

Module SG30000PRO.

(** [set_frequency]: the whole number of MHz in the command
    [FREQ:CW %iMHZ] that it writes. *)
Definition set_frequency (freq : R) : Z :=
  (* supply the frequency in Hz!  convert to MHz *)
  py_int (freq * (1 / 10 ^ 6)).

End SG30000PRO.

(** *** class Keithley6500 *)

Module Keithley6500.

(** The settings that the object remembers; [None] is Python's [None]. *)
Record state : Type := {
  function : option string;
  nplc : option R;
  filterCount : option Z;
  delay : option string;
  rangE : option R
}.

(** The commands of [get_measurement], by their format string and its
    arguments. *)
Inductive command : Type :=
| SENSe_FUNCtion (func : string)
| SENSe_NPLCycles (func : string) (npl : R)
| SENSe_AVERage_OFF (func : string)
| SENSe_AVER_COUNT (func : string) (nbr : Z)
| SENSe_AVER_TCON (func filterfunc : string)
| SENSe_AVER_ON (func : string)
| SENSe_AZER (func Azer : string)
| SENSe_DELay_AUTO (func dela : string)
| SENSe_RANGe (func : string) (rang : R)
| READ.

Definition min_nplc : R := 1 / 10 ^ 4.
Definition max_nplc : R := 12.

Definition in_list (s : string) (l : list string) : bool :=
  existsb (String.eqb s) l.

Definition option_eqb {A : Type} (eqb : A -> A -> bool) (a : option A) (b : A)
  : bool :=
  match a with
  | Some a => eqb a b
  | None => false
  end.

(** [reset('variables')]: nothing is sent. *)
Definition reset_variables (s : state) : state :=
  {| function := None; nplc := None; filterCount := None; delay := None;
     rangE := None |}.

(** [__scan]: [:READ?] is sent, and the waiting time is chosen by
    [self.nplc > 1.], which raises [TypeError] when [self.nplc] is [None];
    the method catches it and returns [None].  [reading] is the number in
    the reply of the instrument, [None] when the method gets none. *)
Definition scan (s : state) (reading : option R) : list command * option R :=
  match nplc s with
  | None => ([READ], None)
  | Some _ => ([READ], reading)
  end.

(** [get_measurement], with a whole number for [filterCount]: the new
    state, the commands sent and the value returned.  A [ValueError] of
    the checks is caught by the method itself, which prints a message and
    returns [None]. *)
Definition get_measurement (s : state) (reading : option R)
  (func : string) (expectedValue nplc_ : R) (filterCount_ : Z)
  (filterFunction delay_ autozero : string)
  : state * list command * option R :=
  if negb (in_list filterFunction ["REP"; "MOV"; "HYBR"]%string) then
    (s, [], None)
  else if negb (in_list func
                  ["VOLT:DC"; "VOLT:AC"; "CURR:DC"; "CURR:AC"; "RES"]%string)
  then (s, [], None)
  else
    let ac := (py_last 2 func =? "AC")%string in
    if negb ac && (if Rlt_dec nplc_ min_nplc then true
                   else if Rlt_dec max_nplc nplc_ then true else false)
    then (s, [], None)
    else if negb (in_list delay_ ["OFF"; "ON"]%string) then (s, [], None)
    else
      let '(s, c1) :=
        if option_eqb String.eqb (function s) func then (s, [])
        else
          (* If the function doesnt match, all variables have to be set
             again *)
          ({| function := Some func; nplc := None; filterCount := None;
              delay := None; rangE := None |},
           [SENSe_FUNCtion func]) in
      let '(s, c2) :=
        if negb (option_eqb Reqb (nplc s) nplc_) && negb ac then
          ({| function := function s; nplc := Some nplc_;
              filterCount := filterCount s; delay := delay s;
              rangE := rangE s |},
           [SENSe_NPLCycles func nplc_])
        else (s, []) in
      let '(s, c3) :=
        if negb (option_eqb Z.eqb (filterCount s) filterCount_) then
          ({| function := function s; nplc := nplc s;
              filterCount := Some filterCount_; delay := delay s;
              rangE := rangE s |},
           if (filterCount_ =? 0)%Z then [SENSe_AVERage_OFF func]
           else
             [SENSe_AVER_COUNT func filterCount_;
              SENSe_AVER_TCON func filterFunction;
              SENSe_AVER_ON func]
             ++ (if negb ac then [SENSe_AZER func autozero] else []))
        else (s, []) in
      let '(s, c4) :=
        if negb (option_eqb String.eqb (delay s) delay_) then
          ({| function := function s; nplc := nplc s;
              filterCount := filterCount s; delay := Some delay_;
              rangE := rangE s |},
           [SENSe_DELay_AUTO func delay_])
        else (s, []) in
      let '(s, c5) :=
        if negb (option_eqb Reqb (rangE s) expectedValue) then
          ({| function := function s; nplc := nplc s;
              filterCount := filterCount s; delay := delay s;
              rangE := Some expectedValue |},
           [SENSe_RANGe func expectedValue])
        else (s, []) in
      let '(c6, value) := scan s reading in
      (s, c1 ++ c2 ++ c3 ++ c4 ++ c5 ++ c6, value).

End Keithley6500.

(** *** class MFLI *)

Module MFLI.

(** The nodes of the lock-in that the modelled methods write, and a write:
    the node and the value of [setInt] or [setDouble]. *)
Inductive node : Type :=
| sigouts_enables (demod : Z)
| sigouts_amplitudes (demod : Z)
| demods_oscselect (demod : Z)
| demods_phaseshift (demod : Z)
| demods_harmonic (demod : Z).

Definition write : Type := (node * R)%type.

(** [i in [0,1,2,3]] *)
Definition in_0_3 (i : Z) : bool :=
  ((i =? 0) || (i =? 1) || (i =? 2) || (i =? 3))%Z.

(** [setOutputVoltage]: the writes made, and how the call ends.  [diff] is
    the differential-output setting and [setamplitude] the amplitude that
    the instrument reports after the write.  With a [diff] other than 0
    and 1 the variable [limit] is never assigned. *)
Definition setOutputVoltage (diff : Z) (setamplitude : R)
  (voltage : R) (demod : Z) (unit_ : string) (voltage_epsilon_factor : R)
  : list write * result unit :=
  if negb ((unit_ =? "Vrms") || (unit_ =? "Vpk"))%string then
    ([], Raise ValueError)
  else if negb (in_0_3 demod) then ([], Raise ValueError)
  else
    let amplitude :=
      if (unit_ =? "Vrms")%string then voltage * sqrt 2 else voltage in
    match (if (diff =? 0)%Z then Some 10
           else if (diff =? 1)%Z then Some 20 else None) with
    | None => ([], Raise UnboundLocalError)
    | Some limit =>
        if Rlt_dec limit amplitude then ([], Raise ValueError)
        else
          let writes :=
            [(sigouts_enables demod, if Req_dec_T voltage 0 then 0 else 1);
             (sigouts_amplitudes demod, amplitude)] in
          if Rlt_dec (voltage_epsilon_factor * amplitude)
                     (Rabs (amplitude - setamplitude))
          then (writes, Raise ValueError)
          else (writes, Ok tt)
    end.

(** The phase that [setDemod] writes: reduced modulo 360 into
    [(-180, 180]]. *)
Definition setDemod_phase (phase : R) : R :=
  let phase := py_mod phase 360 in
  if Rlt_dec 180 phase then phase - 360 else phase.

(** [setDemod]; [setosc], [setphase] and [setharmonic] are what the
    instrument reports after the writes. *)
Definition setDemod (setosc : Z) (setphase setharmonic : R)
  (demod : Z) (phase harmonic : R) (osc : Z) (phase_epsilon : R)
  : list write * result unit :=
  if negb (in_0_3 demod) then ([], Raise ValueError)
  else if negb (in_0_3 osc) then ([], Raise ValueError)
  else if (if Rlt_dec harmonic 1 then true
           else negb (Reqb (IZR (py_int harmonic)) harmonic))
  then ([], Raise ValueError)
  else
    let phase := setDemod_phase phase in
    let writes :=
      [(demods_oscselect demod, IZR osc); (demods_phaseshift demod, phase);
       (demods_harmonic demod, harmonic)] in
    if Rlt_dec phase_epsilon (Rabs (setphase - phase)) then
      (writes, Raise ValueError)
    else if (negb (setosc =? osc)%Z || negb (Reqb setharmonic harmonic))%bool
    then (writes, Raise ValueError)
    else (writes, Ok tt).

End MFLI.

(** *** class CaenelsFastPS *)

Module CaenelsFastPS.

(** The commands of the modelled methods; the argument is the number
    that the method appends to the command. *)
Inductive command : Type :=
| MOFF
| MON
| LOOP_I
| MSRI (ampPerSec : R)
| MWIR (current : R).

(** The attributes of the object that the modelled methods use, together
    with the replies that the power supply is going to give, in their
    order, and the commands sent so far. *)
Record state : Type := {
  mode : string;
  output_state : option Z;
  slewRateCurrent : option R;
  actual_current : R;
  max_current : R;
  max_slewRateCurrent : R;
  replies : list string;
  sent : list command
}.

Definition with_mode (v : string) (s : state) : state :=
  {| mode := v; output_state := output_state s;
     slewRateCurrent := slewRateCurrent s;
     actual_current := actual_current s; max_current := max_current s;
     max_slewRateCurrent := max_slewRateCurrent s; replies := replies s;
     sent := sent s |}.

Definition with_output_state (v : Z) (s : state) : state :=
  {| mode := mode s; output_state := Some v;
     slewRateCurrent := slewRateCurrent s;
     actual_current := actual_current s; max_current := max_current s;
     max_slewRateCurrent := max_slewRateCurrent s; replies := replies s;
     sent := sent s |}.

Definition with_slewRateCurrent (v : R) (s : state) : state :=
  {| mode := mode s; output_state := output_state s;
     slewRateCurrent := Some v;
     actual_current := actual_current s; max_current := max_current s;
     max_slewRateCurrent := max_slewRateCurrent s; replies := replies s;
     sent := sent s |}.

Definition with_actual_current (v : R) (s : state) : state :=
  {| mode := mode s; output_state := output_state s;
     slewRateCurrent := slewRateCurrent s;
     actual_current := v; max_current := max_current s;
     max_slewRateCurrent := max_slewRateCurrent s; replies := replies s;
     sent := sent s |}.

(** [__query]: the command is sent and the next reply is returned; when
    none can be received, the method returns ['Error']. *)
Definition query (cmd : command) (s : state) : state * string :=
  let s' := fun rest =>
    {| mode := mode s; output_state := output_state s;
       slewRateCurrent := slewRateCurrent s;
       actual_current := actual_current s; max_current := max_current s;
       max_slewRateCurrent := max_slewRateCurrent s; replies := rest;
       sent := sent s ++ [cmd] |} in
  match replies s with
  | ret :: rest => (s' rest, ret)
  | [] => (s' [], "Error"%string)
  end.

(** [ret[1:4] == 'NAK'] and [ret[1:3] == 'AK'] *)
Definition NAK (ret : string) : bool :=
  (String.substring 1 3 ret =? "NAK")%string.

Definition AK (ret : string) : bool :=
  (String.substring 1 2 ret =? "AK")%string.

Definition set_outputOn (s : state) : state :=
  match output_state s with
  | Some 1%Z => s
  | _ =>
      let '(s, ret) := query MON s in
      if NAK ret then s
      else if AK ret then with_output_state 1 s else s
  end.

Definition set_outputOff (s : state) : state :=
  match output_state s with
  | Some 0%Z => s
  | _ =>
      let '(s, ret) := query MOFF s in
      if NAK ret then s
      else if AK ret then with_output_state 0 s else s
  end.

(** [set_ccMode]; a refusal raises an exception that the method catches
    itself. *)
Definition set_ccMode (s : state) : state :=
  if (mode s =? "I")%string then s
  else
    let s := set_outputOff s in
    let '(s, ret) := query LOOP_I s in
    if NAK ret then s
    else if AK ret then with_mode "I" s else s.

(** [set_currentSlewRate]; the [ValueError] for a rate above the maximum
    is caught by the method itself. *)
Definition set_currentSlewRate (ampPerSec : R) (s : state) : state :=
  let ampPerSec := Rabs ampPerSec in
  let s := set_ccMode s in
  if Rlt_dec (max_slewRateCurrent s) ampPerSec then s
  else
    match slewRateCurrent s with
    | Some v =>
        if Reqb v ampPerSec then s
        else
          let '(s, ret) := query (MSRI ampPerSec) s in
          if NAK ret then s
          else if AK ret then with_slewRateCurrent ampPerSec s else s
    | None =>
        let '(s, ret) := query (MSRI ampPerSec) s in
        if NAK ret then s
        else if AK ret then with_slewRateCurrent ampPerSec s else s
    end.

(** [set_rampToCurrent].  Every exception is caught by the method itself:
    the [ValueError] for a current beyond the maximum, the refusal of the
    power supply, and after an acknowledged command the
    [ZeroDivisionError] of the waiting time for a slew rate of zero and
    the [ValueError] of [time.sleep] for a negative waiting time; in the
    last two cases the new current is not stored. *)
Definition set_rampToCurrent (current slewRateAmpPerSec : R) (s : state)
  : state :=
  if Rlt_dec (max_current s) (Rabs current) then s
  else
    let s := set_ccMode s in
    let s := set_outputOn s in
    let s := set_currentSlewRate slewRateAmpPerSec s in
    let '(s, ret) := query (MWIR current) s in
    if NAK ret then s
    else if AK ret then
      if Req_dec_T slewRateAmpPerSec 0 then s
      else if Rlt_dec (Rabs (current - actual_current s) / slewRateAmpPerSec) 0
           then s
           else with_actual_current current s
    else s.

End CaenelsFastPS.

(** *** class MagnetPhysik_FH55 *)

Module MagnetPhysik_FH55.

(** The measurement ranges of the teslameter by their code, in tesla, in
    the order of the dictionary of [set_range]. *)
Definition ranges_dict : list (Z * R) :=
  [(3%Z, 3 / 1000); (4%Z, 30 / 1000); (5%Z, 300 / 1000); (6%Z, 3)].

(** The loop of [set_range] over [ranges_dict.items()]: the code of the
    first range that is at least the expected value.  When there is none
    [temp_range] is never assigned, and its use raises. *)
Fixpoint first_range (items : list (Z * R)) (expectedMaxValue : R)
  : result Z :=
  match items with
  | [] => Raise UnboundLocalError
  | (k, v) :: items' =>
      if Rle_dec expectedMaxValue v then Ok k
      else first_range items' expectedMaxValue
  end.

(** [set_range] up to the command that it sends, [measurement_range] being
    the code that the object remembers: [Ok (Some k)] when ["RANGE k"] is
    written to the device, [Ok None] when the range is the remembered one
    and nothing is written.  The method catches every exception itself
    and prints a message; [Raise] is that case, in which nothing is
    written either. *)
Definition set_range (measurement_range : option Z) (expectedMaxValue : R)
  : result (option Z) :=
  if Rlt_dec 3 expectedMaxValue then Raise ValueError
  else if Rlt_dec expectedMaxValue 0 then Raise ValueError
  else
    temp_range <- first_range ranges_dict expectedMaxValue ;;
    match measurement_range with
    | Some k => if (temp_range =? k)%Z then Ok None else Ok (Some temp_range)
    | None => Ok (Some temp_range)
    end.

(** [get_range]: the range of the remembered code ([None] for the message
    that the method prints when there is none). *)
Fixpoint lookup (items : list (Z * R)) (k : Z) : option R :=
  match items with
  | [] => None
  | (k', v) :: items' => if (k' =? k)%Z then Some v else lookup items' k
  end.

Definition get_range (measurement_range : Z) : option R :=
  lookup ranges_dict measurement_range.

End MagnetPhysik_FH55.

(** ** fmr.py, class Field *)

Module Field.

(** [teslameter_set_range]: the range that it asks of the teslameter, and
    the new [teslameter_multiplier]. *)
Definition teslameter_set_range (fieldrange : R) : R * R :=
  if Rle_dec (Rabs fieldrange) (3 / 100) then (30 / 1000, 1 / 100)
  else if Rle_dec (Rabs fieldrange) (3 / 10) then (300 / 1000, 1 / 10)
  else (3000 / 1000, 1).

(** [teslameter_read_field], as a function of the voltage [v] that the
    multimeter returns and of the current [teslameter_multiplier]. *)
Definition teslameter_read_field (v teslameter_multiplier : R) : R :=
  let v := v * teslameter_multiplier in
  (* nonlinearity correction for the FH55 *)
  let c := 1 - 65 / 1000 / 3 * np.abs v in
  v * c.

End Field.

(** ** fmr.py, class FMR *)

Module FMR.

Definition kittel_resonance_field_ip (f M gamma_prime : R) : R :=
  - mu0 * M / 2 + np.sqrt (mu0 ^ 2 * M ^ 2 / 4 + f ^ 2 / gamma_prime ^ 2).

Definition kittel_resonance_field_oop (f M gamma_prime : R) : R :=
  Rabs (f / gamma_prime + mu0 * M).

Definition calc_B_range (B0 deltaB multiplier sampling offset : R)
  : result (list R) :=
  let start := B0 - multiplier * deltaB in
  let stop := B0 + multiplier * deltaB in
  if Req_dec_T sampling 0 then Raise ZeroDivisionError else
  let step := deltaB / sampling in
  let start := if Rlt_dec start 0 then 0 else start in
  B <- np.arange start (stop + step) step ;;
  Ok (map (fun b => b + offset) B).

(** [calc_B_range] with the count of [np.arange] taken on the computed
    quotient [fl q]. *)
Definition calc_B_range_rounded (fl : R -> R)
  (B0 deltaB multiplier sampling offset : R) : result (list R) :=
  let start := B0 - multiplier * deltaB in
  let stop := B0 + multiplier * deltaB in
  if Req_dec_T sampling 0 then Raise ZeroDivisionError else
  let step := deltaB / sampling in
  let start := if Rlt_dec start 0 then 0 else start in
  B <- np.arange_rounded fl start (stop + step) step ;;
  Ok (map (fun b => b + offset) B).

Definition delta_B (f alpha deltaB0 gamma_prime : R) : R :=
  alpha * f / gamma_prime + deltaB0.

Definition complex_rotate_array (X Y : list R) (phase : R)
  : result (list R * list R) :=
  (* phase in degrees! *)
  let p := phase / 180 * np.pi in
  C <- broadcast (fun x y => Cadd (of_real x) (Cmul j1 (of_real y))) X Y ;;
  let r := Complex (np.cos p) (np.sin p) in
  let V := map (Cmul r) C in
  Ok (map real V, map imag V).

(** The value of one pass of the loop body: the entry appended to [RMS]. *)
Definition autophase_rms (X Y : list R) (phi : R) : result R :=
  ' (X_, Y_) <- complex_rotate_array X Y phi ;;
  Ok (np.sqrt (sum (map (fun y => y ^ 2) Y_))).

(** [autophase] prints the chosen phase with [%i] and returns the rotated
    in-phase signal; the printed integer is the first component here. *)
Definition autophase (X Y : list R) : result (Z * list R) :=
  let PHI := np.linspace (-90) 90 181 in
  RMS <- mapM (autophase_rms X Y) PHI ;;
  i <- np.argmin RMS ;;
  phi <- getitem PHI i ;;
  ' (X_max, Y_min) <- complex_rotate_array X Y phi ;;
  Ok (py_int phi, X_max).

(** The loop body with the entry as the code computes it: [fl phi v] stands
    for the double that the pass at the phase [phi] appends to [RMS], [v]
    being what exact arithmetic yields. *)
Definition autophase_rms_rounded (fl : R -> R -> R) (X Y : list R) (phi : R)
  : result R :=
  ' (X_, Y_) <- complex_rotate_array X Y phi ;;
  Ok (fl phi (np.sqrt (sum (map (fun y => y ^ 2) Y_)))).

(** [autophase] with [np.argmin] acting on the computed entries of
    [RMS]. *)
Definition autophase_rounded (fl : R -> R -> R) (X Y : list R)
  : result (Z * list R) :=
  let PHI := np.linspace (-90) 90 181 in
  RMS <- mapM (autophase_rms_rounded fl X Y) PHI ;;
  i <- np.argmin RMS ;;
  phi <- getitem PHI i ;;
  ' (X_max, Y_min) <- complex_rotate_array X Y phi ;;
  Ok (py_int phi, X_max).

(** [field_sweep] up to the field plan [B] that it hands to the magnet
    (the prints are left out).  An unknown [mode] leaves [B0] unassigned,
    and its first use raises [UnboundLocalError]. *)
Definition field_sweep_plan (f M alpha g deltaB0 : R) (mode : string)
  (offset : R) (accuracy : string) : result (list R) :=
  (* estimate gamma' from sample estimates *)
  let gamma_prime := g * e / (2 * me) / (2 * np.pi) in
  ' (multiplier, sampling) <-
    (if (accuracy =? "low")%string then Ok (12, 4)
     else if (accuracy =? "medium")%string then Ok (8, 6)
     else if (accuracy =? "high")%string then Ok (6, 8)
     else Raise ValueError) ;;
  B0 <-
    (if (mode =? "ip")%string then
       Ok (kittel_resonance_field_ip f M gamma_prime)
     else if (mode =? "oop")%string then
       Ok (kittel_resonance_field_oop f M gamma_prime)
     else Raise UnboundLocalError) ;;
  let offset := if Rlt_dec (3 / 10) B0 then 0 else offset in
  calc_B_range B0 (delta_B f alpha deltaB0 gamma_prime) multiplier sampling
    offset.

(** [field_sweep] up to the field plan, with the count of [np.arange]
    taken on the computed quotient [fl q]. *)
Definition field_sweep_plan_rounded (fl : R -> R) (f M alpha g deltaB0 : R)
  (mode : string) (offset : R) (accuracy : string) : result (list R) :=
  (* estimate gamma' from sample estimates *)
  let gamma_prime := g * e / (2 * me) / (2 * np.pi) in
  ' (multiplier, sampling) <-
    (if (accuracy =? "low")%string then Ok (12, 4)
     else if (accuracy =? "medium")%string then Ok (8, 6)
     else if (accuracy =? "high")%string then Ok (6, 8)
     else Raise ValueError) ;;
  B0 <-
    (if (mode =? "ip")%string then
       Ok (kittel_resonance_field_ip f M gamma_prime)
     else if (mode =? "oop")%string then
       Ok (kittel_resonance_field_oop f M gamma_prime)
     else Raise UnboundLocalError) ;;
  let offset := if Rlt_dec (3 / 10) B0 then 0 else offset in
  calc_B_range_rounded fl B0 (delta_B f alpha deltaB0 gamma_prime) multiplier
    sampling offset.

(** The range that [field_sweep] asks of the teslameter for the plan [B]:
    3 T when the largest planned field exceeds 0.25 T in absolute value,
    300 mT otherwise. *)
Definition field_sweep_teslameter_range (B : list R) : result R :=
  lo <- py_min B ;;
  hi <- py_max B ;;
  let B_absmax := Rmax (Rabs lo) (Rabs hi) in
  if Rlt_dec (25 / 100) B_absmax then Ok (3000 / 1000) else Ok (300 / 1000).

(** Item assignment [a[i] = v]: [IndexError] outside the array. *)
Definition setitem (a : list R) (i : nat) (v : R) : result (list R) :=
  if (i <? length a)%nat then Ok (firstn i a ++ v :: skipn (S i) a)
  else Raise IndexError.

(** The arrays that the measurement loop of [field_sweep] fills. *)
Record sweep_arrays : Type := {
  fields : list R;
  VX : list R;
  VY : list R
}.

(** The measurement loop of [field_sweep], from pass [i] on, with [passes]
    passes left.  [STOP i] is the value of the flag [self.STOP] when pass
    [i] tests it (another thread may set it), [read_field i] and
    [read_XY i] are what the teslameter and the lock-in return in pass
    [i].  The commands to the magnet supply, the waiting and the progress
    line are left out: they do not enter the arrays. *)
Fixpoint sweep_loop (STOP : nat -> bool) (read_field : nat -> R)
  (read_XY : nat -> R * R) (i passes : nat) (a : sweep_arrays)
  (rampdown : bool) : result (sweep_arrays * bool) :=
  match passes with
  | O => Ok (a, rampdown)
  | S passes' =>
      if STOP i then Ok (a, true)
      else
        fields' <- setitem (fields a) i (read_field i) ;;
        let '(x, y) := read_XY i in
        VX' <- setitem (VX a) i x ;;
        VY' <- setitem (VY a) i y ;;
        sweep_loop STOP read_field read_XY (S i) passes'
          {| fields := fields'; VX := VX'; VY := VY' |} rampdown
  end.

(** The timing statistics at the end of [field_sweep], over the [n] time
    stamps of the plan: [time_diffs] has [n - 1] entries, and [np.max] of
    an empty array raises [ValueError] ([np.average], [np.median] and
    [np.std] before it return nan there).  The statistics are only
    printed. *)
Definition timing_statistics (n : nat) : result unit :=
  if (n <? 2)%nat then Raise ValueError else Ok tt.

(** [field_sweep] from the allocation of its arrays to its result, for the
    plan [B]: the measured fields, the phase-corrected voltages, and
    whether the magnet is ramped down at the end. *)
Definition field_sweep_acquire (STOP : nat -> bool) (read_field : nat -> R)
  (read_XY : nat -> R * R) (B : list R) (rampdown : bool)
  : result (list R * list R * bool) :=
  let zeros := repeat 0 (length B) in
  ' (a, rampdown) <- sweep_loop STOP read_field read_XY 0 (length B)
                       {| fields := zeros; VX := zeros; VY := zeros |}
                       rampdown ;;
  ' (printed_phase, voltages) <- autophase (VX a) (VY a) ;;
  _ <- timing_statistics (length B) ;;
  Ok (fields a, voltages, rampdown).

(** The loop of [get_offset] over its 31 nominal fields, from pass [i]
    on; [STOP] and [read_field] are as in [sweep_loop]. *)
Fixpoint offset_loop (STOP : nat -> bool) (read_field : nat -> R)
  (i passes : nat) (fields : list R) : result (list R) :=
  match passes with
  | O => Ok fields
  | S passes' =>
      if STOP i then Ok fields
      else
        fields' <- setitem fields i (read_field i) ;;
        offset_loop STOP read_field (S i) passes' fields'
  end.

(** [get_offset]: the nominal fields, the readings of the teslameter, the
    line fitted through both without their first two entries, and the
    negative of its intercept. *)
Definition get_offset (STOP : nat -> bool) (read_field : nat -> R)
  : result R :=
  let B := np.linspace (- (15 / 1000)) (15 / 1000) 31 in
  fields <- offset_loop STOP read_field 0 (length B) (repeat 0 (length B)) ;;
  p <- np.polyfit_1 (skipn 2 B) (skipn 2 fields) ;;
  p1 <- getitem p 1 ;;
  Ok (- p1).

(** The frequencies that [fmr_measurement] steps through. *)
Definition fmr_measurement_frequencies (freqmin freqstep freqmax : R)
  : result (list R) :=
  np.arange freqmin (freqmax + 1) freqstep.

End FMR.

(** ** The planner on IEEE 754 doubles *)

(** The arithmetic of [field_sweep] and [calc_B_range] up to the quotient
    whose ceiling [np.arange] takes as the number of points, on binary64
    floats with rounding to nearest: the operations of the sources, in
    their order. *)
Module binary64.
Import PrimFloat FloatOps SpecFloat.

(** The real number that a finite double stands for (0 for the others). *)
Definition value (x : float) : R :=
  match Prim2SF x with
  | S754_finite s m e =>
      (if s then -1 else 1) * IZR (Z.pos m) * powerRZ 2 e
  | _ => 0
  end.

Definition mu0 : float := 0x1.5150e4fbc0f6cp-20%float.  (* 1.2566e-6 *)
Definition e : float := 0x1.7a42f549647fbp-63%float.    (* 1.602e-19 *)
Definition me : float := 0x1.27a2eb443d566p-100%float.  (* 9.11e-31 *)
Definition pi : float := 0x1.921fb54442d18p+1%float.    (* np.pi *)

Definition kittel_resonance_field_oop (f M gamma_prime : float) : float :=
  abs (f / gamma_prime + mu0 * M)%float.

Definition delta_B (f alpha deltaB0 gamma_prime : float) : float :=
  (alpha * f / gamma_prime + deltaB0)%float.

(** [calc_B_range] up to [(stop + step - start) / step], the quotient that
    [np.arange(start, stop+step, step)] computes. *)
Definition calc_B_range_quotient (B0 deltaB multiplier sampling : float)
  : float :=
  let start := (B0 - multiplier * deltaB)%float in
  let stop := (B0 + multiplier * deltaB)%float in
  let step := (deltaB / sampling)%float in
  let start := if (start <? 0)%float then 0%float else start in
  ((stop + step - start) / step)%float.

(** [field_sweep] with [mode="oop"] up to the same quotient. *)
Definition field_sweep_oop_quotient (f M alpha g deltaB0 : float)
  (multiplier sampling : float) : float :=
  let gamma_prime := (g * e / (2 * me) / (2 * pi))%float in
  let B0 := kittel_resonance_field_oop f M gamma_prime in
  calc_B_range_quotient B0 (delta_B f alpha deltaB0 gamma_prime) multiplier
    sampling.

(** The quotient for [B0 = 0.05], [deltaB = 0.002], [multiplier = 8],
    [sampling = 6]; the literals are the doubles nearest to the decimal
    numbers. *)
Definition quotient_B0_0_05 : float :=
  calc_B_range_quotient 0x1.999999999999ap-5 0x1.0624dd2f1a9fcp-9 8 6.

(** The same for [B0 = 0.001]. *)
Definition quotient_B0_0_001 : float :=
  calc_B_range_quotient 0x1.0624dd2f1a9fcp-10 0x1.0624dd2f1a9fcp-9 8 6.

(** The same for [B0 = 0.0015]. *)
Definition quotient_B0_0_0015 : float :=
  calc_B_range_quotient 0x1.89374bc6a7efap-10 0x1.0624dd2f1a9fcp-9 8 6.

(** The quotient of the out-of-plane sweep at [f = 10e9], [M = 0],
    [alpha = 0.01], [g = 2], [deltaB0 = 0] with medium accuracy. *)
Definition quotient_sweep_10GHz : float :=
  field_sweep_oop_quotient 0x1.2a05f2p+33 0 0x1.47ae147ae147bp-7 2 0 8 6.

End binary64.

(** ** OpenFMR_Fit.py, class Fit *)

Module Fit.

(** A model function handed to the least-squares routine: called as
    [f(xdata, *params)]. *)
Definition model : Type := list R -> list R -> result (list R).

(** The arguments of one call of [scipy.optimize.curve_fit]; [bounds] is
    [None] where the call leaves the default (no bounds). *)
Record curve_fit_call : Type := {
  f : model;
  xdata : list R;
  ydata : list R;
  p0 : list R;
  bounds : option (list np.ext * list np.ext)
}.

(** What [curve_fit] returns: the parameters and their covariance. *)
Definition fit_result : Type := (list R * list (list R))%type.

(** *** Line shapes *)

Definition lorentz_derivative (B : list R) (A B0 Gamma offset : R) : list R :=
  map (fun B => A * Gamma ^ 2 * (B0 - B) / ((B - B0) ^ 2 + Gamma ^ 2) ^ 2
                + offset) B.

Definition asymmetric_lorentz_derivative (B : list R)
  (A B0 Gamma offset beta : R) : result (list R) :=
  (* asymmetric Lorentz line shape *)
  let l := map (fun B => A * Gamma ^ 2 * (1 + 2 * beta * (B0 - B) / Gamma)
                         / ((B0 - B) ^ 2 + Gamma ^ 2)) B in
  g <- np.gradient l B ;;
  Ok (map (fun v => v + offset) g).

(** [lorentz_derivative] on one field value. *)
Definition lorentz_derivative_at (B A B0 Gamma offset : R) : R :=
  A * Gamma ^ 2 * (B0 - B) / ((B - B0) ^ 2 + Gamma ^ 2) ^ 2 + offset.

(** The divisor in [lorentz_derivative] at one field value. *)
Definition lorentz_denominator (B B0 Gamma : R) : R :=
  ((B - B0) ^ 2 + Gamma ^ 2) ^ 2.

(** *** Dispersion and damping relations, on one field or frequency value;
    on an array they act entry by entry. *)

Definition kittel_fitfunction_inplane (B M g : R) : R :=
  let gamma_prime := g * e / (2 * me) / (2 * np.pi) in
  gamma_prime * np.sqrt (B * (B + mu0 * M)).

Definition kittel_fitfunction_outofplane (B M g : R) : R :=
  let gamma_prime := g * e / (2 * me) / (2 * np.pi) in
  gamma_prime * (B - mu0 * M).

Definition damping_fitfunction (f alpha deltaB0 gamma_prime : R) : R :=
  alpha * f / gamma_prime + deltaB0.

(** Calling [f(xdata, *p)]: [TypeError] when [p] has the wrong length. *)
Definition apply2 (fn : R -> R -> R -> R) : model :=
  fun B p =>
    match p with
    | [a; b] => Ok (map (fun B => fn B a b) B)
    | _ => Raise TypeError
    end.

Definition lorentz_model : model :=
  fun B p =>
    match p with
    | [A; B0; Gamma; offset] => Ok (lorentz_derivative B A B0 Gamma offset)
    | _ => Raise TypeError
    end.

Definition asymmetric_lorentz_model : model :=
  fun B p =>
    match p with
    | [A; B0; Gamma; offset; beta] =>
        asymmetric_lorentz_derivative B A B0 Gamma offset beta
    | _ => Raise TypeError
    end.

Section fitting.

(** [scipy.special.voigt_profile(x, sigma, gamma)] and
    [scipy.optimize.curve_fit] are library routines, left abstract. *)
Variable voigt_profile : R -> R -> R -> R.
Variable curve_fit : curve_fit_call -> result fit_result.

Definition voigt_derivative (B : list R) (A B0 Gamma sigma offset : R)
  : result (list R) :=
  let v := map (fun B => A * Gamma ^ 2 * voigt_profile (B - B0) sigma Gamma)
               B in
  g <- np.gradient v B ;;
  Ok (map (fun d => d + offset) g).

Definition voigt_model : model :=
  fun B p =>
    match p with
    | [A; B0; Gamma; sigma; offset] =>
        voigt_derivative B A B0 Gamma sigma offset
    | _ => Raise TypeError
    end.

(** [fit_derivative] up to its call of [curve_fit]: the arguments of
    that call. *)
Definition fit_derivative_call (x y : list R) (fitProfile : string)
  : result curve_fit_call :=
  (* dispersive line shape *)
  let offset := np.mean y in
  (* half-width estimate *)
  imax <- np.argmax y ;;
  x_max <- getitem x imax ;;
  imin <- np.argmin y ;;
  x_min <- getitem x imin ;;
  let width := np.abs (x_max - x_min) / 2 * np.sqrt 3 in
  integral <- scipy.integrate.cumtrapz (map (fun v => v - offset) y) x ;;
  imin <- np.argmin y ;;
  imax <- np.argmax y ;;
  ' (center, scale) <-
    (if (imin <? imax)%nat then
       (* "down-up" profile *)
       k <- np.argmin integral ;;
       center <- getitem x k ;;
       k <- np.argmin integral ;;
       y_k <- getitem y k ;;
       Ok (center, y_k - offset)
     else
       (* "up-down" profile *)
       k <- np.argmax integral ;;
       center <- getitem x k ;;
       k <- np.argmax integral ;;
       y_k <- getitem y k ;;
       Ok (center, y_k - offset)) ;;
  let scale := if (fitProfile =? "Voigt")%string then scale * 10 else scale in
  let scale :=
    if (fitProfile =? "Lorentz")%string then scale * (1 / 100) else scale in
  let scale :=
    if (fitProfile =? "Asymmetric Lorentz")%string then scale * (1 / 100)
    else scale in
  (* do the fit with the selected line profile *)
  if (fitProfile =? "Lorentz")%string then
    Ok {| f := lorentz_model; xdata := x; ydata := y;
          p0 := [scale; center; width; offset];
          bounds := Some ([np.ninf; np.fin 0; np.fin 0; np.ninf],
                          [np.inf; np.inf; np.inf; np.inf]) |}
  else if (fitProfile =? "Asymmetric Lorentz")%string then
    Ok {| f := asymmetric_lorentz_model; xdata := x; ydata := y;
          p0 := [scale; center; width; offset; 0];
          bounds := Some ([np.ninf; np.fin 0; np.fin 0; np.ninf; np.ninf],
                          [np.inf; np.inf; np.inf; np.inf; np.inf]) |}
  else (* Voigt *)
    Ok {| f := voigt_model; xdata := x; ydata := y;
          p0 := [scale; center; width; 1 / 1000; offset];
          bounds := Some ([np.ninf; np.fin 0; np.fin 0; np.fin 0; np.ninf],
                          [np.inf; np.inf; np.inf; np.inf; np.inf]) |}.

Definition fit_derivative (x y : list R) (fitProfile : string)
  : result fit_result :=
  call <- fit_derivative_call x y fitProfile ;;
  curve_fit call.

(** [LineFit]: the two rows of the dataset go to [fit_derivative]. *)
Definition LineFit (dataset : list (list R)) (fitProfile : string)
  : result fit_result :=
  match dataset with
  | x :: y :: _ => fit_derivative x y fitProfile
  | _ => Raise IndexError
  end.

Definition calculateFittedLine (x p : list R) (fitProfile : string)
  : result (list R) :=
  if (fitProfile =? "Lorentz")%string then lorentz_model x p
  else if (fitProfile =? "Asymmetric Lorentz")%string then
    asymmetric_lorentz_model x p
  else voigt_model x p.

Definition KittelFit (x y : list R) (mode : string)
  : result (list R * list R * list R * list (list R)) :=
  let resonance_fields := x in
  let resonance_frequencies := y in
  top <- py_max resonance_fields ;;
  let x_fit := np.linspace 0 top 100 in
  if (mode =? "in-plane")%string then
    let p0 := [1000 * 10 ^ 3; 21 / 10] in
    ' (p, pcov) <- curve_fit {| f := apply2 kittel_fitfunction_inplane;
                                xdata := resonance_fields;
                                ydata := resonance_frequencies;
                                p0 := p0; bounds := None |} ;;
    y_fit <- apply2 kittel_fitfunction_inplane x_fit p ;;
    Ok (x_fit, y_fit, p, pcov)
  else if (mode =? "out-of-plane")%string then
    (* initial guess for M *)
    let gamma_prime := 21 / 10 * e / (2 * me) / (2 * np.pi) in
    d <- broadcast (fun B f => B - f * 10 ^ 9 / gamma_prime)
           resonance_fields resonance_frequencies ;;
    let M := 1 / mu0 * np.mean d in
    let p0 := [M; 21 / 10] in
    ' (p, pcov) <- curve_fit {| f := apply2 kittel_fitfunction_outofplane;
                                xdata := resonance_fields;
                                ydata := resonance_frequencies;
                                p0 := p0; bounds := None |} ;;
    y_fit <- apply2 kittel_fitfunction_outofplane x_fit p ;;
    Ok (x_fit, y_fit, p, pcov)
  else
    (* [y_fit] was never assigned *)
    Raise UnboundLocalError.

Definition DampingFit (frequencies widths : list R) (gamma_prime : R)
  : result (list R * list R * list R * list (list R)) :=
  let damping_fitfunction_curry : R -> R -> R -> R :=
    fun f alpha deltaB0 => damping_fitfunction f alpha deltaB0 gamma_prime in
  let p0 := [5 / 1000; 0] in
  ' (p, pcov) <- curve_fit {| f := apply2 damping_fitfunction_curry;
                              xdata := frequencies; ydata := widths;
                              p0 := p0; bounds := None |} ;;
  top <- py_max frequencies ;;
  let x_fit := np.linspace 0 top 100 in
  y_fit <- apply2 damping_fitfunction_curry x_fit p ;;
  Ok (x_fit, y_fit, p, pcov).

End fitting.

End Fit.


(** ** Strings and files

    What the scripts write and read back: the data files of a measurement
    and the progress line of a sweep.  The conversions of a number to
    text ([%14.10f] and the like) and of text to a number ([float]) are
    section variables. *)

(** [str.isspace] on one ASCII character. *)
Definition is_space (c : ascii) : bool :=
  existsb (Ascii.eqb c)
    [" "; "009"; "010"; "011"; "012"; "013"; "028"; "029"; "030"; "031"]%char.

(** [s.split()]: the maximal runs of characters that are not white space.
    The second component tells whether [s] starts with such a
    character. *)
Fixpoint split_ws (s : string) : list string * bool :=
  match s with
  | EmptyString => ([], false)
  | String c s' =>
      let '(tokens, inside) := split_ws s' in
      if is_space c then (tokens, false)
      else if inside then
        match tokens with
        | t :: tokens' => (String c t :: tokens', true)
        | [] => ([String c EmptyString], true)
        end
      else (String c EmptyString :: tokens, true)
  end.

Definition py_split (s : string) : list string := fst (split_ws s).

(** [s.split(sep)] for a separator of one character. *)
Fixpoint split_on (sep : ascii) (s : string) : list string :=
  match s with
  | EmptyString => [EmptyString]
  | String c s' =>
      if (c =? sep)%char then EmptyString :: split_on sep s'
      else
        match split_on sep s' with
        | t :: rest => String c t :: rest
        | [] => [String c EmptyString]
        end
  end.

(** [c in chars] *)
Definition contains (c : ascii) (chars : string) : bool :=
  existsb (Ascii.eqb c) (list_ascii_of_string chars).

(** [s.strip(chars)]: the characters of [chars] are removed from both
    ends of [s]. *)
Fixpoint lstrip (chars s : string) : string :=
  match s with
  | EmptyString => EmptyString
  | String c s' => if contains c chars then lstrip chars s' else s
  end.

Fixpoint rstrip (chars s : string) : string :=
  match s with
  | EmptyString => EmptyString
  | String c s' =>
      match rstrip chars s' with
      | EmptyString =>
          if contains c chars then EmptyString else String c EmptyString
      | r => String c r
      end
  end.

Definition py_strip (chars s : string) : string := rstrip chars (lstrip chars s).

Definition endswith (suffix s : string) : bool :=
  (py_last (String.length suffix) s =? suffix)%string.

(** Indexing a list of strings. *)
Definition getitem_str (a : list string) (i : nat) : result string :=
  match nth_error a i with
  | Some v => Ok v
  | None => Raise IndexError
  end.

(** A zip archive: the names of its members in their order, each with its
    content.  Two members can have the same name. *)
Definition archive : Type := list (string * string).

(** [ZipFile.open(name)], [read] and [decode]: the content of the member
    of that name, of the last one when several have it; [KeyError] when
    there is none. *)
Definition zip_read (zf : archive) (name : string) : result string :=
  match find (fun member => (fst member =? name)%string) (rev zf) with
  | Some member => Ok (snd member)
  | None => Raise KeyError
  end.

Section files.

(** The conversions [%14.10f], [%.2f], [%8.5f], [%12.8f] and [%5.1f] of a
    float to text, and [float] of a text: library routines, left
    abstract. *)
Variable format_14_10f : R -> string.
Variable format_2f : R -> string.
Variable format_8_5f : R -> string.
Variable format_12_8f : R -> string.
Variable format_5_1f : R -> string.
Variable float : string -> result R.

(** *** fmr.py *)

(** The text that [FMR.writedatafile] writes: one line for each pair of
    [zip(fields, voltages)]. *)
Fixpoint writedatafile_string (fields voltages : list R) : string :=
  match fields, voltages with
  | f :: fields', v :: voltages' =>
      (format_14_10f f ++ " " ++ format_14_10f v ++ String "010" "")
      ++ writedatafile_string fields' voltages'
  | _, _ => ""
  end%string.

(** [FMR.writedatafile]: the archive is opened in mode ["a"], the member
    is added at its end. *)
Definition writedatafile (zf : archive) (filename : string)
  (fields voltages : list R) : archive :=
  zf ++ [(filename, writedatafile_string fields voltages)].

(** The name under which [fmr_measurement] stores the sweep at the
    frequency [f]. *)
Definition dataset_filename (f : R) : string :=
  (format_2f (f * (1 / 10 ^ 9)) ++ "GHz.txt")%string.

(** The progress line that [field_sweep] prints for the GUI, after the
    carriage return that starts it. *)
Definition progress_line (field x y progress : R) : string :=
  ("<> Field: " ++ format_8_5f field ++ " T  | X: " ++ format_12_8f x
   ++ " V | Y: " ++ format_12_8f y ++ " V | Progress: "
   ++ format_5_1f progress ++ "% </>")%string.

(** *** OpenFMR_Fit.py, class MainWindow *)

(** The loop of [loadDatasets] over the lines of one member. *)
Fixpoint loadDatasets_lines (lines : list string)
  : result (list R * list R) :=
  match lines with
  | [] => Ok ([], [])
  | line :: lines' =>
      match py_split line with
      | [f; v] =>
          f <- float f ;;
          v <- float v ;;
          ' (fields, voltages) <- loadDatasets_lines lines' ;;
          Ok (f :: fields, v :: voltages)
      | _ => Raise ValueError
      end
  end.

(** The loop of [loadDatasets] over the names [files] of the members:
    the datasets, the frequencies and the names that end in [.txt].  Each
    member is opened by its name. *)
Fixpoint loadDatasets_files (zf : archive) (files : list string)
  : result (list (list R * list R) * list R * list string) :=
  match files with
  | [] => Ok ([], [], [])
  | file :: files' =>
      if endswith ".txt" file then
        frequency <- float (py_strip "GHz.txt" file) ;;
        content <- zip_read zf file ;;
        let lines := split_on "010" content in
        dataset <- loadDatasets_lines (removelast lines) ;;
        ' (datasets, frequencies, frequency_files) <-
          loadDatasets_files zf files' ;;
        Ok (dataset :: datasets, frequency :: frequencies,
            file :: frequency_files)
      else loadDatasets_files zf files'
  end.

(** [loadDatasets]: the loop over [zf.namelist()]. *)
Definition loadDatasets (zf : archive)
  : result (list (list R * list R) * list R * list string) :=
  loadDatasets_files zf (map fst zf).

(** *** OpenFMR_GUI.py *)

(** [parse_data]: the three numbers appended to [livedata]. *)
Definition parse_data (line : string) : result (R * R * R) :=
  let p := split_on "|" line in
  p0 <- getitem_str p 0 ;;
  t1 <- getitem_str (py_split p0) 2 ;;
  v1 <- float t1 ;;
  p1 <- getitem_str p 1 ;;
  t2 <- getitem_str (py_split p1) 1 ;;
  v2 <- float t2 ;;
  p2 <- getitem_str p 2 ;;
  t3 <- getitem_str (py_split p2) 1 ;;
  v3 <- float t3 ;;
  Ok (v1, v2, v3).

End files.

(** ** Reference definitions, following the words of the specification *)

Module Spec.

(** The closed set of line shapes, and the names the code selects them by. *)
Inductive LineShape : Type := Lorentz | AsymmetricLorentz | Voigt.

Definition profile_name (v : LineShape) : string :=
  match v with
  | Lorentz => "Lorentz"
  | AsymmetricLorentz => "Asymmetric Lorentz"
  | Voigt => "Voigt"
  end.

(** The parameters of the line shapes and each variant's vector layout. *)
Inductive param : Type :=
  amplitude | center | halfwidth | sigma | offset | asymmetry.

Definition layout (v : LineShape) : list param :=
  match v with
  | Lorentz => [amplitude; center; halfwidth; offset]
  | AsymmetricLorentz => [amplitude; center; halfwidth; offset; asymmetry]
  | Voigt => [amplitude; center; halfwidth; sigma; offset]
  end.

(** Bounds: center, halfwidth and sigma bounded below at 0, everything
    else unbounded. *)
Definition lower_bound (p : param) : np.ext :=
  match p with
  | center | halfwidth | sigma => np.fin 0
  | _ => np.ninf
  end.

Definition upper_bound (p : param) : np.ext := np.inf.

(** A value the bounds [lb <= v <= ub] of the fit admit. *)
Definition admits (lb ub : np.ext) (v : R) : Prop :=
  match lb with np.ninf => True | np.fin l => l <= v | np.inf => False end
  /\ match ub with np.ninf => False | np.fin u => v <= u | np.inf => True end.

(** *** Parameter estimator (section 4.2) *)

(** The cumulative trapezoidal integral of [d] over the axis [x], from the
    first sample up to sample [j]. *)
Definition integral_upto (d x : list R) (j : nat) : R :=
  sum (map (fun i => (nth (S i) x 0 - nth i x 0)
                     * (nth i d 0 + nth (S i) d 0) / 2) (seq 0 j)).

(** The integral as a curve over the field axis: one value per sample. *)
Definition integral_curve (d x : list R) : list R :=
  map (integral_upto d x) (seq 0 (length x)).

(** [j] is a sample index at which the curve [c] is least (greatest). *)
Definition is_argmin (c : list R) (j : nat) : Prop :=
  (j < length c)%nat /\ forall i, (i < length c)%nat -> nth j c 0 <= nth i c 0.
Definition is_argmax (c : list R) (j : nat) : Prop :=
  (j < length c)%nat /\ forall i, (i < length c)%nat -> nth i c 0 <= nth j c 0.

Definition scale_correction (v : LineShape) : R :=
  match v with
  | Voigt => 10
  | Lorentz | AsymmetricLorentz => 1 / 100
  end.

(** The value of one parameter of the guess. *)
Definition guess_of (scale center_ width offset_ : R) (p : param) : R :=
  match p with
  | amplitude => scale
  | center => center_
  | halfwidth => width
  | sigma => 1 / 1000
  | offset => offset_
  | asymmetry => 0
  end.

(** [guess] is an initial guess of the estimator for the curve [(x, y)]:
    steps 1 to 6 of the algorithm, [jmin] and [jmax] being where the
    signal is least and greatest and [j] where the integral has the
    extremum that the polarity selects. *)
Definition estimator_guess (v : LineShape) (x y guess : list R) : Prop :=
  let offset_ := np.mean y in
  exists jmin jmax j : nat,
    is_argmin y jmin /\ is_argmax y jmax /\
    let width := Rabs (nth jmax x 0 - nth jmin x 0) / 2 * sqrt 3 in
    let integral := integral_curve (map (fun s => s - offset_) y) x in
    (if (jmin <? jmax)%nat then is_argmin integral j else is_argmax integral j) /\
    let center_ := nth j x 0 in
    let scale := (nth j y 0 - offset_) * scale_correction v in
    guess = map (guess_of scale center_ width offset_) (layout v).

(** *** Line shapes (section 4.1) *)

(** The un-differentiated asymmetric Lorentzian. *)
Definition asymmetric_lorentzian (A B0 Gamma beta B : R) : R :=
  A * Gamma ^ 2 * (1 + 2 * beta * (B0 - B) / Gamma)
  / ((B0 - B) ^ 2 + Gamma ^ 2).

(** Derivative at [t] of the parabola through the three points
    [(x0, f0)], [(x1, f1)], [(x2, f2)]: the three-point, second-order
    accurate difference quotient. *)
Definition three_point_derivative (x0 x1 x2 f0 f1 f2 t : R) : R :=
  f0 * ((t - x1) + (t - x2)) / ((x0 - x1) * (x0 - x2))
  + f1 * ((t - x0) + (t - x2)) / ((x1 - x0) * (x1 - x2))
  + f2 * ((t - x0) + (t - x1)) / ((x2 - x0) * (x2 - x1)).

(** Second-order numeric derivative at sample [i]: central (the stencil
    is centred on [i]) in the interior, one-sided (the stencil is the
    first, respectively last, three samples) at the two end points. *)
Definition second_order_derivative (f x : list R) (i : nat) : R :=
  let n := length x in
  let m := if (i =? 0)%nat then 1%nat
           else if (i =? n - 1)%nat then (n - 2)%nat else i in
  three_point_derivative (nth (m - 1) x 0) (nth m x 0) (nth (m + 1) x 0)
                         (nth (m - 1) f 0) (nth m f 0) (nth (m + 1) f 0)
                         (nth i x 0).

(** *** Kittel relations (section 4.4) *)

Definition gamma_prime (g : R) : R := g * e / (2 * me) / (2 * PI).

Definition kittel_inplane (M g B : R) : R :=
  gamma_prime g * sqrt (B * (B + mu0 * M)).

Definition kittel_outofplane (M g B : R) : R :=
  gamma_prime g * (B - mu0 * M).

(** *** Autophase (section 4.6) *)

(** [e^{i phi}] for a phase in degrees. *)
Definition cis_deg (phi : R) : complex :=
  Complex (cos (phi * PI / 180)) (sin (phi * PI / 180)).

(** The samples [X + iY] rotated by [phi] degrees. *)
Definition rotated (X Y : list R) (phi : R) : list complex :=
  zip_with (fun x y => Cmul (cis_deg phi) (Complex x y)) X Y.

(** Root mean square. *)
Definition rms (a : list R) : R :=
  sqrt (sum (map (fun v => v * v) a) / INR (length a)).

Definition quadrature_rms (X Y : list R) (phi : R) : R :=
  rms (map imag (rotated X Y phi)).

(** *** Field-range plan (section 4.7) *)

(** [l] is evenly spaced with step [step], starts at [a] and ends at [b]. *)
Definition runs_from_to (l : list R) (a b step : R) : Prop :=
  exists n : nat,
    l = map (fun i => a + INR i * step) (seq 0 (S n)) /\
    a + INR n * step = b.

Definition strictly_ascending (l : list R) : Prop :=
  forall i j, (i < j < length l)%nat -> nth i l 0 < nth j l 0.

End Spec.

(** ** Derived quantities *)

(** The entry that the loop of [autophase] appends to [RMS] for the phase
    [phi], when the rotation succeeds: the root of the sum of squares of
    the rotated quadrature samples. *)
Definition quadrature_norm (X Y : list R) (phi : R) : R :=
  sqrt (sum (map (fun y => y ^ 2) (map imag (Spec.rotated X Y phi)))).

(** A least-squares routine that refuses a problem with fewer data points
    than parameters, as the one of scipy does (it raises [TypeError], or
    [ValueError] when there is no data at all). *)
Definition rejects_underdetermined
  (curve_fit : Fit.curve_fit_call -> result Fit.fit_result) : Prop :=
  forall call : Fit.curve_fit_call,
    (length (Fit.ydata call) < length (Fit.p0 call))%nat ->
    exists err, curve_fit call = Raise err.

(** The settings that [get_measurement] remembers after a request that
    passed its checks. *)
Definition remembers (s : Keithley6500.state) (func : string)
  (expectedValue nplc_ : R) (filterCount_ : Z) (delay_ : string) : Prop :=
  Keithley6500.function s = Some func
  /\ ((py_last 2 func =? "AC")%string = false ->
      Keithley6500.nplc s = Some nplc_)
  /\ Keithley6500.filterCount s = Some filterCount_
  /\ Keithley6500.delay s = Some delay_
  /\ Keithley6500.rangE s = Some expectedValue.

(** The four checks of [get_measurement], passed. *)
Definition accepts (func : string) (nplc_ : R)
  (filterFunction delay_ : string) : bool :=
  Keithley6500.in_list filterFunction ["REP"; "MOV"; "HYBR"]%string
  && Keithley6500.in_list func
       ["VOLT:DC"; "VOLT:AC"; "CURR:DC"; "CURR:AC"; "RES"]%string
  && negb (negb (py_last 2 func =? "AC")%string
           && (if Rlt_dec nplc_ Keithley6500.min_nplc then true
               else if Rlt_dec Keithley6500.max_nplc nplc_ then true
                    else false))
  && Keithley6500.in_list delay_ ["OFF"; "ON"]%string.

(** What the methods that [set_rampToCurrent] calls leave alone: the
    limits and the remembered current; and what they send: the commands
    in [allowed]. *)
Definition sends_only (allowed : CaenelsFastPS.command -> Prop)
  (s s' : CaenelsFastPS.state) : Prop :=
  CaenelsFastPS.max_current s' = CaenelsFastPS.max_current s
  /\ CaenelsFastPS.max_slewRateCurrent s'
     = CaenelsFastPS.max_slewRateCurrent s
  /\ CaenelsFastPS.actual_current s' = CaenelsFastPS.actual_current s
  /\ exists new : list CaenelsFastPS.command,
       CaenelsFastPS.sent s' = CaenelsFastPS.sent s ++ new
       /\ Forall allowed new.

(** Switching the output and the mode. *)
Definition switching (c : CaenelsFastPS.command) : Prop :=
  c = CaenelsFastPS.MOFF \/ c = CaenelsFastPS.MON \/ c = CaenelsFastPS.LOOP_I.

Definition quiet (s s' : CaenelsFastPS.state) : Prop :=
  sends_only switching s s'
  /\ CaenelsFastPS.slewRateCurrent s' = CaenelsFastPS.slewRateCurrent s.

Definition no_ramp (c : CaenelsFastPS.command) : Prop :=
  forall current : R, c <> CaenelsFastPS.MWIR current.

(** * Properties *)

(** ** Rounding *)

Lemma ceil_spec (x : R) (n : Z) : IZR n - 1 < x <= IZR n -> ceil x = n.
Proof.
  intros [Hlo Hhi]. unfold ceil.
  assert (H : (- n)%Z = Int_part (- x)).
  { apply Int_part_spec. rewrite opp_IZR. lra. }
  lia.
Qed.

Lemma ceil_bounds (x : R) : IZR (ceil x) - 1 < x <= IZR (ceil x).
Proof.
  unfold ceil. rewrite opp_IZR.
  destruct (base_Int_part (- x)) as [H1 H2]. lra.
Qed.

Lemma ceil_IZR (n : Z) : ceil (IZR n) = n.
Proof. apply ceil_spec. lra. Qed.

Lemma ceil_plus_1 (x : R) : ceil (x + 1) = (ceil x + 1)%Z.
Proof.
  apply ceil_spec. rewrite plus_IZR. pose proof (ceil_bounds x). lra.
Qed.

Lemma INR_to_nat (z : Z) : (0 <= z)%Z -> INR (Z.to_nat z) = IZR z.
Proof. intros Hz. rewrite INR_IZR_INZ, Z2Nat.id; auto. Qed.

Lemma Rabs_bound (x a : R) : Rabs x <= a -> - a <= x <= a.
Proof. unfold Rabs. destruct (Rcase_abs x); lra. Qed.

(** ** Lists of grid points *)

Lemma nth_grid (g : nat -> R) (n i : nat) :
  (i < n)%nat -> nth i (map g (seq 0 n)) 0 = g i.
Proof.
  intros Hi.
  rewrite (nth_indep _ 0 (g 0%nat)) by (rewrite length_map, length_seq; lia).
  rewrite (map_nth g (seq 0 n) 0%nat i), seq_nth by lia. reflexivity.
Qed.

Lemma length_grid (g : nat -> R) (n : nat) : length (map g (seq 0 n)) = n.
Proof. now rewrite length_map, length_seq. Qed.

Lemma last_grid (g : nat -> R) (n : nat) :
  last (map g (seq 0 (S n))) 0 = g n.
Proof.
  rewrite seq_S, map_app. simpl. apply last_last.
Qed.

(** ** The field-range planner *)

Lemma clip_Rmax (v : R) : (if Rlt_dec v 0 then 0 else v) = Rmax 0 v.
Proof. unfold Rmax. destruct (Rlt_dec _ _), (Rle_dec _ _); lra. Qed.

(** What [calc_B_range] computes, for a sampling density and a linewidth
    that are not zero. *)
Lemma calc_B_range_unfold (B0 deltaB multiplier sampling offset : R) :
  sampling <> 0 -> deltaB <> 0 ->
  let start := Rmax 0 (B0 - multiplier * deltaB) in
  let stop := B0 + multiplier * deltaB in
  let step := deltaB / sampling in
  FMR.calc_B_range B0 deltaB multiplier sampling offset =
  Ok (map (fun i => start + INR i * step + offset)
          (seq 0 (Z.to_nat (ceil ((stop - start) / step) + 1)))).
Proof.
  intros Hs Hd start stop step.
  assert (Hstep : step <> 0).
  { unfold step, Rdiv. apply Rmult_integral_contrapositive_currified; auto.
    now apply Rinv_neq_0_compat. }
  unfold FMR.calc_B_range, np.arange.
  destruct (Req_dec_T sampling 0) as [|_]; [contradiction|].
  rewrite clip_Rmax. fold step start stop.
  destruct (Req_dec_T step 0) as [|_]; [contradiction|].
  cbn [bind]. rewrite map_map.
  replace ((stop + step - start) / step) with ((stop - start) / step + 1)
    by (field; assumption).
  now rewrite ceil_plus_1.
Qed.

Lemma ceil_nonneg (x : R) : -1 < x -> (0 <= ceil x)%Z.
Proof.
  intros Hx. pose proof (ceil_bounds x) as [_ Hc].
  assert (H : (-1 < ceil x)%Z) by (apply lt_IZR; lra). lia.
Qed.

(** The plan of [calc_B_range] for positive linewidth, multiplier and
    sampling density, when it is not empty: [S n] grid points, [n] being
    the number of steps needed to reach the upper end. *)
Lemma calc_B_range_steps (B0 deltaB multiplier sampling offset : R) :
  0 < deltaB -> 0 < multiplier -> 0 < sampling ->
  0 < B0 + multiplier * deltaB + deltaB / sampling ->
  let start := Rmax 0 (B0 - multiplier * deltaB) in
  let stop := B0 + multiplier * deltaB in
  let step := deltaB / sampling in
  let n := Z.to_nat (ceil ((stop - start) / step)) in
  FMR.calc_B_range B0 deltaB multiplier sampling offset =
    Ok (map (fun i => start + INR i * step + offset) (seq 0 (S n)))
  /\ 0 < step
  /\ INR n = IZR (ceil ((stop - start) / step))
  /\ stop <= start + INR n * step < stop + step.
Proof.
  intros Hd Hm Hs Hne start stop step n.
  assert (Hstep : 0 < step) by (apply Rdiv_lt_0_compat; assumption).
  assert (Hgap : - step < stop - start).
  { unfold start, stop, Rmax. fold step in Hne.
    destruct (Rle_dec 0 (B0 - multiplier * deltaB)); nra. }
  assert (Hq : -1 < (stop - start) / step).
  { apply Rmult_lt_reg_r with step; [assumption|].
    unfold Rdiv. rewrite Rmult_assoc, Rinv_l by lra. lra. }
  pose proof (ceil_nonneg _ Hq) as Hc.
  assert (Hn : INR n = IZR (ceil ((stop - start) / step)))
    by (apply INR_to_nat; assumption).
  repeat split; try assumption.
  - rewrite calc_B_range_unfold by lra. fold start stop step.
    replace (Z.to_nat (ceil ((stop - start) / step) + 1)) with (S n)
      by (unfold n; lia).
    reflexivity.
  - rewrite Hn. pose proof (ceil_bounds ((stop - start) / step)) as [_ Hhi].
    apply Rmult_le_compat_r with (r := step) in Hhi; [|lra].
    unfold Rdiv in Hhi at 1. rewrite Rmult_assoc, Rinv_l in Hhi by lra. lra.
  - rewrite Hn. pose proof (ceil_bounds ((stop - start) / step)) as [Hlo _].
    apply Rmult_lt_compat_r with (r := step) in Hlo; [|lra].
    unfold Rdiv in Hlo at 2. rewrite Rmult_assoc, Rinv_l in Hlo by lra. lra.
Qed.

Lemma grid_strictly_ascending (a step : R) (n : nat) :
  0 < step ->
  Spec.strictly_ascending (map (fun i => a + INR i * step) (seq 0 n)).
Proof.
  intros Hstep i j [Hij Hj]. rewrite length_grid in Hj.
  rewrite !nth_grid by lia.
  apply lt_INR in Hij. nra.
Qed.

(** ** The count of [np.arange] in double arithmetic *)

(** With a quotient that is computed exactly the count is the one of
    exact arithmetic. *)
Lemma arange_rounded_exact (start stop step : R) :
  np.arange_rounded (fun q => q) start stop step = np.arange start stop step.
Proof. reflexivity. Qed.

Lemma calc_B_range_rounded_exact (B0 deltaB multiplier sampling offset : R) :
  FMR.calc_B_range_rounded (fun q => q) B0 deltaB multiplier sampling offset
  = FMR.calc_B_range B0 deltaB multiplier sampling offset.
Proof. reflexivity. Qed.

(** What [calc_B_range] computes, for a sampling density and a linewidth
    that are not zero, [fl q] being the computed quotient. *)
Lemma calc_B_range_rounded_unfold (fl : R -> R)
  (B0 deltaB multiplier sampling offset : R) :
  sampling <> 0 -> deltaB <> 0 ->
  let start := Rmax 0 (B0 - multiplier * deltaB) in
  let stop := B0 + multiplier * deltaB in
  let step := deltaB / sampling in
  FMR.calc_B_range_rounded fl B0 deltaB multiplier sampling offset =
  Ok (map (fun i => start + INR i * step + offset)
          (seq 0 (Z.to_nat (ceil (fl ((stop + step - start) / step)))))).
Proof.
  intros Hs Hd start stop step.
  assert (Hstep : step <> 0).
  { unfold step, Rdiv. apply Rmult_integral_contrapositive_currified; auto.
    now apply Rinv_neq_0_compat. }
  unfold FMR.calc_B_range_rounded, np.arange_rounded.
  destruct (Req_dec_T sampling 0) as [|_]; [contradiction|].
  rewrite clip_Rmax. fold step start stop.
  destruct (Req_dec_T step 0) as [|_]; [contradiction|].
  cbn [bind]. now rewrite map_map.
Qed.

(** The plan of [calc_B_range] for positive linewidth, multiplier and
    sampling density, when the computed quotient [fl q] is within [err] of
    the exact one [q] and [err < q]: [S n] grid points, [S n] being the
    ceiling of the computed quotient. *)
Lemma calc_B_range_rounded_steps (fl : R -> R)
  (B0 deltaB multiplier sampling offset err : R) :
  0 < deltaB -> 0 < multiplier -> 0 < sampling ->
  let start := Rmax 0 (B0 - multiplier * deltaB) in
  let stop := B0 + multiplier * deltaB in
  let step := deltaB / sampling in
  let q := (stop + step - start) / step in
  Rabs (fl q - q) <= err -> err < q ->
  exists n : nat,
    FMR.calc_B_range_rounded fl B0 deltaB multiplier sampling offset =
      Ok (map (fun i => start + INR i * step + offset) (seq 0 (S n)))
    /\ 0 < step
    /\ INR n < fl q <= INR n + 1
    /\ stop - err * step <= start + INR n * step < stop + step + err * step.
Proof.
  intros Hd Hm Hs start stop step q Herr Hq.
  assert (Hstep : 0 < step) by (apply Rdiv_lt_0_compat; assumption).
  assert (Hfl : q - err <= fl q <= q + err).
  { apply Rabs_bound in Herr. lra. }
  pose proof (ceil_bounds (fl q)) as [Hlo Hhi].
  assert (Hc : (1 <= ceil (fl q))%Z).
  { assert (H : (0 < ceil (fl q))%Z) by (apply lt_IZR; lra). lia. }
  exists (Z.to_nat (ceil (fl q) - 1)).
  assert (Hn : INR (Z.to_nat (ceil (fl q) - 1)) = IZR (ceil (fl q)) - 1).
  { rewrite INR_to_nat by lia. now rewrite minus_IZR. }
  assert (Hqs : q * step = stop + step - start)
    by (unfold q; field; lra).
  split; [|split; [exact Hstep|split; [rewrite Hn; lra|]]].
  - rewrite calc_B_range_rounded_unfold by lra. fold start stop step q.
    replace (S (Z.to_nat (ceil (fl q) - 1))) with (Z.to_nat (ceil (fl q)))
      by lia.
    reflexivity.
  - rewrite Hn. split; nra.
Qed.

(** The number of points from bounds on the computed quotient. *)
Lemma count_from_bounds (n k : nat) (v : R) :
  INR n < v <= INR n + 1 -> INR k < v <= INR k + 1 -> n = k.
Proof.
  intros [H1 H2] [H3 H4].
  assert (Hnk : (n < k + 1)%nat).
  { apply INR_lt. rewrite plus_INR. simpl INR. lra. }
  assert (Hkn : (k < n + 1)%nat).
  { apply INR_lt. rewrite plus_INR. simpl INR. lra. }
  lia.
Qed.

(** The computed quotients of the examples, as real numbers. *)
Lemma quotient_B0_0_05_value :
  97 < binary64.value binary64.quotient_B0_0_05 <= 97 + 1 / 10 ^ 12.
Proof.
  unfold binary64.value.
  replace (FloatOps.Prim2SF binary64.quotient_B0_0_05)
    with (SpecFloat.S754_finite false 6825768185233409 (-46))
    by (vm_compute; reflexivity).
  cbv [powerRZ]. simpl pow. lra.
Qed.

Lemma quotient_B0_0_001_value :
  52 < binary64.value binary64.quotient_B0_0_001 <= 52 + 1 / 10 ^ 12.
Proof.
  unfold binary64.value.
  replace (FloatOps.Prim2SF binary64.quotient_B0_0_001)
    with (SpecFloat.S754_finite false 7318349394477057 (-47))
    by (vm_compute; reflexivity).
  cbv [powerRZ]. simpl pow. lra.
Qed.

Lemma quotient_B0_0_0015_value :
  107 / 2 < binary64.value binary64.quotient_B0_0_0015
  <= 107 / 2 + 1 / 10 ^ 12.
Proof.
  unfold binary64.value.
  replace (FloatOps.Prim2SF binary64.quotient_B0_0_0015)
    with (SpecFloat.S754_finite false 7529455627010050 (-47))
    by (vm_compute; reflexivity).
  cbv [powerRZ]. simpl pow. lra.
Qed.

(** C2 (amended).  For positive linewidth, multiplier and sampling
    density, [calc_B_range] returns the grid [start + i * step + offset],
    [i = 0 .. n], with [start = max 0 (B0 - multiplier * deltaB)] clipped
    before the offset is added and [step = deltaB / sampling]; it is
    strictly ascending.  The number [n + 1] of its points is the ceiling
    of the quotient [(stop + step - start) / step] as double arithmetic
    yields it, [stop = B0 + multiplier * deltaB]: when that double [fl q]
    is within [err] of the exact quotient [q] (and [err < q], so that the
    plan is not empty), the last point lies less than [err] steps below
    [stop] (plus the offset) or less than [1 + err] steps above.  The plan
    can end at [stop] only when [(stop - start) / step] is a whole number;
    then, for [err < 1], it ends at [stop] when the computed quotient does
    not exceed the exact one, and one step above [stop] when it does. *)
Theorem calc_B_range_plan (fl : R -> R)
  (B0 deltaB multiplier sampling offset err : R) :
  0 < deltaB -> 0 < multiplier -> 0 < sampling ->
  let start := Rmax 0 (B0 - multiplier * deltaB) in
  let stop := B0 + multiplier * deltaB in
  let step := deltaB / sampling in
  let q := (stop + step - start) / step in
  Rabs (fl q - q) <= err -> err < q ->
  exists (l : list R) (n : nat),
    FMR.calc_B_range_rounded fl B0 deltaB multiplier sampling offset = Ok l
    /\ l = map (fun i => start + INR i * step + offset) (seq 0 (S n))
    /\ Spec.strictly_ascending l
    /\ nth 0 l 0 = start + offset
    /\ INR n < fl q <= INR n + 1
    /\ stop + offset - err * step <= last l 0
       < stop + offset + step + err * step
    /\ (last l 0 = stop + offset ->
        exists k : Z, (stop - start) / step = IZR k)
    /\ (err < 1 -> (exists k : Z, (stop - start) / step = IZR k) ->
        (fl q <= q -> last l 0 = stop + offset)
        /\ (q < fl q -> last l 0 = stop + offset + step))
    /\ (err < 1 -> fl q <= q -> 0 <= B0 - multiplier * deltaB ->
        (exists k : Z, 2 * multiplier * sampling = IZR k) ->
        Spec.runs_from_to l (B0 - multiplier * deltaB + offset)
          (stop + offset) step).
Proof.
  intros Hd Hm Hs start stop step q Herr Hq.
  destruct (calc_B_range_rounded_steps fl B0 deltaB multiplier sampling offset
              err Hd Hm Hs Herr Hq) as (n & Heq & Hstep & Hn & Hlast).
  fold start stop step q in Heq, Hstep, Hn, Hlast.
  assert (Hfl : q - err <= fl q <= q + err).
  { apply Rabs_bound in Herr. lra. }
  assert (Hq1 : q = (stop - start) / step + 1) by (unfold q; field; lra).
  assert (Hwhole : err < 1 -> (exists k : Z, (stop - start) / step = IZR k) ->
                   (fl q <= q -> start + INR n * step = stop)
                   /\ (q < fl q -> start + INR n * step = stop + step)).
  { intros Herr1 [k Hk].
    assert (Hks : IZR k * step = stop - start)
      by (rewrite <- Hk; field; lra).
    split; intros Hcmp.
    - assert (E : IZR (Z.of_nat n) = IZR k).
      { f_equal. apply Z.le_antisymm.
        + apply Zlt_succ_le. apply lt_IZR. rewrite succ_IZR, <- INR_IZR_INZ.
          lra.
        + apply Zlt_succ_le. apply lt_IZR. rewrite succ_IZR, <- INR_IZR_INZ.
          lra. }
      rewrite <- INR_IZR_INZ in E. rewrite E. lra.
    - assert (E : IZR (Z.of_nat n) = IZR (k + 1)).
      { f_equal. apply Z.le_antisymm.
        + apply Zlt_succ_le. apply lt_IZR.
          rewrite succ_IZR, plus_IZR, <- INR_IZR_INZ. lra.
        + apply Zlt_succ_le. apply lt_IZR.
          rewrite succ_IZR, plus_IZR, <- INR_IZR_INZ. lra. }
      rewrite <- INR_IZR_INZ, plus_IZR in E. rewrite E. lra. }
  exists (map (fun i => start + INR i * step + offset) (seq 0 (S n))), n.
  split; [exact Heq|]. split; [reflexivity|].
  rewrite last_grid.
  split; [|split; [|split; [|split; [|split; [|split]]]]].
  - intros i j [Hij Hj]. rewrite length_grid in Hj.
    rewrite !nth_grid by lia. apply lt_INR in Hij. nra.
  - rewrite nth_grid by lia. simpl. lra.
  - exact Hn.
  - lra.
  - intros H. exists (Z.of_nat n). rewrite <- INR_IZR_INZ.
    replace stop with (start + INR n * step) by lra. field. lra.
  - intros Herr1 Hk. destruct (Hwhole Herr1 Hk) as [H1 H2].
    split; intros Hcmp; [pose proof (H1 Hcmp) | pose proof (H2 Hcmp)]; lra.
  - intros Herr1 Hcmp Hclip [k Hk]. exists n.
    assert (Hstart : start = B0 - multiplier * deltaB)
      by (unfold start; apply Rmax_right; assumption).
    split.
    + apply map_ext. intros i. rewrite Hstart. lra.
    + assert (H : start + INR n * step = stop).
      { apply Hwhole; [assumption | | assumption].
        exists k. rewrite <- Hk, Hstart. unfold stop, step. field. lra. }
      rewrite <- Hstart. lra.
Qed.

(** The first example of section 8, with the quotient as double
    arithmetic yields it (a little above 97): the medium-accuracy plan
    around 0.05 T starts at 0.034, has 98 points and ends one step above
    0.066. *)
Lemma calc_B_range_plan_witness :
  exists l : list R,
    FMR.calc_B_range_rounded
      (fun _ => binary64.value binary64.quotient_B0_0_05)
      (5 / 100) (2 / 1000) 8 6 0 = Ok l
    /\ length l = 98%nat
    /\ Spec.strictly_ascending l
    /\ nth 0 l 0 = 34 / 1000
    /\ last l 0 = 66 / 1000 + 1 / 3000.
Proof.
  pose proof quotient_B0_0_05_value as Hv.
  assert (Hq : (5 / 100 + 8 * (2 / 1000) + 2 / 1000 / 6
                - Rmax 0 (5 / 100 - 8 * (2 / 1000))) / (2 / 1000 / 6) = 97).
  { rewrite Rmax_right by lra. field. }
  pose proof (calc_B_range_plan
                (fun _ => binary64.value binary64.quotient_B0_0_05)
                (5 / 100) (2 / 1000) 8 6 0 (1 / 10 ^ 12)
                ltac:(lra) ltac:(lra) ltac:(lra)) as H.
  cbv zeta beta in H. rewrite Hq in H.
  destruct H
    as (l & n & Hl & Hgrid & Hasc & Hfirst & Hn & _ & _ & Hwhole & _).
  { unfold Rabs. destruct (Rcase_abs _); lra. }
  { lra. }
  assert (Hk : exists k : Z,
             (5 / 100 + 8 * (2 / 1000) - Rmax 0 (5 / 100 - 8 * (2 / 1000)))
             / (2 / 1000 / 6) = IZR k).
  { exists 96%Z. rewrite Rmax_right by lra. field. }
  destruct (Hwhole ltac:(lra) Hk) as [_ Hlast].
  specialize (Hlast ltac:(lra)).
  rewrite Rmax_right in Hfirst by lra.
  assert (En : n = 97%nat).
  { apply (count_from_bounds n 97 _ Hn).
    rewrite (INR_IZR_INZ 97). cbn [Z.of_nat Pos.of_succ_nat Pos.succ]. lra. }
  exists l. repeat split.
  - exact Hl.
  - rewrite Hgrid, length_grid, En. reflexivity.
  - exact Hasc.
  - rewrite Hfirst. lra.
  - rewrite Hlast. lra.
Defined.

(** C2, counterexample.  With the lower end clipped the grid hangs on 0, and
    for B0 = 0.0015, deltaB = 0.002, multiplier = 8, sampling = 6 the upper
    end 0.0175 lies between two grid points (the quotient is 53.5, and a
    little above it as double arithmetic yields it): the plan has 54
    points, ends at 53/3000 > 0.0175 and does not run from 0 to 0.0175. *)
Lemma calc_B_range_plan_counterexample :
  exists l : list R,
    FMR.calc_B_range_rounded
      (fun _ => binary64.value binary64.quotient_B0_0_0015)
      (15 / 10000) (2 / 1000) 8 6 0 = Ok l
    /\ length l = 54%nat
    /\ last l 0 = 53 / 3000
    /\ 15 / 10000 + 8 * (2 / 1000) + 0 < last l 0
    /\ ~ Spec.runs_from_to l (Rmax 0 (15 / 10000 - 8 * (2 / 1000)) + 0)
                             (15 / 10000 + 8 * (2 / 1000) + 0)
                             (2 / 1000 / 6).
Proof.
  pose proof quotient_B0_0_0015_value as Hv.
  assert (Hc : ceil (binary64.value binary64.quotient_B0_0_0015) = 54%Z).
  { apply ceil_spec. lra. }
  eexists. split.
  { rewrite calc_B_range_rounded_unfold by lra. rewrite Hc. reflexivity. }
  change (Z.to_nat 54) with 54%nat.
  rewrite length_grid, last_grid, Rmax_left by lra.
  rewrite (INR_IZR_INZ 53).
  cbn [Z.of_nat Pos.of_succ_nat Pos.succ].
  repeat split; try lra.
  intros (n & Hl & Hend).
  apply (f_equal (@length R)) in Hl. rewrite !length_grid in Hl.
  injection Hl as <-.
  rewrite (INR_IZR_INZ 53) in Hend. cbn [Z.of_nat Pos.of_succ_nat Pos.succ] in Hend.
  lra.
Qed.

(** The second example of section 8: around 0.001 T the lower end is
    clipped, and the plan starts at 0; the computed quotient is a little
    above 52, so the plan has 53 points and ends one step above 0.017. *)
Lemma calc_B_range_clipped_example :
  exists l : list R,
    FMR.calc_B_range_rounded
      (fun _ => binary64.value binary64.quotient_B0_0_001)
      (1 / 1000) (2 / 1000) 8 6 0 = Ok l
    /\ nth 0 l 0 = 0
    /\ length l = 53%nat
    /\ last l 0 = 17 / 1000 + 1 / 3000.
Proof.
  pose proof quotient_B0_0_001_value as Hv.
  assert (Hc : ceil (binary64.value binary64.quotient_B0_0_001) = 53%Z).
  { apply ceil_spec. lra. }
  eexists. split.
  { rewrite calc_B_range_rounded_unfold by lra. rewrite Hc. reflexivity. }
  change (Z.to_nat 53) with 53%nat.
  rewrite length_grid, last_grid, nth_grid, Rmax_left by (lra || lia).
  rewrite (INR_IZR_INZ 52). cbn [Z.of_nat Pos.of_succ_nat Pos.succ].
  simpl INR. repeat split; lra.
Qed.

(** C9.  The lower end is clipped before the offset is added: whenever
    [B0 - multiplier * deltaB < 0] and the plan has a first point at all,
    that point is exactly the offset, so a strictly negative offset puts a
    negative field into the plan.  The plan has a first point when
    [sampling] and [deltaB] are not zero (the code raises otherwise) and
    the count [(stop + step) / step] of [np.arange] is positive; for
    positive [deltaB], [multiplier] and [sampling] this is so for every
    [B0 >= 0]. *)
Theorem calc_B_range_clip_before_offset
  (B0 deltaB multiplier sampling offset : R) :
  sampling <> 0 -> deltaB <> 0 ->
  0 < (B0 + multiplier * deltaB + deltaB / sampling) / (deltaB / sampling) ->
  B0 - multiplier * deltaB < 0 ->
  exists (b : R) (rest : list R),
    FMR.calc_B_range B0 deltaB multiplier sampling offset = Ok (b :: rest)
    /\ b = offset
    /\ (offset < 0 -> exists v, In v (b :: rest) /\ v < 0).
Proof.
  intros Hs Hd Hcount Hclip.
  assert (Hstep : deltaB / sampling <> 0).
  { unfold Rdiv. apply Rmult_integral_contrapositive_currified; auto.
    now apply Rinv_neq_0_compat. }
  rewrite calc_B_range_unfold by assumption.
  rewrite Rmax_left by lra.
  set (q := (B0 + multiplier * deltaB - 0) / (deltaB / sampling)).
  assert (Hq : -1 < q).
  { replace q with ((B0 + multiplier * deltaB + deltaB / sampling)
                    / (deltaB / sampling) - 1) by (unfold q; field; auto).
    lra. }
  pose proof (ceil_nonneg q Hq) as Hc.
  replace (Z.to_nat (ceil q + 1)) with (S (Z.to_nat (ceil q))) by lia.
  cbn [seq map].
  eexists _, _. split; [reflexivity|].
  split; [simpl; lra|].
  intros Hoff. eexists. split; [left; reflexivity|]. simpl. lra.
Qed.

Lemma calc_B_range_clip_before_offset_witness :
  exists (b : R) (rest : list R),
    FMR.calc_B_range (1 / 1000) (2 / 1000) 8 6 (- (3 / 1000)) = Ok (b :: rest)
    /\ b = - (3 / 1000)
    /\ exists v, In v (b :: rest) /\ v < 0.
Proof.
  destruct (calc_B_range_clip_before_offset (1 / 1000) (2 / 1000) 8 6 (- (3 / 1000)))
    as (b & rest & Heq & Hb & Hneg); try lra.
  exists b, rest. repeat split; try assumption. apply Hneg. lra.
Defined.

(** The same with the count of [np.arange] taken on the computed quotient
    [fl q]: whenever that is positive, the first point of a clipped plan is
    the offset. *)
Lemma calc_B_range_rounded_clip_before_offset (fl : R -> R)
  (B0 deltaB multiplier sampling offset : R) :
  sampling <> 0 -> deltaB <> 0 ->
  0 < fl ((B0 + multiplier * deltaB + deltaB / sampling - 0)
          / (deltaB / sampling)) ->
  B0 - multiplier * deltaB < 0 ->
  exists (b : R) (rest : list R),
    FMR.calc_B_range_rounded fl B0 deltaB multiplier sampling offset
    = Ok (b :: rest)
    /\ b = offset
    /\ (offset < 0 -> exists v, In v (b :: rest) /\ v < 0).
Proof.
  intros Hs Hd Hcount Hclip.
  rewrite calc_B_range_rounded_unfold by assumption.
  rewrite Rmax_left by lra.
  set (c := fl _) in *.
  pose proof (ceil_bounds c) as [_ Hc].
  assert (H : (0 < ceil c)%Z) by (apply lt_IZR; lra).
  replace (Z.to_nat (ceil c)) with (S (Z.to_nat (ceil c - 1))) by lia.
  cbn [seq map].
  eexists _, _. split; [reflexivity|].
  split; [simpl; lra|].
  intros Hoff. eexists. split; [left; reflexivity|]. simpl. lra.
Qed.

(** For positive linewidth, multiplier and sampling density the plan of a
    non-negative expected field is never empty. *)
Lemma calc_B_range_count_positive (B0 deltaB multiplier sampling : R) :
  0 < deltaB -> 0 < multiplier -> 0 < sampling -> 0 <= B0 ->
  0 < (B0 + multiplier * deltaB + deltaB / sampling) / (deltaB / sampling).
Proof.
  intros Hd Hm Hs HB.
  assert (0 < deltaB / sampling) by (apply Rdiv_lt_0_compat; assumption).
  apply Rdiv_lt_0_compat; nra.
Qed.

(** ** Kittel relations *)

Lemma gamma_prime_pos (g : R) : 0 < g -> 0 < Spec.gamma_prime g.
Proof.
  intros Hg. unfold Spec.gamma_prime, e, me.
  pose proof PI_RGT_0 as Hpi.
  apply Rdiv_lt_0_compat; [|lra].
  apply Rdiv_lt_0_compat; [|lra].
  apply Rmult_lt_0_compat; lra.
Qed.

(** C4.  On a field [B >= 0] the in-plane model function returns
    [gamma' * sqrt (B * (B + mu0 * M))] and the out-of-plane one
    [gamma' * (B - mu0 * M)], with [gamma' = g * e / (2 * me) / (2 * pi)]
    from the shared constants; on an array of fields, entry by entry. *)
Theorem kittel_fitfunctions_formula (B M g : R) (Bs : list R) :
  0 <= B ->
  Fit.kittel_fitfunction_inplane B M g
    = g * e / (2 * me) / (2 * PI) * sqrt (B * (B + mu0 * M))
  /\ Fit.kittel_fitfunction_outofplane B M g
    = g * e / (2 * me) / (2 * PI) * (B - mu0 * M)
  /\ Fit.kittel_fitfunction_inplane B M g = Spec.kittel_inplane M g B
  /\ Fit.kittel_fitfunction_outofplane B M g = Spec.kittel_outofplane M g B
  /\ Fit.apply2 Fit.kittel_fitfunction_inplane Bs [M; g]
    = Ok (map (Spec.kittel_inplane M g) Bs)
  /\ Fit.apply2 Fit.kittel_fitfunction_outofplane Bs [M; g]
    = Ok (map (Spec.kittel_outofplane M g) Bs).
Proof.
  intros _. repeat split; reflexivity.
Qed.

Lemma kittel_fitfunctions_formula_witness :
  Fit.kittel_fitfunction_inplane 0 1 2 = 0
  /\ Fit.kittel_fitfunction_outofplane 0 0 2 = 0.
Proof.
  destruct (kittel_fitfunctions_formula 0 1 2 []) as (Hip & _); [lra|].
  destruct (kittel_fitfunctions_formula 0 0 2 []) as (_ & Hoop & _); [lra|].
  rewrite Hip, Hoop. split.
  - rewrite Rmult_0_l, sqrt_0. ring.
  - ring.
Defined.

(** The resonance fields that the planner computes are never negative. *)
Lemma kittel_resonance_field_ip_nonneg (f M gamma_prime : R) :
  0 <= FMR.kittel_resonance_field_ip f M gamma_prime.
Proof.
  unfold FMR.kittel_resonance_field_ip, np.sqrt.
  set (a := mu0 * M / 2).
  set (q := f ^ 2 / gamma_prime ^ 2).
  assert (Hq : 0 <= q).
  { unfold q, Rdiv. replace (f ^ 2 * / gamma_prime ^ 2)
      with ((f * / gamma_prime) ^ 2).
    - apply pow2_ge_0.
    - rewrite Rpow_mult_distr, pow_inv. reflexivity. }
  replace (mu0 ^ 2 * M ^ 2 / 4) with (a ^ 2) by (unfold a; field).
  assert (Ha : Rabs a <= sqrt (a ^ 2 + q)).
  { rewrite <- sqrt_Rsqr_abs. apply sqrt_le_1_alt. unfold Rsqr. nra. }
  replace (- mu0 * M / 2) with (- a) by (unfold a; field).
  pose proof (Rle_abs a). lra.
Qed.

Lemma kittel_resonance_field_oop_nonneg (f M gamma_prime : R) :
  0 <= FMR.kittel_resonance_field_oop f M gamma_prime.
Proof. apply Rabs_pos. Qed.

(** C8.  The model functions of the Kittel fit undo the planner's
    resonance-field formulas: with [gamma' = g * e / (2 * me) / (2 * pi)],
    [f >= 0], [M >= 0] and [g > 0], evaluating the in-plane model at the
    in-plane resonance field of [f] gives [f] back, and so does the
    out-of-plane pair whenever [f / gamma' + mu0 * M >= 0]. *)
Theorem kittel_round_trip (f M g : R) :
  0 <= f -> 0 <= M -> 0 < g ->
  let gamma_prime := g * e / (2 * me) / (2 * PI) in
  Fit.kittel_fitfunction_inplane
    (FMR.kittel_resonance_field_ip f M gamma_prime) M g = f
  /\ (0 <= f / gamma_prime + mu0 * M ->
      Fit.kittel_fitfunction_outofplane
        (FMR.kittel_resonance_field_oop f M gamma_prime) M g = f).
Proof.
  intros Hf _ Hg gamma_prime.
  assert (Hgp : 0 < gamma_prime) by (apply (gamma_prime_pos g Hg)).
  split.
  - unfold Fit.kittel_fitfunction_inplane, FMR.kittel_resonance_field_ip,
      np.sqrt, np.pi.
    fold gamma_prime.
    set (a := mu0 * M / 2).
    set (r := f / gamma_prime).
    assert (Hr : 0 <= r) by (apply Rle_mult_inv_pos; assumption).
    replace (mu0 ^ 2 * M ^ 2 / 4 + f ^ 2 / gamma_prime ^ 2) with (a ^ 2 + r ^ 2)
      by (unfold a, r; field; lra).
    assert (Hs : 0 <= a ^ 2 + r ^ 2) by nra.
    set (s := sqrt (a ^ 2 + r ^ 2)).
    assert (Hss : s * s = a ^ 2 + r ^ 2) by (apply sqrt_sqrt; assumption).
    replace ((- mu0 * M / 2 + s) * (- mu0 * M / 2 + s + mu0 * M))
      with (r * r) by (unfold a in *; nra).
    rewrite sqrt_square by assumption.
    unfold r. field. lra.
  - intros Hpos.
    unfold Fit.kittel_fitfunction_outofplane, FMR.kittel_resonance_field_oop,
      np.pi.
    fold gamma_prime. rewrite Rabs_pos_eq by assumption.
    field. lra.
Qed.

Lemma kittel_round_trip_witness :
  Fit.kittel_fitfunction_inplane
    (FMR.kittel_resonance_field_ip 1 1 (2 * e / (2 * me) / (2 * PI))) 1 2 = 1
  /\ Fit.kittel_fitfunction_outofplane
       (FMR.kittel_resonance_field_oop 1 1 (2 * e / (2 * me) / (2 * PI))) 1 2 = 1.
Proof.
  destruct (kittel_round_trip 1 1 2) as [Hip Hoop]; try lra.
  split; [exact Hip|].
  apply Hoop.
  pose proof (gamma_prime_pos 2 ltac:(lra)) as Hgp.
  unfold Spec.gamma_prime in Hgp.
  assert (0 < 1 / (2 * e / (2 * me) / (2 * PI)))
    by (apply Rdiv_lt_0_compat; lra).
  unfold mu0. lra.
Defined.

(** ** The result monad *)

Lemma bind_Ok_inv {A B : Type} (m : result A) (k : A -> result B) (b : B) :
  bind m k = Ok b -> exists a, m = Ok a /\ k a = Ok b.
Proof.
  destruct m as [a|err]; simpl; intros H; [eauto | discriminate].
Qed.

Ltac bind_inv H :=
  let a := fresh "a" in
  let Ha := fresh "Ha" in
  apply bind_Ok_inv in H; destruct H as (a & Ha & H).

(** ** Bounds of the line fit *)

(** The guess and the bounds of a call of the fit have the length of the
    variant's parameter vector, and the bounds are those of the layout. *)
Lemma fit_derivative_call_shape (voigt_profile : R -> R -> R -> R)
  (x y : list R) (v : Spec.LineShape) (call : Fit.curve_fit_call) :
  Fit.fit_derivative_call voigt_profile x y (Spec.profile_name v) = Ok call ->
  Fit.bounds call = Some (map Spec.lower_bound (Spec.layout v),
                          map Spec.upper_bound (Spec.layout v))
  /\ length (Fit.p0 call) = length (Spec.layout v)
  /\ Fit.xdata call = x /\ Fit.ydata call = y
  /\ Fit.f call = match v with
                  | Spec.Lorentz => Fit.lorentz_model
                  | Spec.AsymmetricLorentz => Fit.asymmetric_lorentz_model
                  | Spec.Voigt => Fit.voigt_model voigt_profile
                  end.
Proof.
  unfold Fit.fit_derivative_call. intros H.
  do 8 bind_inv H.
  destruct a6 as [center scale].
  destruct v; cbn in H; injection H as <-; cbn; auto.
Qed.

(** C7.  Whatever the curve and the variant, the bounds handed to the
    bounded least-squares fit, one per parameter of the variant's model
    function and in the order of its layout, are: lower bound 0 for the
    center and Gamma (and sigma for Voigt), minus infinity for every other
    parameter, and plus infinity for every upper bound. *)
Theorem fit_derivative_bounds (voigt_profile : R -> R -> R -> R)
  (x y : list R) (v : Spec.LineShape) (call : Fit.curve_fit_call) :
  Fit.fit_derivative_call voigt_profile x y (Spec.profile_name v) = Ok call ->
  exists lb ub : list np.ext,
    Fit.bounds call = Some (lb, ub)
    /\ Fit.f call = match v with
                    | Spec.Lorentz => Fit.lorentz_model
                    | Spec.AsymmetricLorentz => Fit.asymmetric_lorentz_model
                    | Spec.Voigt => Fit.voigt_model voigt_profile
                    end
    /\ length lb = length (Spec.layout v)
    /\ length ub = length (Spec.layout v)
    /\ forall (i : nat) (p : Spec.param),
         nth_error (Spec.layout v) i = Some p ->
         nth_error ub i = Some np.inf
         /\ nth_error lb i =
              Some (match p with
                    | Spec.center | Spec.halfwidth | Spec.sigma => np.fin 0
                    | _ => np.ninf
                    end).
Proof.
  intros H. apply fit_derivative_call_shape in H.
  destruct H as (Hb & _ & _ & _ & Hf).
  exists (map Spec.lower_bound (Spec.layout v)),
         (map Spec.upper_bound (Spec.layout v)).
  split; [exact Hb|]. split; [exact Hf|].
  rewrite !length_map. split; [reflexivity|].
  split; [reflexivity|].
  intros i p Hp. rewrite !nth_error_map, Hp. split; reflexivity.
Qed.

(** ** [np.argmin] and [np.argmax] *)

(** The scan of [np.argmin], started inside the array [whole] at index [i]
    with the best entry so far at [bi], ends on the first index of the
    least entry of [whole]. *)
Lemma argmin_from_spec (whole : list R) :
  forall (rest : list R) (best : R) (bi i : nat),
    (bi < i)%nat ->
    (i + length rest = length whole)%nat ->
    (forall j, (j < length rest)%nat -> nth (i + j) whole 0 = nth j rest 0) ->
    nth bi whole 0 = best ->
    (forall j, (j < i)%nat -> best <= nth j whole 0) ->
    (forall j, (j < bi)%nat -> best < nth j whole 0) ->
    let k := np.argmin_from best bi i rest in
    (k < length whole)%nat
    /\ (forall j, (j < length whole)%nat -> nth k whole 0 <= nth j whole 0)
    /\ (forall j, (j < k)%nat -> nth k whole 0 < nth j whole 0).
Proof.
  induction rest as [|v t IH]; intros best bi i Hbi Hlen Hrest Hbest Hmin Hfirst.
  - simpl in *. rewrite Nat.add_0_r in Hlen. subst i.
    repeat split; [lia | rewrite Hbest; exact Hmin | rewrite Hbest; exact Hfirst].
  - simpl in Hlen.
    assert (Hv : nth i whole 0 = v).
    { rewrite <- (Nat.add_0_r i) at 1. rewrite Hrest; simpl; [reflexivity | lia]. }
    assert (Ht : forall j, (j < length t)%nat -> nth (S i + j) whole 0 = nth j t 0).
    { intros j Hj. replace (S i + j)%nat with (i + S j)%nat by lia.
      rewrite Hrest; simpl; [reflexivity | lia]. }
    cbn [np.argmin_from]. destruct (Rlt_dec v best) as [Hlt|Hge].
    + apply IH; try assumption; try lia.
      * intros j Hj. destruct (Nat.eq_dec j i) as [->|Hne].
        -- rewrite Hv. lra.
        -- specialize (Hmin j ltac:(lia)). lra.
      * intros j Hj. specialize (Hmin j Hj). lra.
    + apply IH; try assumption; try lia.
      intros j Hj. destruct (Nat.eq_dec j i) as [->|Hne].
      * rewrite Hv. lra.
      * apply Hmin. lia.
Qed.

Lemma argmin_spec (a : list R) :
  a <> [] ->
  exists k : nat,
    np.argmin a = Ok k
    /\ Spec.is_argmin a k
    /\ (forall j, (j < k)%nat -> nth k a 0 < nth j a 0).
Proof.
  destruct a as [|v t]; [congruence|]. intros _.
  exists (np.argmin_from v 0 1 t). split; [reflexivity|].
  destruct (argmin_from_spec (v :: t) t v 0 1) as (Hk & Hmin & Hfirst);
    simpl; try lia; try reflexivity.
  - intros j Hj. destruct j; [lra | lia].
  - repeat split; assumption.
Qed.

Lemma argmax_from_opp (a : list R) :
  forall (best : R) (bi i : nat),
    np.argmax_from best bi i a = np.argmin_from (- best) bi i (map Ropp a).
Proof.
  induction a as [|v t IH]; intros best bi i; simpl; [reflexivity|].
  destruct (Rlt_dec best v), (Rlt_dec (- v) (- best)); try lra; apply IH.
Qed.

Lemma nth_opp (a : list R) (i : nat) : nth i (map Ropp a) 0 = - nth i a 0.
Proof.
  rewrite <- Ropp_0 at 1. apply map_nth.
Qed.

Lemma argmax_spec (a : list R) :
  a <> [] ->
  exists k : nat,
    np.argmax a = Ok k
    /\ Spec.is_argmax a k
    /\ (forall j, (j < k)%nat -> nth j a 0 < nth k a 0).
Proof.
  intros Ha.
  destruct (argmin_spec (map Ropp a)) as (k & Hk & [Hlt Hmin] & Hfirst).
  { destruct a; [congruence | discriminate]. }
  exists k. rewrite length_map in *. split; [|split; [split|]].
  - destruct a as [|v t]; [congruence|]. simpl in *.
    rewrite argmax_from_opp. exact Hk.
  - exact Hlt.
  - intros i Hi. specialize (Hmin i Hi). rewrite !nth_opp in Hmin. lra.
  - intros j Hj. specialize (Hfirst j Hj). rewrite !nth_opp in Hfirst. lra.
Qed.

Lemma getitem_nth (a : list R) (i : nat) :
  (i < length a)%nat -> getitem a i = Ok (nth i a 0).
Proof.
  intros Hi. unfold getitem.
  destruct (nth_error a i) as [v|] eqn:Hnth.
  - now rewrite (nth_error_nth _ _ _ Hnth).
  - apply nth_error_None in Hnth. lia.
Qed.

(** ** [cumtrapz] *)

Lemma trapezoids_grid (y : list R) :
  forall x : list R,
    length x = length y ->
    scipy.integrate.trapezoids y x =
    map (fun i => (nth (S i) x 0 - nth i x 0) * (nth (S i) y 0 + nth i y 0) / 2)
        (seq 0 (length y - 1)).
Proof.
  induction y as [|y0 yt IH]; intros x Hlen; [reflexivity|].
  destruct x as [|x0 xt]; [discriminate|].
  destruct yt as [|y1 yt]; [reflexivity|].
  destruct xt as [|x1 xt]; [discriminate|].
  change (scipy.integrate.trapezoids (y0 :: y1 :: yt) (x0 :: x1 :: xt))
    with ((x1 - x0) * (y1 + y0) / 2
          :: scipy.integrate.trapezoids (y1 :: yt) (x1 :: xt)).
  rewrite (IH (x1 :: xt)) by (simpl in *; lia).
  replace (length (y0 :: y1 :: yt) - 1)%nat with (S (length (y1 :: yt) - 1))
    by (simpl; lia).
  cbn [seq map]. f_equal.
  rewrite <- seq_shift, map_map. reflexivity.
Qed.

Lemma cumsum_from_length (a : list R) :
  forall acc, length (scipy.integrate.cumsum_from acc a) = length a.
Proof. induction a; intros acc; simpl; [reflexivity | now rewrite IHa]. Qed.

Lemma cumsum_from_nth (a : list R) :
  forall (acc : R) (k : nat),
    (k < length a)%nat ->
    nth k (scipy.integrate.cumsum_from acc a) 0 = acc + sum (firstn (S k) a).
Proof.
  induction a as [|v t IH]; intros acc k Hk; [simpl in Hk; lia|].
  destruct k as [|k].
  - simpl. destruct t; simpl; lra.
  - cbn [scipy.integrate.cumsum_from nth]. rewrite IH by (simpl in Hk; lia).
    rewrite (firstn_cons (S k) v t). unfold sum. simpl. lra.
Qed.

Lemma firstn_seq_le (j : nat) :
  forall a m : nat, (j <= m)%nat -> firstn j (seq a m) = seq a j.
Proof.
  induction j as [|j IH]; intros a m Hj; [reflexivity|].
  destruct m as [|m]; [lia|]. simpl. f_equal. apply IH. lia.
Qed.

(** Entry [k] of the array that [cumtrapz] returns is the integral from the
    first sample up to sample [k + 1]: the array has one entry less than
    the curve and is shifted by one sample against the field axis. *)
Lemma cumtrapz_entries (d x : list R) :
  length x = length d ->
  exists integral : list R,
    scipy.integrate.cumtrapz d x = Ok integral
    /\ length integral = (length d - 1)%nat
    /\ forall k, (k < length d - 1)%nat ->
                 nth k integral 0 = Spec.integral_upto d x (S k).
Proof.
  intros Hlen. unfold scipy.integrate.cumtrapz.
  rewrite Hlen, Nat.eqb_refl. cbn [negb].
  eexists. split; [reflexivity|].
  rewrite cumsum_from_length, trapezoids_grid, length_grid by assumption.
  split; [reflexivity|].
  intros k Hk. rewrite cumsum_from_nth by (rewrite length_grid; lia).
  rewrite firstn_map, firstn_seq_le by lia.
  unfold Spec.integral_upto. rewrite Rplus_0_l. f_equal.
  apply map_ext. intros i. lra.
Qed.

(** ** The initial guess of the line fit *)

(** What [fit_derivative] hands to the fit for a curve of at least two
    samples.  [k] is the index, within the array returned by [cumtrapz], of
    its least (down-up) or greatest (up-down) entry; the centre is
    [x[k]] and the scale comes from [y[k]]. *)
Lemma fit_derivative_call_guess (voigt_profile : R -> R -> R -> R)
  (x y : list R) (v : Spec.LineShape) :
  length x = length y -> (2 <= length y)%nat ->
  exists (call : Fit.curve_fit_call) (jmin jmax k : nat) (integral : list R),
    Fit.fit_derivative_call voigt_profile x y (Spec.profile_name v) = Ok call
    /\ np.argmin y = Ok jmin /\ np.argmax y = Ok jmax
    /\ scipy.integrate.cumtrapz (map (fun s => s - np.mean y) y) x = Ok integral
    /\ (if (jmin <? jmax)%nat then np.argmin integral else np.argmax integral)
       = Ok k
    /\ (k < length y - 1)%nat
    /\ Fit.p0 call =
       map (Spec.guess_of ((nth k y 0 - np.mean y) * Spec.scale_correction v)
                          (nth k x 0)
                          (Rabs (nth jmax x 0 - nth jmin x 0) / 2 * sqrt 3)
                          (np.mean y))
           (Spec.layout v).
Proof.
  intros Hlen Hn.
  assert (Hy : y <> []) by (destruct y; [simpl in Hn; lia | discriminate]).
  destruct (argmin_spec y Hy) as (jmin & Hjmin & [Hjmin_lt _] & _).
  destruct (argmax_spec y Hy) as (jmax & Hjmax & [Hjmax_lt _] & _).
  destruct (cumtrapz_entries (map (fun s => s - np.mean y) y) x)
    as (integral & Hint & Hint_len & _); [now rewrite length_map|].
  rewrite length_map in Hint_len.
  assert (Hi : integral <> []).
  { destruct integral; [simpl in Hint_len; lia | discriminate]. }
  assert (Hk : exists k, (if (jmin <? jmax)%nat then np.argmin integral
                          else np.argmax integral) = Ok k
                         /\ (k < length y - 1)%nat).
  { destruct (jmin <? jmax)%nat.
    - destruct (argmin_spec integral Hi) as (k & Hk & [Hk_lt _] & _).
      exists k. split; [assumption | lia].
    - destruct (argmax_spec integral Hi) as (k & Hk & [Hk_lt _] & _).
      exists k. split; [assumption | lia]. }
  destruct Hk as (k & Hk & Hk_lt).
  assert (Hcall : exists call,
    Fit.fit_derivative_call voigt_profile x y (Spec.profile_name v) = Ok call
    /\ Fit.p0 call =
       map (Spec.guess_of ((nth k y 0 - np.mean y) * Spec.scale_correction v)
                          (nth k x 0)
                          (Rabs (nth jmax x 0 - nth jmin x 0) / 2 * sqrt 3)
                          (np.mean y))
           (Spec.layout v)).
  { unfold Fit.fit_derivative_call.
    rewrite Hjmax; cbn [bind]. rewrite (getitem_nth x jmax) by lia; cbn [bind].
    rewrite Hjmin; cbn [bind]. rewrite (getitem_nth x jmin) by lia; cbn [bind].
    rewrite Hint; cbn [bind].
    destruct (jmin <? jmax)%nat; rewrite Hk; cbn [bind];
      rewrite (getitem_nth x k), (getitem_nth y k) by lia; cbn [bind];
      destruct v; cbn; eexists; (split; [reflexivity|]); cbn;
      unfold np.abs, np.sqrt; repeat f_equal; lra. }
  destruct Hcall as (call & Hcall & Hp0).
  exists call, jmin, jmax, k, integral. repeat split; assumption.
Qed.

Ltac Rdec :=
  repeat match goal with
         | |- context [Rlt_dec ?a ?b] => destruct (Rlt_dec a b); try lra
         end.

Lemma mean_example : np.mean [0; -1; 0; 1; 0] = 0.
Proof. unfold np.mean, sum. simpl. lra. Qed.

Lemma argmin_example : np.argmin [0; -1; 0; 1; 0] = Ok 1%nat.
Proof. cbn. Rdec. reflexivity. Qed.

Lemma argmax_example : np.argmax [0; -1; 0; 1; 0] = Ok 3%nat.
Proof. cbn. Rdec. reflexivity. Qed.

(** On the example the array of [cumtrapz] has its least entry at index 1:
    that entry is the integral up to the sample of index 2. *)
Lemma cumtrapz_example :
  exists integral : list R,
    scipy.integrate.cumtrapz (map (fun v => v - 0) [0; -1; 0; 1; 0])
                             [0; 1; 2; 3; 4] = Ok integral
    /\ np.argmin integral = Ok 1%nat.
Proof.
  eexists. split; [reflexivity|]. cbn. Rdec. reflexivity.
Qed.

(** The guess of [fit_derivative] on a symmetric down-up line centred on
    the field 2. *)
Lemma fit_derivative_call_example (voigt_profile : R -> R -> R -> R) :
  exists call : Fit.curve_fit_call,
    Fit.fit_derivative_call voigt_profile [0; 1; 2; 3; 4] [0; -1; 0; 1; 0]
      "Lorentz" = Ok call
    /\ Fit.p0 call = [- (1 / 100); 1; sqrt 3; 0].
Proof.
  destruct cumtrapz_example as (integral & Hint & Hk).
  unfold Fit.fit_derivative_call. rewrite mean_example.
  rewrite argmax_example, argmin_example, Hint. cbn [bind getitem nth_error].
  change (1 <? 3)%nat with true. cbv iota. rewrite Hk.
  cbn [bind getitem nth_error]. cbn.
  eexists. split; [reflexivity|]. cbn.
  unfold np.abs, np.sqrt. rewrite Rabs_pos_eq by lra.
  repeat f_equal; lra.
Qed.

Ltac nat_cases j H :=
  let Hc := fresh "Hc" in
  assert (Hc : (j = 0 \/ j = 1 \/ j = 2 \/ j = 3 \/ j = 4)%nat) by lia;
  clear H; destruct Hc as [->|[->|[->|[->| ->]]]].

(** On the same curve the integral over the field axis is least at the
    field 2, and the estimator of the specification has one guess only. *)
Lemma estimator_guess_example (guess : list R) :
  Spec.estimator_guess Spec.Lorentz [0; 1; 2; 3; 4] [0; -1; 0; 1; 0] guess
  <-> guess = [0; 2; sqrt 3; 0].
Proof.
  unfold Spec.estimator_guess. cbv zeta. rewrite mean_example. split.
  - intros (jmin & jmax & j & [Hjmin Hmin] & [Hjmax Hmax] & Hj & ->).
    assert (Ejmin : jmin = 1%nat).
    { specialize (Hmin 1%nat ltac:(simpl; lia)). simpl in Hjmin.
      nat_cases jmin Hjmin; simpl in Hmin; try lra; reflexivity. }
    assert (Ejmax : jmax = 3%nat).
    { specialize (Hmax 3%nat ltac:(simpl; lia)). simpl in Hjmax.
      nat_cases jmax Hjmax; simpl in Hmax; try lra; reflexivity. }
    subst jmin jmax. change (1 <? 3)%nat with true in Hj. cbv iota in Hj.
    destruct Hj as [Hjlt Hjmin'].
    assert (Ej : j = 2%nat).
    { specialize (Hjmin' 2%nat ltac:(simpl; lia)).
      unfold Spec.integral_curve in Hjlt. rewrite length_grid in Hjlt.
      simpl in Hjlt.
      nat_cases j Hjlt; unfold Spec.integral_curve, Spec.integral_upto, sum in Hjmin';
        simpl in Hjmin'; try lra; reflexivity. }
    subst j. cbn. rewrite Rabs_pos_eq by lra. repeat f_equal; lra.
  - intros ->. exists 1%nat, 3%nat, 2%nat.
    split; [|split; [|split]].
    + split; [simpl; lia|]. intros i Hi. simpl in Hi.
      nat_cases i Hi; simpl; lra.
    + split; [simpl; lia|]. intros i Hi. simpl in Hi.
      nat_cases i Hi; simpl; lra.
    + change (1 <? 3)%nat with true. cbv iota.
      split; [unfold Spec.integral_curve; rewrite length_grid; simpl; lia|].
      intros i Hi. unfold Spec.integral_curve in Hi. rewrite length_grid in Hi.
      simpl in Hi.
      nat_cases i Hi; unfold Spec.integral_curve, Spec.integral_upto, sum;
        simpl; lra.
    + cbn. rewrite Rabs_pos_eq by lra. repeat f_equal; lra.
Qed.

(** A curve of one sample: [cumtrapz] returns an empty array, and taking
    its [argmin] or [argmax] raises [ValueError]. *)
Lemma fit_derivative_call_single_sample (voigt_profile : R -> R -> R -> R)
  (x0 y0 : R) (fitProfile : string) :
  Fit.fit_derivative_call voigt_profile [x0] [y0] fitProfile = Raise ValueError.
Proof. reflexivity. Qed.

(** For a curve of at least two samples, the centre of the guess is the
    field [x[k]] of the sample before the sample [k + 1] at which the
    integral over the field axis, taken over the samples 1, 2, ..., has its
    least (down-up) or greatest (up-down) value. *)
Lemma fit_derivative_centre_one_sample_early
  (voigt_profile : R -> R -> R -> R) (x y : list R) (v : Spec.LineShape) :
  length x = length y -> (2 <= length y)%nat ->
  exists (call : Fit.curve_fit_call) (jmin jmax k : nat),
    Fit.fit_derivative_call voigt_profile x y (Spec.profile_name v) = Ok call
    /\ np.argmin y = Ok jmin /\ np.argmax y = Ok jmax
    /\ (S k < length y)%nat
    /\ nth_error (Fit.p0 call) 1 = Some (nth k x 0)
    /\ let I := Spec.integral_upto (map (fun s => s - np.mean y) y) x in
       forall j, (1 <= j < length y)%nat ->
                 if (jmin <? jmax)%nat then I (S k) <= I j else I j <= I (S k).
Proof.
  intros Hlen Hn.
  destruct (fit_derivative_call_guess voigt_profile x y v Hlen Hn)
    as (call & jmin & jmax & k & integral & Hcall & Hjmin & Hjmax & Hint & Hk
        & Hk_lt & Hp0).
  destruct (cumtrapz_entries (map (fun s => s - np.mean y) y) x)
    as (integral' & Hint' & Hint_len & Hentries); [now rewrite length_map|].
  rewrite Hint in Hint'. injection Hint' as <-.
  rewrite length_map in Hint_len, Hentries.
  assert (Hi : integral <> []).
  { destruct integral; [simpl in Hint_len; lia | discriminate]. }
  exists call, jmin, jmax, k.
  split; [assumption|]. split; [assumption|]. split; [assumption|].
  split; [lia|]. split.
  - rewrite Hp0. destruct v; reflexivity.
  - intros I j Hj. subst I. destruct j as [|j]; [lia|].
    rewrite <- !Hentries by lia.
    destruct (jmin <? jmax)%nat.
    + destruct (argmin_spec integral Hi) as (k' & Hk' & [_ Hmin] & _).
      rewrite Hk in Hk'. injection Hk' as <-. apply Hmin. lia.
    + destruct (argmax_spec integral Hi) as (k' & Hk' & [_ Hmax] & _).
      rewrite Hk in Hk'. injection Hk' as <-. apply Hmax. lia.
Qed.

(** C1 (the code departs from the claim).  On the symmetric down-up line
    [y = 0, -1, 0, 1, 0] over the fields [0 .. 4] the integral of
    [signal - offset] over the field axis is least at the field 2, where
    the signal equals the offset: the estimator of the specification
    guesses the centre 2 and the scale 0.  [fit_derivative] reads the field
    and the signal at the index of the least entry of the array returned by
    [cumtrapz], which has no entry for the first sample: it guesses the
    centre 1 and the scale -0.01, one sample early. *)
Theorem fit_derivative_guess_one_sample_early
  (voigt_profile : R -> R -> R -> R) :
  exists call : Fit.curve_fit_call,
    Fit.fit_derivative_call voigt_profile [0; 1; 2; 3; 4] [0; -1; 0; 1; 0]
      (Spec.profile_name Spec.Lorentz) = Ok call
    /\ Fit.p0 call = [- (1 / 100); 1; sqrt 3; 0]
    /\ Spec.estimator_guess Spec.Lorentz [0; 1; 2; 3; 4] [0; -1; 0; 1; 0]
         [0; 2; sqrt 3; 0]
    /\ ~ Spec.estimator_guess Spec.Lorentz [0; 1; 2; 3; 4] [0; -1; 0; 1; 0]
           (Fit.p0 call).
Proof.
  destruct (fit_derivative_call_example voigt_profile) as (call & Hcall & Hp0).
  exists call. split; [exact Hcall|]. split; [exact Hp0|]. split.
  - now apply estimator_guess_example.
  - rewrite Hp0. intros H. apply estimator_guess_example in H.
    injection H as H1 H2. lra.
Qed.

Lemma fit_derivative_bounds_witness :
  exists lb ub : list np.ext,
    lb = [np.ninf; np.fin 0; np.fin 0; np.ninf]
    /\ ub = [np.inf; np.inf; np.inf; np.inf]
    /\ exists call : Fit.curve_fit_call,
         Fit.fit_derivative_call (fun _ _ _ => 0) [0; 1; 2; 3; 4]
           [0; -1; 0; 1; 0] "Lorentz" = Ok call
         /\ Fit.bounds call = Some (lb, ub).
Proof.
  destruct (fit_derivative_call_example (fun _ _ _ => 0)) as (call & Hcall & _).
  destruct (fit_derivative_bounds (fun _ _ _ => 0) [0; 1; 2; 3; 4]
              [0; -1; 0; 1; 0] Spec.Lorentz call Hcall)
    as (lb & ub & Hb & _ & Hllen & Hulen & Hnth).
  pose proof (Hnth 0%nat _ eq_refl) as [Hu0 Hl0].
  pose proof (Hnth 1%nat _ eq_refl) as [Hu1 Hl1].
  pose proof (Hnth 2%nat _ eq_refl) as [Hu2 Hl2].
  pose proof (Hnth 3%nat _ eq_refl) as [Hu3 Hl3].
  destruct lb as [|l0 [|l1 [|l2 [|l3 [|? ?]]]]]; try discriminate.
  destruct ub as [|u0 [|u1 [|u2 [|u3 [|? ?]]]]]; try discriminate.
  cbn in *.
  injection Hl0 as ->. injection Hl1 as ->. injection Hl2 as ->.
  injection Hl3 as ->. injection Hu0 as ->. injection Hu1 as ->.
  injection Hu2 as ->. injection Hu3 as ->.
  eexists _, _. split; [reflexivity|]. split; [reflexivity|].
  exists call. split; assumption.
Defined.

(** ** Division in the Lorentz derivative *)

Lemma pow_nonzero_pos (r : R) : r <> 0 -> 0 < r ^ 2.
Proof. intros Hr. assert (H := pow2_ge_0 r). nra. Qed.

(** C10.  [lorentz_derivative] divides by
    [((B - B0)^2 + Gamma^2)^2], which is strictly positive at every field
    when [Gamma <> 0]; at [Gamma = 0], a value that the lower bound 0 of
    the fit admits for Gamma, the divisor vanishes at [B = B0]. *)
Theorem lorentz_derivative_division (B A B0 Gamma offset : R) :
  Gamma <> 0 ->
  Fit.lorentz_derivative [B] A B0 Gamma offset
    = [A * Gamma ^ 2 * (B0 - B) / Fit.lorentz_denominator B B0 Gamma + offset]
  /\ 0 < Fit.lorentz_denominator B B0 Gamma
  /\ Fit.lorentz_denominator B0 B0 0 = 0
  /\ (forall (voigt_profile : R -> R -> R -> R) (x y : list R)
             (call : Fit.curve_fit_call) (lb ub : list np.ext),
        Fit.fit_derivative_call voigt_profile x y "Lorentz" = Ok call ->
        Fit.bounds call = Some (lb, ub) ->
        nth_error (Spec.layout Spec.Lorentz) 2 = Some Spec.halfwidth
        /\ exists l u, nth_error lb 2 = Some l /\ nth_error ub 2 = Some u
                       /\ Spec.admits l u 0).
Proof.
  intros HG. split; [reflexivity|]. split; [|split].
  - unfold Fit.lorentz_denominator.
    assert (0 < Gamma ^ 2) by (apply pow_nonzero_pos; assumption).
    assert (0 <= (B - B0) ^ 2) by apply pow2_ge_0.
    apply pow_nonzero_pos. lra.
  - unfold Fit.lorentz_denominator. ring.
  - intros vp x y call lb ub Hcall Hb.
    apply (fit_derivative_call_shape vp x y Spec.Lorentz) in Hcall.
    destruct Hcall as (Hb' & _). rewrite Hb in Hb'. injection Hb' as -> ->.
    split; [reflexivity|].
    exists (np.fin 0), np.inf. cbn. repeat split; lra.
Qed.

Lemma lorentz_derivative_division_witness :
  Fit.lorentz_derivative [1] 1 1 2 0 = [0]
  /\ 0 < Fit.lorentz_denominator 1 1 2
  /\ Fit.lorentz_denominator 1 1 0 = 0.
Proof.
  destruct (lorentz_derivative_division 1 1 1 2 0 ltac:(lra))
    as (Hv & Hpos & Hz & _).
  split; [|split; assumption].
  rewrite Hv. f_equal. unfold Fit.lorentz_denominator in *. field.
Defined.

(** ** The aggregate fits *)

Lemma py_max_nonempty (a : list R) : a <> [] -> exists top, py_max a = Ok top.
Proof. destruct a as [|v t]; [congruence|]. intros _. simpl. eauto. Qed.

Lemma broadcast_same_length {A B C : Type} (g : A -> B -> C)
  (a : list A) (b : list B) :
  length a = length b -> broadcast g a b = Ok (zip_with g a b).
Proof. intros H. unfold broadcast. now rewrite H, Nat.eqb_refl. Qed.

(** C5 (amended).  Neither aggregate fit counts its points or has an error
    of its own for too few of them.  With no point [KittelFit] raises
    [ValueError] before the least-squares routine is called.  With fewer
    than two points both fits fail whenever that routine refuses
    under-determined problems, with the exception of the routine (or of
    [max], or of the mode dispatch of [KittelFit]).  On a non-empty input
    of any length [KittelFit] (in either mode) and [DampingFit] call the
    routine without bounds and with two parameters; each fails when the
    routine fails, with the routine's exception, and returns the routine's
    parameters when it returns two of them. *)
Theorem aggregate_fits_no_point_check
  (curve_fit : Fit.curve_fit_call -> result Fit.fit_result)
  (x y : list R) (mode : string) (gamma_prime : R) :
  length x = length y ->
  (x = [] -> Fit.KittelFit curve_fit x y mode = Raise ValueError)
  /\ ((length x < 2)%nat -> rejects_underdetermined curve_fit ->
      (exists err, Fit.KittelFit curve_fit x y mode = Raise err)
      /\ (exists err, Fit.DampingFit curve_fit x y gamma_prime = Raise err))
  /\ (x <> [] -> (mode = "in-plane" \/ mode = "out-of-plane")%string ->
      exists kcall dcall : Fit.curve_fit_call,
        (Fit.xdata kcall = x /\ Fit.ydata kcall = y
         /\ Fit.bounds kcall = None /\ length (Fit.p0 kcall) = 2%nat)
        /\ (Fit.xdata dcall = x /\ Fit.ydata dcall = y
            /\ Fit.bounds dcall = None /\ length (Fit.p0 dcall) = 2%nat)
        /\ (forall err, curve_fit kcall = Raise err ->
                        Fit.KittelFit curve_fit x y mode = Raise err)
        /\ (forall M g pcov, curve_fit kcall = Ok ([M; g], pcov) ->
              exists x_fit y_fit,
                Fit.KittelFit curve_fit x y mode
                = Ok (x_fit, y_fit, [M; g], pcov))
        /\ (forall err, curve_fit dcall = Raise err ->
                        Fit.DampingFit curve_fit x y gamma_prime = Raise err)
        /\ (forall alpha deltaB0 pcov,
              curve_fit dcall = Ok ([alpha; deltaB0], pcov) ->
              exists x_fit y_fit,
                Fit.DampingFit curve_fit x y gamma_prime
                = Ok (x_fit, y_fit, [alpha; deltaB0], pcov))).
Proof.
  intros Hlen. split; [|split].
  - intros ->. reflexivity.
  - intros Hfew Hrej. split.
    + destruct x as [|x0 [|x1 x']]; [eexists; reflexivity | | simpl in Hfew; lia].
      destruct y as [|y0 [|y1 y']]; try discriminate.
      unfold Fit.KittelFit. cbn [py_max fold_left bind].
      destruct (mode =? "in-plane")%string;
        [|destruct (mode =? "out-of-plane")%string; [cbn|eexists; reflexivity]];
        match goal with
        | |- context [curve_fit ?c] =>
            destruct (Hrej c) as (err & Herr); [simpl; lia|];
            rewrite Herr; eexists; reflexivity
        end.
    + unfold Fit.DampingFit.
      match goal with
      | |- context [curve_fit ?c] =>
          destruct (Hrej c) as (err & Herr); [simpl; lia|];
          rewrite Herr; eexists; reflexivity
      end.
  - intros Hx Hmode.
    destruct (py_max_nonempty x Hx) as (top & Htop).
    unfold Fit.KittelFit, Fit.DampingFit. rewrite Htop. cbn [bind].
    destruct Hmode as [-> | ->]; cbn [String.eqb Ascii.eqb Bool.eqb];
      [|rewrite broadcast_same_length by assumption; cbn [bind]];
      (eexists _, _; split; [|split; [|split; [|split; [|split]]]]).
    3, 9: (intros err Herr; rewrite Herr; reflexivity).
    4, 9: (intros err Herr; rewrite Herr; reflexivity).
    all: try (cbn; repeat split; reflexivity).
    all: intros a b pcov Hok; rewrite Hok; cbn; eauto.
Qed.

(** A least-squares routine that refuses under-determined problems and
    otherwise returns its initial guess: with it the fits of a single
    point fail, and the fits of two points return. *)
Lemma aggregate_fits_no_point_check_witness :
  let curve_fit := fun call : Fit.curve_fit_call =>
                     if (length (Fit.ydata call) <? length (Fit.p0 call))%nat
                     then Raise TypeError
                     else Ok (Fit.p0 call, @nil (list R)) in
  rejects_underdetermined curve_fit
  /\ (exists err, Fit.KittelFit curve_fit [1 / 10] [10] "in-plane" = Raise err)
  /\ (exists err, Fit.DampingFit curve_fit [1 / 10] [10] 1 = Raise err)
  /\ (exists x_fit y_fit p pcov,
        Fit.KittelFit curve_fit [1 / 10; 2 / 10] [10; 15] "in-plane"
        = Ok (x_fit, y_fit, p, pcov)).
Proof.
  intros curve_fit.
  assert (Hrej : rejects_underdetermined curve_fit).
  { intros call Hcall. exists TypeError. unfold curve_fit.
    apply Nat.ltb_lt in Hcall. now rewrite Hcall. }
  split; [exact Hrej|].
  destruct (aggregate_fits_no_point_check curve_fit [1 / 10] [10] "in-plane" 1
              eq_refl) as (_ & Hfew & _).
  destruct (Hfew ltac:(simpl; lia) Hrej) as [HK HD].
  split; [exact HK|]. split; [exact HD|].
  destruct (aggregate_fits_no_point_check curve_fit [1 / 10; 2 / 10] [10; 15]
              "in-plane" 1 eq_refl) as (_ & _ & Hany).
  destruct Hany as (kcall & dcall & (_ & Hky & _ & Hkp) & _ & _ & HK2 & _);
    [discriminate | left; reflexivity |].
  destruct (Fit.p0 kcall) as [|M [|g [|? ?]]] eqn:Hp0; try discriminate.
  destruct (HK2 M g []) as (x_fit & y_fit & Hfit).
  { unfold curve_fit. rewrite Hky, Hp0. reflexivity. }
  eauto 10.
Defined.

(** C5, counterexample.  With no point at all [KittelFit] fails with
    [ValueError], the exception of [max] on an empty sequence, and not with
    an error named [InsufficientData]; this does not depend on the mode or
    on the least-squares routine. *)
Lemma aggregate_fits_counterexample :
  (forall (curve_fit : Fit.curve_fit_call -> result Fit.fit_result)
          (mode : string),
      Fit.KittelFit curve_fit [] [] mode = Raise ValueError)
  /\ ValueError <> "InsufficientData"%string.
Proof.
  split; [reflexivity | discriminate].
Qed.

(** ** Autophase *)

Lemma mapM_Ok {A B : Type} (k : A -> result B) (g : A -> B) (l : list A) :
  (forall a, In a l -> k a = Ok (g a)) -> mapM k l = Ok (map g l).
Proof.
  induction l as [|a t IH]; intros H; [reflexivity|].
  simpl. rewrite (H a) by (left; reflexivity). cbn [bind].
  rewrite IH by (intros b Hb; apply H; right; assumption). reflexivity.
Qed.

Lemma map_zip_with {A B C D : Type} (g : C -> D) (h : A -> B -> C)
  (a : list A) :
  forall b : list B,
    map g (zip_with h a b) = zip_with (fun u v => g (h u v)) a b.
Proof.
  induction a as [|a0 a' IH]; intros [|b0 b']; simpl; try reflexivity.
  now rewrite IH.
Qed.

Lemma zip_with_ext {A B C : Type} (g h : A -> B -> C) (a : list A) :
  (forall u v, g u v = h u v) ->
  forall b : list B, zip_with g a b = zip_with h a b.
Proof.
  intros Hgh. induction a as [|a0 a' IH]; intros [|b0 b']; simpl;
    try reflexivity.
  now rewrite Hgh, IH.
Qed.

Lemma zip_with_length {A B C : Type} (h : A -> B -> C) (a : list A) :
  forall b : list B, length a = length b -> length (zip_with h a b) = length a.
Proof.
  induction a as [|a0 a' IH]; intros [|b0 b'] H; simpl in *; try lia.
  now rewrite IH by lia.
Qed.

(** One rotated sample: the code's [r * (x + 1j * y)] is [e^{i phi} (x + iy)]. *)
Lemma rotate_sample (phi x y : R) :
  Cmul (Complex (np.cos (phi / 180 * np.pi)) (np.sin (phi / 180 * np.pi)))
       (Cadd (of_real x) (Cmul j1 (of_real y)))
  = Cmul (Spec.cis_deg phi) (Complex x y).
Proof.
  unfold Spec.cis_deg, np.cos, np.sin, np.pi.
  replace (phi / 180 * PI) with (phi * PI / 180) by field.
  unfold Cmul, Cadd, of_real, j1. cbn [real imag]. f_equal; ring.
Qed.

Lemma complex_rotate_array_spec (X Y : list R) (phi : R) :
  length X = length Y ->
  FMR.complex_rotate_array X Y phi
  = Ok (map real (Spec.rotated X Y phi), map imag (Spec.rotated X Y phi)).
Proof.
  intros Hlen. unfold FMR.complex_rotate_array.
  rewrite broadcast_same_length by assumption. cbn [bind].
  rewrite map_zip_with.
  rewrite (zip_with_ext _ (fun x y => Cmul (Spec.cis_deg phi) (Complex x y)))
    by (intros; apply rotate_sample).
  reflexivity.
Qed.

Lemma sum_squares_nonneg (a : list R) : 0 <= sum (map (fun y => y ^ 2) a).
Proof.
  induction a as [|v t IH]; simpl; [lra|].
  pose proof (pow2_ge_0 v). unfold sum in *. simpl in *. lra.
Qed.

Lemma Rinv_INR_nonneg (n : nat) : 0 <= / INR n.
Proof.
  destruct n as [|n].
  - simpl. rewrite Rinv_0. lra.
  - left. apply Rinv_0_lt_compat. apply lt_0_INR. lia.
Qed.

(** The root mean square is the root of the sum of squares, scaled by a
    factor that depends on the number of samples only. *)
Lemma rms_scaling (a : list R) :
  Spec.rms a = sqrt (sum (map (fun y => y ^ 2) a)) * sqrt (/ INR (length a)).
Proof.
  unfold Spec.rms, Rdiv.
  rewrite (map_ext (fun v => v * v) (fun y => y ^ 2)) by (intros; ring).
  apply sqrt_mult; [apply sum_squares_nonneg | apply Rinv_INR_nonneg].
Qed.

Lemma quadrature_rms_scaling (X Y : list R) (phi : R) :
  length X = length Y ->
  Spec.quadrature_rms X Y phi
  = quadrature_norm X Y phi * sqrt (/ INR (length X)).
Proof.
  intros Hlen. unfold Spec.quadrature_rms, quadrature_norm.
  rewrite rms_scaling. unfold Spec.rotated.
  now rewrite length_map, zip_with_length.
Qed.

Lemma autophase_rms_spec (X Y : list R) (phi : R) :
  length X = length Y ->
  FMR.autophase_rms X Y phi = Ok (quadrature_norm X Y phi).
Proof.
  intros Hlen. unfold FMR.autophase_rms.
  rewrite complex_rotate_array_spec by assumption. reflexivity.
Qed.

(** The phase grid of [autophase]: the 181 whole degrees from -90 to 90. *)
Lemma autophase_grid :
  np.linspace (-90) 90 181
  = map (fun j => IZR (Z.of_nat j - 90)) (seq 0 181).
Proof.
  unfold np.linspace. apply map_ext. intros j.
  replace (INR (181 - 1)) with 180.
  - rewrite minus_IZR, <- INR_IZR_INZ. field.
  - change (181 - 1)%nat with 180%nat. rewrite INR_IZR_INZ. reflexivity.
Qed.

Lemma py_int_IZR (z : Z) : py_int (IZR z) = z.
Proof.
  unfold py_int. destruct (Rle_dec 0 (IZR z)).
  - symmetry. apply Int_part_spec. lra.
  - apply ceil_IZR.
Qed.

(** [autophase] in one step: the index of the least entry of the 181
    quadrature norms, then the rotation by that phase. *)
Lemma autophase_unfold (X Y : list R) :
  length X = length Y ->
  FMR.autophase X Y
  = (k <- np.argmin (map (fun j => quadrature_norm X Y (IZR (Z.of_nat j - 90)))
                         (seq 0 181)) ;;
     Ok ((Z.of_nat k - 90)%Z,
         map real (Spec.rotated X Y (IZR (Z.of_nat k - 90))))).
Proof.
  intros Hlen.
  set (norm := fun j : nat => quadrature_norm X Y (IZR (Z.of_nat j - 90))).
  set (RMS := map norm (seq 0 181)).
  assert (Hmap : mapM (FMR.autophase_rms X Y) (np.linspace (-90) 90 181)
                 = Ok RMS).
  { rewrite autophase_grid.
    rewrite (mapM_Ok _ (quadrature_norm X Y))
      by (intros; apply autophase_rms_spec; assumption).
    unfold RMS. now rewrite map_map. }
  assert (HRMS : RMS <> []) by discriminate.
  destruct (argmin_spec RMS HRMS) as (k & Hk & [Hk_lt _] & _).
  unfold RMS in Hk_lt. rewrite length_grid in Hk_lt.
  unfold FMR.autophase. cbv zeta. rewrite Hmap. cbn [bind]. rewrite Hk.
  cbn [bind]. rewrite autophase_grid.
  rewrite getitem_nth by (rewrite length_grid; assumption).
  rewrite nth_grid by assumption. cbn [bind].
  rewrite complex_rotate_array_spec by assumption. cbn [bind].
  now rewrite py_int_IZR.
Qed.

(** ** [autophase] on computed entries *)

Lemma autophase_rounded_exact (X Y : list R) :
  FMR.autophase_rounded (fun _ v => v) X Y = FMR.autophase X Y.
Proof. reflexivity. Qed.

Lemma autophase_rms_rounded_spec (fl : R -> R -> R) (X Y : list R) (phi : R) :
  length X = length Y ->
  FMR.autophase_rms_rounded fl X Y phi = Ok (fl phi (quadrature_norm X Y phi)).
Proof.
  intros Hlen. unfold FMR.autophase_rms_rounded.
  rewrite complex_rotate_array_spec by assumption. reflexivity.
Qed.

(** [autophase] in one step: the first index of the least of the 181
    computed entries, then the rotation by that phase. *)
Lemma autophase_rounded_argmin (fl : R -> R -> R) (X Y : list R) :
  length X = length Y ->
  let computed := fun j : nat =>
    fl (IZR (Z.of_nat j - 90)) (quadrature_norm X Y (IZR (Z.of_nat j - 90))) in
  exists k : nat,
    (k <= 180)%nat
    /\ mapM (FMR.autophase_rms_rounded fl X Y) (np.linspace (-90) 90 181)
       = Ok (map computed (seq 0 181))
    /\ FMR.autophase_rounded fl X Y
       = Ok ((Z.of_nat k - 90)%Z,
             map real (Spec.rotated X Y (IZR (Z.of_nat k - 90))))
    /\ (forall j, (j <= 180)%nat -> computed k <= computed j)
    /\ (forall j, (j < k)%nat -> computed k < computed j).
Proof.
  intros Hlen computed.
  set (RMS := map computed (seq 0 181)).
  assert (Hmap : mapM (FMR.autophase_rms_rounded fl X Y)
                   (np.linspace (-90) 90 181) = Ok RMS).
  { rewrite autophase_grid.
    rewrite (mapM_Ok _ (fun phi => fl phi (quadrature_norm X Y phi)))
      by (intros; apply autophase_rms_rounded_spec; assumption).
    unfold RMS. now rewrite map_map. }
  assert (HRMS : RMS <> []) by discriminate.
  destruct (argmin_spec RMS HRMS) as (k & Hk & [Hk_lt Hmin] & Hfirst).
  unfold RMS in Hk_lt, Hmin. rewrite length_grid in Hk_lt, Hmin.
  assert (Hnth : forall j, (j < 181)%nat -> nth j RMS 0 = computed j)
    by (intros j Hj; apply nth_grid; assumption).
  exists k. split; [lia|]. split; [exact Hmap|]. split; [|split].
  - unfold FMR.autophase_rounded. cbv zeta. rewrite Hmap. cbn [bind].
    rewrite Hk. cbn [bind]. rewrite autophase_grid.
    rewrite getitem_nth by (rewrite length_grid; assumption).
    rewrite nth_grid by assumption. cbn [bind].
    rewrite complex_rotate_array_spec by assumption. cbn [bind].
    now rewrite py_int_IZR.
  - intros j Hj. specialize (Hmin j ltac:(lia)). fold RMS in Hmin.
    rewrite !Hnth in Hmin by lia. exact Hmin.
  - intros j Hj. specialize (Hfirst j Hj). rewrite !Hnth in Hfirst by lia.
    exact Hfirst.
Qed.

(** C3 (amended).  For in-phase and quadrature sequences of equal length,
    [autophase] evaluates the 181 phases -90, -89, ..., 90 degrees; with
    [X' + iY' = e^{i phi} (X + iY)] it computes for each the root of the sum
    of squares of [Y'], picks the phase whose computed entry is the least,
    the first such phase in ascending order, returns [X'] at that phase
    and reports the phase as an integer.  [fl phi v] is the entry that
    double arithmetic yields at the phase [phi] where exact arithmetic
    yields [v].  When every computed entry is within [err] of the exact
    one, the root mean square of [Y'] at the chosen phase exceeds that at
    no other phase by more than [2 * err / sqrt n], [n] being the number
    of samples; when the entries are exact, the chosen phase is the first
    in ascending order at which the root mean square of [Y'] is least. *)
Theorem autophase_spec (fl : R -> R -> R) (X Y : list R) :
  length X = length Y ->
  let computed := fun j : nat =>
    fl (IZR (Z.of_nat j - 90)) (quadrature_norm X Y (IZR (Z.of_nat j - 90))) in
  exists k : nat,
    (k <= 180)%nat
    /\ mapM (FMR.autophase_rms_rounded fl X Y) (np.linspace (-90) 90 181)
       = Ok (map computed (seq 0 181))
    /\ FMR.autophase_rounded fl X Y
       = Ok ((Z.of_nat k - 90)%Z,
             map real (Spec.rotated X Y (IZR (Z.of_nat k - 90))))
    /\ (forall j, (j <= 180)%nat -> computed k <= computed j)
    /\ (forall j, (j < k)%nat -> computed k < computed j)
    /\ (forall err : R,
          (forall j, (j <= 180)%nat ->
             Rabs (computed j - quadrature_norm X Y (IZR (Z.of_nat j - 90)))
             <= err) ->
          forall j, (j <= 180)%nat ->
            Spec.quadrature_rms X Y (IZR (Z.of_nat k - 90))
            <= Spec.quadrature_rms X Y (IZR (Z.of_nat j - 90))
               + 2 * err * sqrt (/ INR (length X)))
    /\ ((forall j, (j <= 180)%nat ->
           computed j = quadrature_norm X Y (IZR (Z.of_nat j - 90))) ->
        (forall j, (j <= 180)%nat ->
           Spec.quadrature_rms X Y (IZR (Z.of_nat k - 90))
           <= Spec.quadrature_rms X Y (IZR (Z.of_nat j - 90)))
        /\ (forall j, (j < k)%nat ->
              Spec.quadrature_rms X Y (IZR (Z.of_nat k - 90))
              < Spec.quadrature_rms X Y (IZR (Z.of_nat j - 90)))).
Proof.
  intros Hlen computed.
  destruct (autophase_rounded_argmin fl X Y Hlen)
    as (k & Hk & Hmap & Hauto & Hmin & Hfirst).
  fold computed in Hmap, Hmin, Hfirst.
  exists k. split; [exact Hk|]. split; [exact Hmap|]. split; [exact Hauto|].
  split; [exact Hmin|]. split; [exact Hfirst|]. split.
  - intros err Herr j Hj. rewrite !quadrature_rms_scaling by assumption.
    pose proof (sqrt_pos (/ INR (length X))) as Hs.
    pose proof (Herr k Hk) as Ek. pose proof (Herr j Hj) as Ej.
    pose proof (Hmin j Hj) as Hkj.
    assert (H : quadrature_norm X Y (IZR (Z.of_nat k - 90))
                <= quadrature_norm X Y (IZR (Z.of_nat j - 90)) + 2 * err).
    { apply Rabs_bound in Ek, Ej. unfold computed in Ek, Ej, Hkj.
      clear - Ek Ej Hkj.
      set (ck := fl _ _) in *. set (cj := fl _ _) in *. lra. }
    nra.
  - intros Hexact. split.
    + intros j Hj. rewrite !quadrature_rms_scaling by assumption.
      apply Rmult_le_compat_r; [apply sqrt_pos|].
      rewrite <- !Hexact by assumption. now apply Hmin.
    + intros j Hj. rewrite !quadrature_rms_scaling by assumption.
      pose proof (Hfirst j Hj) as Hlt.
      pose proof (Hexact k Hk) as E1. pose proof (Hexact j ltac:(lia)) as E2.
      unfold computed in E1, E2. rewrite E1, E2 in Hlt.
      apply Rmult_lt_compat_r; [|exact Hlt].
      apply sqrt_lt_R0. destruct X as [|x0 X'].
      * exfalso. unfold quadrature_norm in Hlt. simpl in Hlt. lra.
      * apply Rinv_0_lt_compat. apply lt_0_INR. simpl. lia.
Qed.

(** One sample on the in-phase axis: the quadrature part of the rotated
    signal vanishes at the phase 0 only, so with exact entries [autophase]
    reports 0 degrees and returns the signal unchanged. *)
Lemma autophase_spec_witness :
  FMR.autophase_rounded (fun _ v => v) [1] [0] = Ok (0%Z, [1]).
Proof.
  destruct (autophase_spec (fun _ v => v) [1] [0] eq_refl)
    as (k & Hk & _ & Hauto & _ & _ & _ & Hexact).
  destruct (Hexact ltac:(reflexivity)) as [Hmin _].
  assert (Hr : forall phi,
             Spec.quadrature_rms [1] [0] phi = Rabs (sin (phi * PI / 180))).
  { intros phi. unfold Spec.quadrature_rms, Spec.rms, Spec.rotated, sum.
    cbn. rewrite <- sqrt_Rsqr_abs. f_equal. unfold Rsqr. field. }
  specialize (Hmin 90%nat ltac:(lia)). rewrite !Hr in Hmin.
  change (Z.of_nat 90 - 90)%Z with 0%Z in Hmin.
  replace (0 * PI / 180) with 0 in Hmin by field.
  rewrite sin_0, Rabs_R0 in Hmin.
  assert (Hsin : sin (IZR (Z.of_nat k - 90) * PI / 180) = 0).
  { pose proof (Rabs_pos (sin (IZR (Z.of_nat k - 90) * PI / 180))).
    destruct (Req_dec_T (sin (IZR (Z.of_nat k - 90) * PI / 180)) 0) as [E|E];
      [exact E|].
    apply Rabs_pos_lt in E. lra. }
  assert (Ek : (Z.of_nat k - 90 = 0)%Z).
  { pose proof PI_RGT_0 as Hpi.
    assert (Hlo : (-90 <= Z.of_nat k - 90)%Z) by lia.
    assert (Hhi : (Z.of_nat k - 90 <= 90)%Z) by lia.
    apply IZR_le in Hlo, Hhi.
    set (z := (Z.of_nat k - 90)%Z) in *.
    destruct (Z.lt_trichotomy z 0) as [Hz|[Hz|Hz]]; [|exact Hz|]; exfalso.
    - apply IZR_lt in Hz.
      assert (0 < sin (- (IZR z * PI / 180))) by (apply sin_gt_0; nra).
      rewrite sin_neg in H. lra.
    - apply IZR_lt in Hz.
      assert (0 < sin (IZR z * PI / 180)) by (apply sin_gt_0; nra).
      lra. }
  rewrite Ek in Hauto. rewrite Hauto. f_equal. f_equal.
  unfold Spec.rotated, Spec.cis_deg. cbn.
  replace (0 * PI / 180) with 0 by field. rewrite cos_0, sin_0.
  f_equal. ring.
Defined.

(** C3, counterexample.  Rounding decides between phases whose entries
    are equal in exact arithmetic.  For [X = [1; 0]], [Y = [0; 1]] the root
    mean square of [Y'] is the same at every phase, so the first minimum
    in ascending order is at -90 degrees, where [X'] is [[0; 1]]; with
    computed entries that lie within one unit in the last place, 2^-53,
    of the exact entry 1, the one at -87 degrees being the least (as
    double arithmetic yields them), [autophase] picks -87 degrees and
    returns [[cos 87; sin 87]]. *)
Lemma autophase_spec_counterexample :
  (forall phi psi,
     Spec.quadrature_rms [1; 0] [0; 1] phi
     = Spec.quadrature_rms [1; 0] [0; 1] psi)
  /\ (forall phi, quadrature_norm [1; 0] [0; 1] phi = 1)
  /\ (forall phi v,
        Rabs ((if Req_dec_T phi (-87) then v - 1 / 2 ^ 53 else v) - v)
        <= 1 / 2 ^ 53)
  /\ FMR.autophase_rounded
       (fun phi v => if Req_dec_T phi (-87) then v - 1 / 2 ^ 53 else v)
       [1; 0] [0; 1]
     = Ok ((-87)%Z, [cos (-87 * PI / 180); - sin (-87 * PI / 180)])
  /\ FMR.autophase [1; 0] [0; 1] = Ok ((-90)%Z, [0; 1]).
Proof.
  set (fl := fun phi v : R =>
         if Req_dec_T phi (-87) then v - 1 / 2 ^ 53 else v).
  assert (Hnorm : forall phi, quadrature_norm [1; 0] [0; 1] phi = 1).
  { intros phi. unfold quadrature_norm, Spec.rotated, Spec.cis_deg, sum.
    cbn. rewrite <- sqrt_1. f_equal.
    pose proof (sin2_cos2 (phi * PI / 180)) as H. unfold Rsqr in H.
    rewrite sqrt_1. nra. }
  split; [|split; [exact Hnorm|split; [|split]]].
  - intros phi psi. rewrite !quadrature_rms_scaling by reflexivity.
    now rewrite !Hnorm.
  - intros phi v. unfold fl. destruct (Req_dec_T phi (-87)).
    + replace (v - 1 / 2 ^ 53 - v) with (- (1 / 2 ^ 53)) by ring.
      rewrite Rabs_Ropp, Rabs_pos_eq; [lra|].
      apply Rlt_le, Rdiv_lt_0_compat; [lra | apply pow_lt; lra].
    + replace (v - v) with 0 by ring. rewrite Rabs_R0.
      apply Rlt_le, Rdiv_lt_0_compat; [lra | apply pow_lt; lra].
  - destruct (autophase_rounded_argmin fl [1; 0] [0; 1] eq_refl)
      as (k & Hk & _ & Hauto & Hmin & _).
    assert (Ek : k = 3%nat).
    { specialize (Hmin 3%nat ltac:(lia)). rewrite !Hnorm in Hmin.
      unfold fl in Hmin.
      assert (Hpos : 0 < 1 / 2 ^ 53)
        by (apply Rdiv_lt_0_compat; [lra | apply pow_lt; lra]).
      destruct (Req_dec_T (IZR (Z.of_nat 3 - 90)) (-87)) as [_|N];
        [|exfalso; apply N; reflexivity].
      destruct (Req_dec_T (IZR (Z.of_nat k - 90)) (-87)) as [E|_]; [|lra].
      apply eq_IZR in E. lia. }
    subst k. rewrite Hauto. f_equal. f_equal.
    change (Z.of_nat 3 - 90)%Z with (-87)%Z.
    unfold Spec.rotated, Spec.cis_deg. cbn. f_equal; [ring|f_equal; ring].
  - rewrite autophase_unfold by reflexivity.
    assert (Hk : np.argmin
                   (map (fun j => quadrature_norm [1; 0] [0; 1]
                                    (IZR (Z.of_nat j - 90))) (seq 0 181))
                 = Ok 0%nat).
    { rewrite (map_ext _ (fun _ => 1)) by (intros; apply Hnorm).
      destruct (argmin_spec (map (fun _ : nat => 1) (seq 0 181))
                  ltac:(discriminate)) as (k & Hk & [Hk_lt _] & Hfirst).
      rewrite length_grid in Hk_lt.
      rewrite Hk. f_equal. destruct k as [|k]; [reflexivity|].
      specialize (Hfirst 0%nat ltac:(lia)).
      rewrite !nth_grid in Hfirst by lia. lra. }
    rewrite Hk. cbn [bind]. f_equal. f_equal.
    change (Z.of_nat 0 - 90)%Z with (-90)%Z.
    unfold Spec.rotated, Spec.cis_deg. cbn.
    replace (-90 * PI / 180) with (- (PI / 2)) by field.
    rewrite cos_neg, sin_neg, cos_PI2, sin_PI2.
    f_equal; [ring|f_equal; ring].
Qed.

(** ** [np.gradient] *)

Lemma diff_length (x : list R) : length (np.diff x) = (length x - 1)%nat.
Proof.
  induction x as [|x0 [|x1 t] IH]; try reflexivity.
  change (np.diff (x0 :: x1 :: t)) with ((x1 - x0) :: np.diff (x1 :: t)).
  cbn [length] in *. lia.
Qed.

Lemma diff_nth (x : list R) :
  forall j, (S j < length x)%nat ->
            nth j (np.diff x) 0 = nth (S j) x 0 - nth j x 0.
Proof.
  induction x as [|x0 [|x1 t] IH]; intros j Hj; try (simpl in Hj; lia).
  change (np.diff (x0 :: x1 :: t)) with ((x1 - x0) :: np.diff (x1 :: t)).
  destruct j as [|j]; [reflexivity|].
  cbn [nth]. apply IH. simpl in *. lia.
Qed.

Lemma uniform_spacing_true (x : list R) :
  np.uniform_spacing x = true ->
  forall j, (S j < length x)%nat -> nth j (np.diff x) 0 = nth 0 (np.diff x) 0.
Proof.
  unfold np.uniform_spacing. intros H j Hj.
  pose proof (diff_length x) as Hlen.
  destruct (np.diff x) as [|d0 ds]; [simpl in Hlen; lia|].
  destruct j as [|j]; [reflexivity|]. cbn [nth].
  rewrite forallb_forall in H.
  assert (Hin : In (nth j ds 0) ds) by (apply nth_In; simpl in Hlen; lia).
  apply H in Hin. unfold Reqb in Hin.
  destruct (Req_dec_T (nth j ds 0) d0); [assumption | discriminate].
Qed.

Section stencils.
Variables f x : list R.
Hypothesis Hasc : Spec.strictly_ascending x.

Lemma interior_spec (i : nat) :
  (1 <= i)%nat -> (S i < length x)%nat ->
  np.interior f x i
  = Spec.three_point_derivative
      (nth (i - 1) x 0) (nth i x 0) (nth (i + 1) x 0)
      (nth (i - 1) f 0) (nth i f 0) (nth (i + 1) f 0) (nth i x 0).
Proof.
  intros Hi Hn.
  pose proof (Hasc (i - 1)%nat i ltac:(lia)) as H01.
  pose proof (Hasc i (i + 1)%nat ltac:(lia)) as H12.
  pose proof (diff_nth x (i - 1) ltac:(lia)) as Hd1.
  pose proof (diff_nth x i ltac:(lia)) as Hd2.
  replace (S (i - 1)) with i in Hd1 by lia.
  replace (S i) with (i + 1)%nat in Hd2 by lia.
  unfold np.interior, np.at_, Spec.three_point_derivative.
  destruct (np.uniform_spacing x) eqn:Hu.
  - pose proof (uniform_spacing_true x Hu) as Hall.
    assert (Hh1 : nth 0 (np.diff x) 0 = nth i x 0 - nth (i - 1) x 0)
      by (rewrite <- Hd1; symmetry; apply Hall; lia).
    assert (Hh2 : nth 0 (np.diff x) 0 = nth (i + 1) x 0 - nth i x 0)
      by (rewrite <- Hd2; symmetry; apply Hall; lia).
    rewrite Hh1.
    replace (nth (i + 1) x 0) with (2 * nth i x 0 - nth (i - 1) x 0) by lra.
    field. lra.
  - cbv zeta. rewrite Hd1, Hd2. field. lra.
Qed.

Lemma first_edge_spec :
  (3 <= length x)%nat ->
  np.first_edge f x
  = Spec.three_point_derivative (nth 0 x 0) (nth 1 x 0) (nth 2 x 0)
      (nth 0 f 0) (nth 1 f 0) (nth 2 f 0) (nth 0 x 0).
Proof.
  intros Hn.
  pose proof (Hasc 0%nat 1%nat ltac:(lia)) as H01.
  pose proof (Hasc 1%nat 2%nat ltac:(lia)) as H12.
  pose proof (diff_nth x 0 ltac:(lia)) as Hd1.
  pose proof (diff_nth x 1 ltac:(lia)) as Hd2.
  unfold np.first_edge, np.at_, Spec.three_point_derivative.
  destruct (np.uniform_spacing x) eqn:Hu.
  - pose proof (uniform_spacing_true x Hu 1%nat ltac:(lia)) as Hh.
    rewrite Hd1, Hd2 in Hh. rewrite Hd1.
    replace (nth 2 x 0) with (2 * nth 1 x 0 - nth 0 x 0) by lra.
    field. lra.
  - rewrite Hd1, Hd2. field. lra.
Qed.

Lemma last_edge_spec :
  length f = length x -> (3 <= length x)%nat ->
  let n := length x in
  np.last_edge f x
  = Spec.three_point_derivative
      (nth (n - 3) x 0) (nth (n - 2) x 0) (nth (n - 1) x 0)
      (nth (n - 3) f 0) (nth (n - 2) f 0) (nth (n - 1) f 0)
      (nth (n - 1) x 0).
Proof.
  intros Hlen Hn n.
  pose proof (Hasc (n - 3)%nat (n - 2)%nat ltac:(lia)) as H01.
  pose proof (Hasc (n - 2)%nat (n - 1)%nat ltac:(lia)) as H12.
  pose proof (diff_nth x (n - 3) ltac:(lia)) as Hd1.
  pose proof (diff_nth x (n - 2) ltac:(lia)) as Hd2.
  replace (S (n - 3)) with (n - 2)%nat in Hd1 by lia.
  replace (S (n - 2)) with (n - 1)%nat in Hd2 by lia.
  unfold np.last_edge, np.at_, Spec.three_point_derivative.
  rewrite Hlen. fold n.
  destruct (np.uniform_spacing x) eqn:Hu.
  - pose proof (uniform_spacing_true x Hu) as Hall.
    assert (Hh1 : nth 0 (np.diff x) 0 = nth (n - 2) x 0 - nth (n - 3) x 0)
      by (rewrite <- Hd1; symmetry; apply Hall; lia).
    assert (Hh2 : nth 0 (np.diff x) 0 = nth (n - 1) x 0 - nth (n - 2) x 0)
      by (rewrite <- Hd2; symmetry; apply Hall; lia).
    rewrite Hh2.
    replace (nth (n - 3) x 0) with (2 * nth (n - 2) x 0 - nth (n - 1) x 0)
      by lra.
    field. lra.
  - rewrite Hd1, Hd2. field. lra.
Qed.

End stencils.

(** On a strictly ascending axis of at least three samples, [np.gradient]
    with [edge_order=2] is the three-point second-order derivative at every
    sample. *)
Lemma gradient_spec (f x : list R) :
  length f = length x -> (3 <= length x)%nat -> Spec.strictly_ascending x ->
  np.gradient f x
  = Ok (map (Spec.second_order_derivative f x) (seq 0 (length x))).
Proof.
  intros Hlen Hn Hasc. unfold np.gradient.
  rewrite Hlen, Nat.eqb_refl. cbn [negb].
  destruct (length x <? 2)%nat eqn:Hlt2; [apply Nat.ltb_lt in Hlt2; lia|].
  destruct (length x <? 3)%nat eqn:Hlt; [apply Nat.ltb_lt in Hlt; lia|].
  f_equal. apply map_ext_in. intros i Hi. apply in_seq in Hi.
  unfold Spec.second_order_derivative.
  destruct (i =? 0)%nat eqn:H0.
  - apply Nat.eqb_eq in H0. subst i. apply first_edge_spec; assumption.
  - apply Nat.eqb_neq in H0.
    destruct (i =? length x - 1)%nat eqn:Hlast.
    + apply Nat.eqb_eq in Hlast. subst i.
      replace (length x - 2 - 1)%nat with (length x - 3)%nat by lia.
      replace (length x - 2 + 1)%nat with (length x - 1)%nat by lia.
      apply last_edge_spec; assumption.
    + apply Nat.eqb_neq in Hlast. apply interior_spec; [assumption | lia | lia].
Qed.

(** The three-point derivative is exact on parabolas: it is second-order
    accurate, whatever the spacing. *)
Lemma three_point_derivative_exact (a b c x0 x1 x2 t : R) :
  x0 < x1 -> x1 < x2 ->
  let q := fun u => a * u ^ 2 + b * u + c in
  Spec.three_point_derivative x0 x1 x2 (q x0) (q x1) (q x2) t = 2 * a * t + b.
Proof.
  intros H01 H12 q. unfold Spec.three_point_derivative, q. field. lra.
Qed.

(** With a constant spacing [h] the three-point derivative is the textbook
    central difference at the middle sample and the textbook one-sided
    differences at the outer samples. *)
Lemma three_point_derivative_uniform (x1 h f0 f1 f2 : R) :
  0 < h ->
  Spec.three_point_derivative (x1 - h) x1 (x1 + h) f0 f1 f2 x1
    = (f2 - f0) / (2 * h)
  /\ Spec.three_point_derivative (x1 - h) x1 (x1 + h) f0 f1 f2 (x1 - h)
    = (- 3 * f0 + 4 * f1 - f2) / (2 * h)
  /\ Spec.three_point_derivative (x1 - h) x1 (x1 + h) f0 f1 f2 (x1 + h)
    = (3 * f2 - 4 * f1 + f0) / (2 * h).
Proof.
  intros Hh. unfold Spec.three_point_derivative.
  repeat split; field; lra.
Qed.

(** On an axis of constant spacing [h] the second-order derivative of the
    samples [f] is the central difference [(f[i+1] - f[i-1]) / (2h)] in the
    interior, [(-3 f[0] + 4 f[1] - f[2]) / (2h)] on the first sample and
    [(3 f[n-1] - 4 f[n-2] + f[n-3]) / (2h)] on the last. *)
Lemma second_order_derivative_uniform (f x : list R) (h : R) :
  0 < h -> (3 <= length x)%nat ->
  (forall i, (S i < length x)%nat -> nth (S i) x 0 - nth i x 0 = h) ->
  let n := length x in
  Spec.second_order_derivative f x 0
    = (- 3 * nth 0 f 0 + 4 * nth 1 f 0 - nth 2 f 0) / (2 * h)
  /\ Spec.second_order_derivative f x (n - 1)
    = (3 * nth (n - 1) f 0 - 4 * nth (n - 2) f 0 + nth (n - 3) f 0) / (2 * h)
  /\ forall i, (1 <= i)%nat -> (S i < n)%nat ->
       Spec.second_order_derivative f x i
       = (nth (i + 1) f 0 - nth (i - 1) f 0) / (2 * h).
Proof.
  intros Hh Hn Hstep n.
  assert (Hsten : forall m, (1 <= m)%nat -> (S m < n)%nat ->
            nth (m - 1) x 0 = nth m x 0 - h /\ nth (m + 1) x 0 = nth m x 0 + h).
  { intros m Hm1 Hm2.
    pose proof (Hstep (m - 1)%nat ltac:(lia)) as H1.
    pose proof (Hstep m ltac:(lia)) as H2.
    replace (S (m - 1)) with m in H1 by lia.
    replace (S m) with (m + 1)%nat in H2 by lia. lra. }
  unfold Spec.second_order_derivative. fold n.
  split; [|split].
  - cbn [Nat.eqb].
    destruct (Hsten 1%nat ltac:(lia) ltac:(lia)) as [Ha Hb].
    cbn [Nat.sub Nat.add] in *. rewrite Hb.
    replace (nth 0 x 0) with (nth 1 x 0 - h) by lra.
    apply three_point_derivative_uniform. assumption.
  - destruct (n - 1 =? 0)%nat eqn:E0; [apply Nat.eqb_eq in E0; lia|].
    rewrite Nat.eqb_refl.
    destruct (Hsten (n - 2)%nat ltac:(lia) ltac:(lia)) as [Ha Hb].
    replace (n - 2 - 1)%nat with (n - 3)%nat in * by lia.
    replace (n - 2 + 1)%nat with (n - 1)%nat in * by lia.
    rewrite Ha, Hb.
    apply three_point_derivative_uniform. assumption.
  - intros i Hi1 Hi2.
    destruct (i =? 0)%nat eqn:E0; [apply Nat.eqb_eq in E0; lia|].
    destruct (i =? n - 1)%nat eqn:E1; [apply Nat.eqb_eq in E1; lia|].
    destruct (Hsten i Hi1 Hi2) as [Ha Hb]. rewrite Ha, Hb.
    apply three_point_derivative_uniform. assumption.
Qed.

(** C6.  On a strictly increasing field axis of at least three samples and
    for [Gamma <> 0], [asymmetric_lorentz_derivative] returns, sample by
    sample, the second-order numeric derivative of the un-differentiated
    asymmetric Lorentzian [l] (central in the interior, one-sided on the
    first and the last sample) plus the offset; on an axis of constant
    spacing [h] these are the differences [(l[i+1] - l[i-1]) / (2h)],
    [(-3 l[0] + 4 l[1] - l[2]) / (2h)] and
    [(3 l[n-1] - 4 l[n-2] + l[n-3]) / (2h)]. *)
Theorem asymmetric_lorentz_derivative_spec (B : list R)
  (A B0 Gamma offset beta : R) :
  Spec.strictly_ascending B -> (3 <= length B)%nat -> Gamma <> 0 ->
  let l := map (Spec.asymmetric_lorentzian A B0 Gamma beta) B in
  let n := length B in
  exists out : list R,
    Fit.asymmetric_lorentz_derivative B A B0 Gamma offset beta = Ok out
    /\ length out = n
    /\ (forall i, (i < n)%nat ->
          nth i out 0 = Spec.second_order_derivative l B i + offset)
    /\ (forall h, 0 < h ->
          (forall i, (S i < n)%nat -> nth (S i) B 0 - nth i B 0 = h) ->
          nth 0 out 0
            = (- 3 * nth 0 l 0 + 4 * nth 1 l 0 - nth 2 l 0) / (2 * h) + offset
          /\ nth (n - 1) out 0
            = (3 * nth (n - 1) l 0 - 4 * nth (n - 2) l 0 + nth (n - 3) l 0)
              / (2 * h) + offset
          /\ forall i, (1 <= i)%nat -> (S i < n)%nat ->
               nth i out 0
               = (nth (i + 1) l 0 - nth (i - 1) l 0) / (2 * h) + offset).
Proof.
  intros Hasc Hn _ l n. unfold Fit.asymmetric_lorentz_derivative.
  fold (Spec.asymmetric_lorentzian A B0 Gamma beta).
  change (map (fun B1 => Spec.asymmetric_lorentzian A B0 Gamma beta B1) B) with l.
  rewrite gradient_spec by (unfold l; rewrite ?length_map; auto).
  cbn [bind]. rewrite map_map. fold n.
  eexists. split; [reflexivity|]. split; [apply length_grid|].
  assert (Hnth : forall i, (i < n)%nat ->
            nth i (map (fun i0 => Spec.second_order_derivative l B i0 + offset)
                       (seq 0 n)) 0
            = Spec.second_order_derivative l B i + offset)
    by (intros i Hi; now rewrite nth_grid).
  split; [exact Hnth|].
  intros h Hh Hstep.
  destruct (second_order_derivative_uniform l B h Hh Hn Hstep)
    as (Hfirst & Hlast & Hmid).
  fold n in Hlast, Hmid. unfold n in Hn.
  rewrite !Hnth by (unfold n; lia). rewrite Hfirst, Hlast.
  split; [reflexivity|]. split; [reflexivity|].
  intros i Hi1 Hi2. rewrite Hnth by lia. now rewrite Hmid.
Qed.

(** Three equally spaced fields around the centre of a symmetric line
    ([beta = 0]): the central difference in the middle vanishes. *)
Lemma asymmetric_lorentz_derivative_spec_witness :
  exists out : list R,
    Fit.asymmetric_lorentz_derivative [0; 1; 2] 1 1 1 0 0 = Ok out
    /\ nth_error out 1 = Some 0.
Proof.
  assert (Hasc : Spec.strictly_ascending [0; 1; 2]).
  { intros i j [Hij Hj]. simpl in Hj.
    assert (Hc : (i = 0 /\ j = 1 \/ i = 0 /\ j = 2 \/ i = 1 /\ j = 2)%nat) by lia.
    destruct Hc as [[-> ->]|[[-> ->]|[-> ->]]]; simpl; lra. }
  destruct (asymmetric_lorentz_derivative_spec [0; 1; 2] 1 1 1 0 0 Hasc)
    as (out & Hout & Hlen & Hnth & _); [simpl; lia | lra |].
  exists out. split; [exact Hout|].
  specialize (Hnth 1%nat ltac:(simpl; lia)).
  destruct out as [|o0 [|o1 out']]; try discriminate.
  simpl in Hnth |- *. rewrite Hnth. f_equal.
  unfold Spec.second_order_derivative, Spec.three_point_derivative,
    Spec.asymmetric_lorentzian. simpl. field.
Defined.

(** * Further properties of the code *)

(** ** The Lorentz derivative and the half-width estimate *)

Lemma lorentz_derivative_map (B : list R) (A B0 Gamma offset : R) :
  Fit.lorentz_derivative B A B0 Gamma offset
  = map (fun b => Fit.lorentz_derivative_at b A B0 Gamma offset) B.
Proof. reflexivity. Qed.

Lemma sqrt3_pos : 0 < sqrt 3.
Proof. apply sqrt_lt_R0. lra. Qed.

Lemma sqrt3_sqr : sqrt 3 * sqrt 3 = 3.
Proof. apply sqrt_sqrt. lra. Qed.

(** The polynomial fact behind the peak of the Lorentz derivative. *)
Lemma quartic_peak (u c : R) :
  (u ^ 2 + 3 * c ^ 2) ^ 2 - 16 * c ^ 3 * u
  = (u - c) ^ 2 * (u ^ 2 + 2 * c * u + 9 * c ^ 2).
Proof. ring. Qed.

(** The size of the Lorentz derivative above its offset, with
    [u = |B - B0|] and [c = |Gamma| / sqrt 3]. *)
Lemma lorentz_derivative_size (B A B0 Gamma offset : R) :
  Gamma <> 0 ->
  let c := Rabs Gamma / sqrt 3 in
  let u := Rabs (B - B0) in
  0 < c
  /\ Rabs (Fit.lorentz_derivative_at B A B0 Gamma offset - offset)
     = Rabs A * (3 * c ^ 2 * u / (u ^ 2 + 3 * c ^ 2) ^ 2).
Proof.
  intros HG c u.
  pose proof sqrt3_pos as Hs. pose proof sqrt3_sqr as Hss.
  assert (HaG : 0 < Rabs Gamma) by (apply Rabs_pos_lt; assumption).
  assert (Hc : 0 < c) by (apply Rdiv_lt_0_compat; assumption).
  split; [exact Hc|].
  assert (HG2 : Gamma ^ 2 = 3 * c ^ 2).
  { unfold c. rewrite <- (pow2_abs Gamma). field_simplify; [|lra].
    replace (sqrt 3 ^ 2) with 3 by (simpl; lra). field. }
  assert (Hu2 : (B - B0) ^ 2 = u ^ 2) by (unfold u; now rewrite pow2_abs).
  assert (Hsum : 0 < u ^ 2 + 3 * c ^ 2) by (pose proof (pow2_ge_0 u); nra).
  assert (Hden : 0 < (u ^ 2 + 3 * c ^ 2) ^ 2) by (apply pow_nonzero_pos; lra).
  unfold Fit.lorentz_derivative_at.
  replace (A * Gamma ^ 2 * (B0 - B) / ((B - B0) ^ 2 + Gamma ^ 2) ^ 2
           + offset - offset)
    with (A * ((3 * c ^ 2 / (u ^ 2 + 3 * c ^ 2) ^ 2) * (B0 - B)))
    by (rewrite HG2, Hu2; field; lra).
  rewrite !Rabs_mult. rewrite (Rabs_pos_eq (3 * c ^ 2 / _)).
  - rewrite (Rabs_minus_sym B0 B). fold u. field. lra.
  - apply Rlt_le. apply Rdiv_lt_0_compat; [nra | assumption].
Qed.

(** The bound on the Lorentz derivative and where it is reached. *)
Lemma lorentz_peak_facts (B A B0 Gamma offset : R) :
  Gamma <> 0 ->
  let L := fun b => Fit.lorentz_derivative_at b A B0 Gamma offset in
  let c := Rabs Gamma / sqrt 3 in
  0 < c
  /\ Rabs (L B - offset) <= 3 * Rabs A / (16 * c)
  /\ (A <> 0 ->
      (Rabs (L B - offset) = 3 * Rabs A / (16 * c) <-> Rabs (B - B0) = c))
  /\ L (B0 - c) - offset = 3 * A / (16 * c)
  /\ L (B0 + c) - offset = - (3 * A / (16 * c)).
Proof.
  intros HG L c.
  pose proof sqrt3_pos as Hs. pose proof sqrt3_sqr as Hss.
  destruct (lorentz_derivative_size B A B0 Gamma offset HG) as [Hc Hsize].
  fold c in Hc, Hsize.
  assert (HG2 : Gamma ^ 2 = 3 * c ^ 2).
  { unfold c. rewrite <- (pow2_abs Gamma). field_simplify; [|lra].
    replace (sqrt 3 ^ 2) with 3 by (simpl; lra). field. }
  set (u := Rabs (B - B0)) in *.
  assert (Hu : 0 <= u) by apply Rabs_pos.
  assert (Hsum : 0 < u ^ 2 + 3 * c ^ 2) by (pose proof (pow2_ge_0 u); nra).
  assert (Hq : 3 * c ^ 2 * u / (u ^ 2 + 3 * c ^ 2) ^ 2
               = 3 / (16 * c)
                 - 3 * ((u - c) ^ 2 * (u ^ 2 + 2 * c * u + 9 * c ^ 2))
                   / (16 * c * (u ^ 2 + 3 * c ^ 2) ^ 2)).
  { rewrite <- quartic_peak. field. lra. }
  assert (Hfac : 0 < u ^ 2 + 2 * c * u + 9 * c ^ 2) by nra.
  assert (Hden : 0 < 16 * c * (u ^ 2 + 3 * c ^ 2) ^ 2).
  { apply Rmult_lt_0_compat; [lra | apply pow_nonzero_pos; lra]. }
  assert (Hgap : 0 <= 3 * ((u - c) ^ 2 * (u ^ 2 + 2 * c * u + 9 * c ^ 2))
                      / (16 * c * (u ^ 2 + 3 * c ^ 2) ^ 2)).
  { apply Rle_mult_inv_pos; [|assumption].
    pose proof (pow2_ge_0 (u - c)). nra. }
  assert (Hc2 : 0 < c ^ 2) by (apply pow_nonzero_pos; lra).
  split; [exact Hc|]. split; [|split; [|split]].
  - fold (L B) in Hsize. rewrite Hsize, Hq.
    replace (3 * Rabs A / (16 * c)) with (Rabs A * (3 / (16 * c)))
      by (field; lra).
    apply Rmult_le_compat_l; [apply Rabs_pos | lra].
  - intros HA. fold (L B) in Hsize. rewrite Hsize, Hq.
    assert (HaA : 0 < Rabs A) by (apply Rabs_pos_lt; assumption).
    replace (3 * Rabs A / (16 * c)) with (Rabs A * (3 / (16 * c)))
      by (field; lra).
    split.
    + intros Heq. apply Rmult_eq_reg_l in Heq; [|lra].
      assert (Hz : 3 * ((u - c) ^ 2 * (u ^ 2 + 2 * c * u + 9 * c ^ 2))
                   / (16 * c * (u ^ 2 + 3 * c ^ 2) ^ 2) = 0) by lra.
      apply (Rmult_eq_compat_r (16 * c * (u ^ 2 + 3 * c ^ 2) ^ 2)) in Hz.
      unfold Rdiv in Hz. rewrite Rmult_assoc, Rinv_l, Rmult_0_l in Hz by lra.
      assert (Hsq : (u - c) ^ 2 = 0) by nra.
      assert (u - c = 0)
        by (apply Rsqr_0_uniq; unfold Rsqr; simpl in Hsq; lra).
      lra.
    + intros ->. replace (c - c) with 0 by ring.
      f_equal. unfold Rdiv. ring.
  - unfold L, Fit.lorentz_derivative_at. rewrite HG2.
    replace (B0 - c - B0) with (- c) by ring. field. lra.
  - unfold L, Fit.lorentz_derivative_at. rewrite HG2.
    replace (B0 + c - B0) with c by ring. field. lra.
Qed.

(** X1.  The Lorentz derivative crosses its offset at the centre, is
    antisymmetric about it, and stays within [3 |A| / (16 c)] of the
    offset, [c = |Gamma| / sqrt 3]; for [A <> 0] that distance is reached
    at the two fields [B0 - c] and [B0 + c] only, above the offset at one
    and below it at the other.  The peak-to-peak distance [2 c] is what the
    half-width estimate of [fit_derivative] turns back into [|Gamma|]. *)
Theorem lorentz_derivative_peaks (B A B0 Gamma offset : R) :
  Gamma <> 0 ->
  let L := fun b => Fit.lorentz_derivative_at b A B0 Gamma offset in
  let c := Rabs Gamma / sqrt 3 in
  L B0 = offset
  /\ L (B0 + (B0 - B)) - offset = - (L B - offset)
  /\ Rabs (L B - offset) <= 3 * Rabs A / (16 * c)
  /\ (A <> 0 ->
      (Rabs (L B - offset) = 3 * Rabs A / (16 * c) <-> Rabs (B - B0) = c))
  /\ L (B0 - c) - offset = 3 * A / (16 * c)
  /\ L (B0 + c) - offset = - (3 * A / (16 * c))
  /\ np.abs ((B0 - c) - (B0 + c)) / 2 * np.sqrt 3 = Rabs Gamma.
Proof.
  intros HG L c.
  destruct (lorentz_peak_facts B A B0 Gamma offset HG)
    as (Hc & Hbound & Heq & Hhi & Hlo).
  fold c in Hc, Hbound, Heq, Hhi, Hlo.
  assert (HGpos : 0 < Gamma ^ 2) by (apply pow_nonzero_pos; assumption).
  pose proof sqrt3_pos as Hs.
  split; [|split; [|split; [|split; [|split; [|split]]]]];
    try assumption.
  - unfold L, Fit.lorentz_derivative_at.
    replace (B0 - B0) with 0 by ring. unfold Rdiv. ring.
  - unfold L, Fit.lorentz_derivative_at.
    assert (0 < (B - B0) ^ 2 + Gamma ^ 2)
      by (pose proof (pow2_ge_0 (B - B0)); lra).
    replace (B0 + (B0 - B) - B0) with (- (B - B0)) by ring.
    replace ((- (B - B0)) ^ 2) with ((B - B0) ^ 2) by ring.
    field. lra.
  - unfold np.abs, np.sqrt.
    replace (B0 - c - (B0 + c)) with (- (2 * c)) by ring.
    rewrite Rabs_Ropp, Rabs_pos_eq by lra. unfold c. field. lra.
Qed.

Lemma lorentz_derivative_peaks_witness :
  Fit.lorentz_derivative_at 5 2 5 1 7 = 7
  /\ Rabs (Fit.lorentz_derivative_at 4 2 5 1 7 - 7) <= 3 * 2 / (16 * (1 / sqrt 3)).
Proof.
  destruct (lorentz_derivative_peaks 4 2 5 1 7 ltac:(lra))
    as (Hcentre & _ & Hbound & _).
  split; [exact Hcentre|].
  rewrite (Rabs_pos_eq 2), (Rabs_pos_eq 1) in Hbound by lra. exact Hbound.
Defined.

Lemma two_members_length (a b : R) (l : list R) :
  In a l -> In b l -> a <> b -> (2 <= length l)%nat.
Proof.
  intros Ha Hb Hab. destruct l as [|u [|v t]].
  - destruct Ha.
  - destruct Ha as [<-|[]], Hb as [<-|[]]. congruence.
  - simpl. lia.
Qed.

Lemma nth_lorentz (x : list R) (A B0 Gamma offset : R) (i : nat) :
  (i < length x)%nat ->
  nth i (Fit.lorentz_derivative x A B0 Gamma offset) 0
  = Fit.lorentz_derivative_at (nth i x 0) A B0 Gamma offset.
Proof.
  intros Hi. rewrite lorentz_derivative_map.
  rewrite (nth_indep _ 0 (Fit.lorentz_derivative_at 0 A B0 Gamma offset))
    by (rewrite length_map; assumption).
  apply (map_nth (fun b => Fit.lorentz_derivative_at b A B0 Gamma offset)).
Qed.

(** A field at which the Lorentz derivative is at least as far above
    (below) its offset as the bound allows is the field of the upper
    (lower) peak. *)
Lemma lorentz_peak_location (B A B0 Gamma offset : R) :
  A <> 0 -> Gamma <> 0 ->
  let L := fun b => Fit.lorentz_derivative_at b A B0 Gamma offset in
  let c := Rabs Gamma / sqrt 3 in
  (3 * Rabs A / (16 * c) <= L B - offset ->
   B = if Rlt_dec 0 A then B0 - c else B0 + c)
  /\ (L B - offset <= - (3 * Rabs A / (16 * c)) ->
      B = if Rlt_dec 0 A then B0 + c else B0 - c).
Proof.
  intros HA HG L c.
  destruct (lorentz_peak_facts B A B0 Gamma offset HG)
    as (Hc & Hbound & Heq & _).
  destruct (lorentz_peak_facts (B0 - c) A B0 Gamma offset HG)
    as (_ & _ & _ & Hhi & _).
  destruct (lorentz_peak_facts (B0 + c) A B0 Gamma offset HG)
    as (_ & _ & _ & _ & Hlo).
  fold c in Hc, Hbound, Heq, Hhi, Hlo. subst L. cbv beta in *.
  set (LB := Fit.lorentz_derivative_at B A B0 Gamma offset) in *.
  specialize (Heq HA).
  assert (HaA : 0 < Rabs A) by (apply Rabs_pos_lt; assumption).
  assert (Hpeak : 0 < 3 * Rabs A / (16 * c))
    by (apply Rdiv_lt_0_compat; lra).
  assert (Hloc : Rabs (LB - offset) = 3 * Rabs A / (16 * c) ->
                 B = B0 - c \/ B = B0 + c).
  { intros H. apply Heq in H. unfold Rabs in H.
    destruct (Rcase_abs (B - B0)); [left | right]; lra. }
  assert (HabsA : Rabs A = if Rlt_dec 0 A then A else - A).
  { unfold Rabs. destruct (Rcase_abs A), (Rlt_dec 0 A); lra. }
  assert (Hsigned : 3 * Rabs A / (16 * c)
                    = if Rlt_dec 0 A then 3 * A / (16 * c)
                      else - (3 * A / (16 * c))).
  { rewrite HabsA. destruct (Rlt_dec 0 A); field; lra. }
  split; intros H.
  - assert (Habs : Rabs (LB - offset) = 3 * Rabs A / (16 * c)).
    { rewrite Rabs_pos_eq by lra. apply Rle_antisym; [|exact H].
      rewrite <- (Rabs_pos_eq (LB - offset)) by lra. exact Hbound. }
    destruct (Hloc Habs) as [E | E]; destruct (Rlt_dec 0 A);
      try exact E; exfalso; subst B; unfold LB in *; lra.
  - assert (Habs : Rabs (LB - offset) = 3 * Rabs A / (16 * c)).
    { rewrite <- Rabs_Ropp, Rabs_pos_eq by lra.
      apply Rle_antisym; [|lra].
      rewrite <- (Rabs_pos_eq (- (LB - offset))), Rabs_Ropp by lra.
      exact Hbound. }
    destruct (Hloc Habs) as [E | E]; destruct (Rlt_dec 0 A);
      try exact E; exfalso; subst B; unfold LB in *; lra.
Qed.

(** X2.  On a noise-free Lorentz derivative sampled on a field axis that
    contains both peak fields [B0 - c] and [B0 + c], [c = |Gamma| / sqrt 3],
    [fit_derivative] reaches its fit and its half-width guess is exactly
    [|Gamma|], whatever the amplitude [A <> 0], the offset and the
    variant. *)
Theorem fit_derivative_width_exact (voigt_profile : R -> R -> R -> R)
  (x : list R) (A B0 Gamma offset : R) (v : Spec.LineShape) :
  A <> 0 -> Gamma <> 0 ->
  In (B0 - Rabs Gamma / sqrt 3) x -> In (B0 + Rabs Gamma / sqrt 3) x ->
  exists call : Fit.curve_fit_call,
    Fit.fit_derivative_call voigt_profile x
      (Fit.lorentz_derivative x A B0 Gamma offset) (Spec.profile_name v)
    = Ok call
    /\ nth_error (Fit.p0 call) 2 = Some (Rabs Gamma).
Proof.
  intros HA HG Hin_hi Hin_lo.
  set (c := Rabs Gamma / sqrt 3) in *.
  set (y := Fit.lorentz_derivative x A B0 Gamma offset).
  destruct (lorentz_peak_facts B0 A B0 Gamma offset HG)
    as (Hc & _ & _ & Hhi & Hlo).
  fold c in Hc, Hhi, Hlo.
  assert (Hlen : length x = length y)
    by (unfold y; rewrite lorentz_derivative_map, length_map; reflexivity).
  assert (Hn : (2 <= length y)%nat).
  { rewrite <- Hlen. apply (two_members_length (B0 - c) (B0 + c)); auto. lra. }
  destruct (fit_derivative_call_guess voigt_profile x y v Hlen Hn)
    as (call & jmin & jmax & k & integral & Hcall & Hjmin & Hjmax & _ & _ & _
        & Hp0).
  exists call. split; [exact Hcall|].
  assert (Hy : y <> []) by (destruct y; [simpl in Hn; lia | discriminate]).
  destruct (argmin_spec y Hy) as (jmin' & Hjmin' & [Hmin_lt Hmin] & _).
  destruct (argmax_spec y Hy) as (jmax' & Hjmax' & [Hmax_lt Hmax] & _).
  rewrite Hjmin in Hjmin'. injection Hjmin' as <-.
  rewrite Hjmax in Hjmax'. injection Hjmax' as <-.
  destruct (In_nth x (B0 - c) 0 Hin_hi) as (i1 & Hi1 & Ei1).
  destruct (In_nth x (B0 + c) 0 Hin_lo) as (i2 & Hi2 & Ei2).
  assert (Hy1 : nth i1 y 0 - offset = 3 * A / (16 * c))
    by (unfold y; rewrite nth_lorentz, Ei1 by assumption; exact Hhi).
  assert (Hy2 : nth i2 y 0 - offset = - (3 * A / (16 * c)))
    by (unfold y; rewrite nth_lorentz, Ei2 by assumption; exact Hlo).
  assert (HabsA : Rabs A = if Rlt_dec 0 A then A else - A).
  { unfold Rabs. destruct (Rcase_abs A), (Rlt_dec 0 A); lra. }
  assert (Hsigned : 3 * Rabs A / (16 * c)
                    = if Rlt_dec 0 A then 3 * A / (16 * c)
                      else - (3 * A / (16 * c))).
  { rewrite HabsA. destruct (Rlt_dec 0 A); field; lra. }
  destruct (lorentz_peak_location (nth jmax x 0) A B0 Gamma offset HA HG)
    as [Hup _].
  destruct (lorentz_peak_location (nth jmin x 0) A B0 Gamma offset HA HG)
    as [_ Hdown].
  fold c in Hup, Hdown.
  rewrite <- !nth_lorentz in Hup, Hdown by lia. fold y in Hup, Hdown.
  pose proof (Hmax i1 ltac:(lia)) as M1. pose proof (Hmax i2 ltac:(lia)) as M2.
  pose proof (Hmin i1 ltac:(lia)) as m1. pose proof (Hmin i2 ltac:(lia)) as m2.
  assert (Ejmax : nth jmax x 0 = if Rlt_dec 0 A then B0 - c else B0 + c).
  { apply Hup. rewrite Hsigned. destruct (Rlt_dec 0 A); lra. }
  assert (Ejmin : nth jmin x 0 = if Rlt_dec 0 A then B0 + c else B0 - c).
  { apply Hdown. rewrite Hsigned. destruct (Rlt_dec 0 A); lra. }
  rewrite Hp0, Ejmax, Ejmin.
  pose proof sqrt3_pos as Hs.
  assert (Hw : forall d, Rabs d = 2 * c -> Rabs d / 2 * sqrt 3 = Rabs Gamma).
  { intros d ->. unfold c. field. lra. }
  destruct v; cbn; f_equal; apply Hw; destruct (Rlt_dec 0 A);
    unfold Rabs; destruct (Rcase_abs _); lra.
Qed.

Lemma fit_derivative_width_exact_witness :
  exists call : Fit.curve_fit_call,
    Fit.fit_derivative_call (fun _ _ _ => 0)
      [5 - Rabs 1 / sqrt 3; 5; 5 + Rabs 1 / sqrt 3]
      (Fit.lorentz_derivative [5 - Rabs 1 / sqrt 3; 5; 5 + Rabs 1 / sqrt 3]
         2 5 1 7) "Lorentz"
    = Ok call
    /\ nth_error (Fit.p0 call) 2 = Some (Rabs 1).
Proof.
  apply (fit_derivative_width_exact (fun _ _ _ => 0)
           [5 - Rabs 1 / sqrt 3; 5; 5 + Rabs 1 / sqrt 3] 2 5 1 7 Spec.Lorentz);
    try lra; simpl; auto.
Defined.

(** ** Rotations of the lock-in signal *)

Lemma cis_deg_plus (a b : R) (z : complex) :
  Cmul (Spec.cis_deg b)
       (Complex (real (Cmul (Spec.cis_deg a) z)) (imag (Cmul (Spec.cis_deg a) z)))
  = Cmul (Spec.cis_deg (a + b)) z.
Proof.
  unfold Spec.cis_deg, Cmul. cbn [real imag].
  replace ((a + b) * PI / 180) with (a * PI / 180 + b * PI / 180) by field.
  rewrite cos_plus, sin_plus. f_equal; ring.
Qed.

Lemma rotated_compose (a b : R) (X : list R) :
  forall Y : list R,
    Spec.rotated (map real (Spec.rotated X Y a)) (map imag (Spec.rotated X Y a)) b
    = Spec.rotated X Y (a + b).
Proof.
  unfold Spec.rotated.
  induction X as [|x X' IH]; intros [|y Y']; try reflexivity.
  cbn [zip_with map]. rewrite IH. f_equal.
  apply (cis_deg_plus a b (Complex x y)).
Qed.

Lemma rotated_zero (X : list R) :
  forall Y : list R,
    length X = length Y ->
    map real (Spec.rotated X Y 0) = X /\ map imag (Spec.rotated X Y 0) = Y.
Proof.
  unfold Spec.rotated, Spec.cis_deg.
  replace (0 * PI / 180) with 0 by field. rewrite cos_0, sin_0.
  induction X as [|x X' IH]; intros [|y Y'] Hlen; try discriminate.
  - split; reflexivity.
  - destruct (IH Y') as [Hr Hi]; [simpl in Hlen; lia|].
    cbn [zip_with map Cmul real imag]. rewrite Hr, Hi.
    split; f_equal; ring.
Qed.

Lemma rotated_length (X : list R) (phi : R) :
  forall Y : list R,
    length X = length Y -> length (Spec.rotated X Y phi) = length X.
Proof. intros Y H. unfold Spec.rotated. now apply zip_with_length. Qed.

Lemma rotated_modulus (phi : R) (X : list R) :
  forall Y : list R,
    sum (map (fun v => v ^ 2) (map real (Spec.rotated X Y phi)))
    + sum (map (fun v => v ^ 2) (map imag (Spec.rotated X Y phi)))
    = sum (map (fun v => v ^ 2) (firstn (length Y) X))
      + sum (map (fun v => v ^ 2) (firstn (length X) Y)).
Proof.
  unfold Spec.rotated.
  induction X as [|x X' IH]; intros [|y Y']; try (simpl; lra).
  cbn [zip_with map length firstn]. unfold sum in *. cbn [fold_right].
  specialize (IH Y').
  unfold Spec.cis_deg, Cmul in *. cbn [real imag] in *.
  set (co := cos (phi * PI / 180)) in *. set (si := sin (phi * PI / 180)) in *.
  assert (Hsc : si * si + co * co = 1) by apply (sin2_cos2 (phi * PI / 180)).
  assert (He : (co * x - si * y) ^ 2 + (co * y + si * x) ^ 2 = x ^ 2 + y ^ 2).
  { transitivity ((si * si + co * co) * (x ^ 2 + y ^ 2)); [ring|].
    rewrite Hsc. ring. }
  lra.
Qed.

(** X3.  [complex_rotate_array] on arrays of equal length: it keeps the
    length and the energy [sum X^2 + sum Y^2]; the rotation by 0 degrees
    is the identity, two rotations in a row are the rotation by the sum of
    the phases, and rotating back by the opposite phase returns the
    arrays that went in. *)
Theorem complex_rotate_array_group (X Y : list R) (a b : R) :
  length X = length Y ->
  exists X1 Y1 : list R,
    FMR.complex_rotate_array X Y a = Ok (X1, Y1)
    /\ length X1 = length X /\ length Y1 = length X
    /\ sum (map (fun v => v ^ 2) X1) + sum (map (fun v => v ^ 2) Y1)
       = sum (map (fun v => v ^ 2) X) + sum (map (fun v => v ^ 2) Y)
    /\ FMR.complex_rotate_array X Y 0 = Ok (X, Y)
    /\ FMR.complex_rotate_array X1 Y1 b = FMR.complex_rotate_array X Y (a + b)
    /\ FMR.complex_rotate_array X1 Y1 (- a) = Ok (X, Y).
Proof.
  intros Hlen.
  exists (map real (Spec.rotated X Y a)), (map imag (Spec.rotated X Y a)).
  assert (Hl1 : length (map real (Spec.rotated X Y a)) = length X)
    by (rewrite length_map; now apply rotated_length).
  assert (Hl2 : length (map imag (Spec.rotated X Y a)) = length X)
    by (rewrite length_map; now apply rotated_length).
  destruct (rotated_zero X Y Hlen) as [Hr0 Hi0].
  split; [now apply complex_rotate_array_spec|].
  split; [exact Hl1|]. split; [exact Hl2|].
  split; [|split; [|split]].
  - rewrite rotated_modulus. rewrite <- Hlen, firstn_all.
    rewrite Hlen, firstn_all. reflexivity.
  - rewrite complex_rotate_array_spec by assumption. now rewrite Hr0, Hi0.
  - rewrite !complex_rotate_array_spec by congruence.
    now rewrite rotated_compose.
  - rewrite complex_rotate_array_spec by congruence.
    rewrite rotated_compose. replace (a + - a) with 0 by ring.
    now rewrite Hr0, Hi0.
Qed.

Lemma complex_rotate_array_group_witness :
  FMR.complex_rotate_array [1; 2] [3; 4] 0 = Ok ([1; 2], [3; 4]).
Proof.
  destruct (complex_rotate_array_group [1; 2] [3; 4] 0 0 eq_refl)
    as (X1 & Y1 & _ & _ & _ & _ & H0 & _).
  exact H0.
Defined.

(** ** More on [autophase] *)

Lemma zip_with_app {A B C : Type} (h : A -> B -> C) (a1 : list A) :
  forall (b1 : list B) (a2 : list A) (b2 : list B),
    length a1 = length b1 ->
    zip_with h (a1 ++ a2) (b1 ++ b2) = zip_with h a1 b1 ++ zip_with h a2 b2.
Proof.
  induction a1 as [|u a1 IH]; intros [|v b1] a2 b2 H; try discriminate.
  - reflexivity.
  - simpl. f_equal. apply IH. simpl in H. lia.
Qed.

Lemma rotated_zeros (m : nat) (phi : R) :
  map real (Spec.rotated (repeat 0 m) (repeat 0 m) phi) = repeat 0 m
  /\ map imag (Spec.rotated (repeat 0 m) (repeat 0 m) phi) = repeat 0 m.
Proof.
  unfold Spec.rotated. induction m as [|m [IHr IHi]]; [split; reflexivity|].
  cbn [repeat zip_with map Cmul real imag]. rewrite IHr, IHi.
  split; f_equal; ring.
Qed.

Lemma sum_squares_app (a b : list R) :
  sum (map (fun y => y ^ 2) (a ++ b))
  = sum (map (fun y => y ^ 2) a) + sum (map (fun y => y ^ 2) b).
Proof.
  induction a as [|u a IH]; unfold sum in *; simpl; [lra|].
  simpl in IH. rewrite IH. lra.
Qed.

Lemma sum_squares_zeros (m : nat) : sum (map (fun y => y ^ 2) (repeat 0 m)) = 0.
Proof.
  induction m as [|m IH]; unfold sum in *; simpl; [reflexivity|].
  simpl in IH. rewrite IH. lra.
Qed.

Lemma quadrature_norm_padding (X Y : list R) (m : nat) (phi : R) :
  length X = length Y ->
  quadrature_norm (X ++ repeat 0 m) (Y ++ repeat 0 m) phi
  = quadrature_norm X Y phi.
Proof.
  intros Hlen. unfold quadrature_norm, Spec.rotated.
  rewrite zip_with_app by assumption. rewrite map_app, sum_squares_app.
  destruct (rotated_zeros m phi) as [_ Hi]. unfold Spec.rotated in Hi.
  rewrite Hi, sum_squares_zeros. f_equal. lra.
Qed.



Lemma sqrt_le_sum_squares (a b : R) :
  0 <= a -> 0 <= b -> sqrt a <= sqrt b -> a <= b.
Proof.
  intros Ha Hb H. destruct (Rle_lt_dec a b) as [Hle|Hlt]; [exact Hle|].
  assert (sqrt b < sqrt a) by (apply sqrt_lt_1_alt; lra). lra.
Qed.

(** X5.  [autophase] always returns, with a phase between -90 and 90
    degrees and a signal of the length of its input, and it never makes
    things worse: the quadrature part left after the rotation is at most
    the raw quadrature signal (the phase 0 is one of the candidates), and
    the returned in-phase signal carries at least the energy of the raw
    in-phase signal. *)
Theorem autophase_never_worse (X Y : list R) :
  length X = length Y ->
  exists (phi : Z) (X' : list R),
    FMR.autophase X Y = Ok (phi, X')
    /\ (-90 <= phi <= 90)%Z
    /\ length X' = length X
    /\ quadrature_norm X Y (IZR phi) <= sqrt (sum (map (fun y => y ^ 2) Y))
    /\ sum (map (fun x => x ^ 2) X) <= sum (map (fun x => x ^ 2) X').
Proof.
  intros Hlen.
  set (norm := fun j : nat => quadrature_norm X Y (IZR (Z.of_nat j - 90))).
  assert (HRMS : map norm (seq 0 181) <> []) by discriminate.
  destruct (argmin_spec _ HRMS) as (k & Hk & [Hk_lt Hmin] & _).
  rewrite length_grid in Hk_lt, Hmin.
  exists (Z.of_nat k - 90)%Z, (map real (Spec.rotated X Y (IZR (Z.of_nat k - 90)))).
  destruct (rotated_zero X Y Hlen) as [_ Hi0].
  assert (Hzero : norm 90%nat = sqrt (sum (map (fun y => y ^ 2) Y))).
  { unfold norm, quadrature_norm. change (Z.of_nat 90 - 90)%Z with 0%Z.
    now rewrite Hi0. }
  assert (Hle : norm k <= norm 90%nat).
  { specialize (Hmin 90%nat ltac:(lia)). rewrite !nth_grid in Hmin by lia.
    exact Hmin. }
  split; [|split; [lia|split; [|split]]].
  - rewrite autophase_unfold by assumption. fold norm. rewrite Hk. reflexivity.
  - rewrite length_map. now apply rotated_length.
  - fold (norm k). rewrite <- Hzero. exact Hle.
  - pose proof (rotated_modulus (IZR (Z.of_nat k - 90)) X Y) as Hmod.
    rewrite <- Hlen, firstn_all in Hmod. rewrite Hlen, firstn_all in Hmod.
    assert (Hsq : sum (map (fun y => y ^ 2)
                           (map imag (Spec.rotated X Y (IZR (Z.of_nat k - 90)))))
                  <= sum (map (fun y => y ^ 2) Y)).
    { apply sqrt_le_sum_squares; try apply sum_squares_nonneg.
      rewrite <- Hzero. exact Hle. }
    lra.
Qed.

Lemma autophase_never_worse_witness :
  exists (phi : Z) (X' : list R),
    FMR.autophase [1; 2] [2; 1] = Ok (phi, X')
    /\ 1 ^ 2 + (2 ^ 2 + 0) <= sum (map (fun x => x ^ 2) X').
Proof.
  destruct (autophase_never_worse [1; 2] [2; 1] eq_refl)
    as (phi & X' & Hauto & _ & _ & _ & Hen).
  exists phi, X'. split; [exact Hauto | exact Hen].
Defined.

(** ** The measurement loop of [field_sweep] *)

Lemma setitem_next (meas : list R) (v : R) (rest : nat) :
  FMR.setitem (meas ++ repeat 0 (S rest)) (length meas) v
  = Ok ((meas ++ [v]) ++ repeat 0 rest).
Proof.
  unfold FMR.setitem.
  assert (Hlt : (length meas <? length (meas ++ repeat 0%R (S rest)))%nat = true).
  { apply Nat.ltb_lt. rewrite length_app, repeat_length. lia. }
  rewrite Hlt. f_equal.
  rewrite firstn_app, Nat.sub_diag, firstn_all, firstn_O, app_nil_r.
  rewrite skipn_app, skipn_all2 by lia.
  replace (S (length meas) - length meas)%nat with 1%nat by lia.
  cbn [repeat skipn app]. now rewrite <- app_assoc.
Qed.


(** [autophase] on arrays with an unmeasured tail of zeros, next to
    [autophase] on the measured part: both return, with the same phase. *)
Lemma autophase_padded (X Y : list R) (m : nat) :
  length X = length Y ->
  exists k : nat,
    (k < 181)%nat
    /\ FMR.autophase X Y
       = Ok ((Z.of_nat k - 90)%Z,
             map real (Spec.rotated X Y (IZR (Z.of_nat k - 90))))
    /\ FMR.autophase (X ++ repeat 0 m) (Y ++ repeat 0 m)
       = Ok ((Z.of_nat k - 90)%Z,
             map real (Spec.rotated X Y (IZR (Z.of_nat k - 90)))
             ++ repeat 0 m).
Proof.
  intros Hlen.
  set (norm := fun j : nat => quadrature_norm X Y (IZR (Z.of_nat j - 90))).
  assert (HRMS : map norm (seq 0 181) <> []) by discriminate.
  destruct (argmin_spec _ HRMS) as (k & Hk & [Hk_lt _] & _).
  rewrite length_grid in Hk_lt.
  exists k. split; [exact Hk_lt|]. split.
  - rewrite autophase_unfold by assumption. fold norm. now rewrite Hk.
  - rewrite autophase_unfold by (rewrite !length_app; congruence).
    rewrite (map_ext _ norm)
      by (intros; apply quadrature_norm_padding; assumption).
    rewrite Hk. cbn [bind].
    unfold Spec.rotated. rewrite zip_with_app by assumption.
    rewrite map_app.
    destruct (rotated_zeros m (IZR (Z.of_nat k - 90))) as [Hr _].
    unfold Spec.rotated in Hr. now rewrite Hr.
Qed.



(** A plan of a single field is measured and then lost: the timing
    statistics at the end of [field_sweep] fail on its one time stamp. *)
Lemma timing_statistics_one_point (STOP : nat -> bool)
  (read_field : nat -> R) (read_XY : nat -> R * R) (b : R) (rampdown : bool) :
  FMR.field_sweep_acquire STOP read_field read_XY [b] rampdown
  = Raise ValueError.
Proof.
  unfold FMR.field_sweep_acquire. cbv zeta. cbn [length repeat FMR.sweep_loop].
  destruct (STOP 0%nat).
  - cbn [bind FMR.VX FMR.VY].
    destruct (autophase_padded [] [] 1 eq_refl) as (p & _ & _ & Hpad).
    cbn [app repeat] in Hpad. rewrite Hpad. reflexivity.
  - unfold FMR.setitem. destruct (read_XY 0%nat) as [x y].
    cbn [length Nat.ltb Nat.leb firstn skipn app bind
         FMR.fields FMR.VX FMR.VY].
    destruct (autophase_padded [x] [y] 0 eq_refl) as (p & _ & Hmeas & _).
    rewrite Hmeas. reflexivity.
Qed.

(** ** The field plan of [field_sweep] *)

Lemma field_sweep_plan_rounded_exact (f M alpha g deltaB0 offset : R)
  (mode accuracy : string) :
  FMR.field_sweep_plan_rounded (fun q => q) f M alpha g deltaB0 mode offset
    accuracy
  = FMR.field_sweep_plan f M alpha g deltaB0 mode offset accuracy.
Proof. reflexivity. Qed.

Lemma quotient_sweep_10GHz_value :
  97 < binary64.value binary64.quotient_sweep_10GHz <= 97 + 1 / 10 ^ 12.
Proof.
  unfold binary64.value.
  replace (FloatOps.Prim2SF binary64.quotient_sweep_10GHz)
    with (SpecFloat.S754_finite false 6825768185233414 (-46))
    by (vm_compute; reflexivity).
  cbv [powerRZ]. simpl pow. lra.
Qed.

(** A plan of [calc_B_range] around a resonance field that is not
    negative, with [k = multiplier * sampling] steps in each half of the
    window, the computed quotient [fl q] being less than one away from
    the exact one. *)
Lemma calc_B_range_rounded_window (fl : R -> R)
  (B0 deltaB multiplier sampling offset err : R) (k : nat) :
  0 <= B0 -> 0 < deltaB -> 0 < multiplier -> 0 < sampling ->
  multiplier * sampling = INR k ->
  let start := Rmax 0 (B0 - multiplier * deltaB) in
  let stop := B0 + multiplier * deltaB in
  let step := deltaB / sampling in
  let q := (stop + step - start) / step in
  Rabs (fl q - q) <= err -> err < 1 ->
  exists B : list R,
    FMR.calc_B_range_rounded fl B0 deltaB multiplier sampling offset = Ok B
    /\ (S k <= length B <= S (S (2 * k)))%nat
    /\ (0 <= B0 - multiplier * deltaB ->
        (fl q <= q ->
         length B = S (2 * k) /\ last B 0 = stop + offset)
        /\ (q < fl q ->
            length B = S (S (2 * k)) /\ last B 0 = stop + step + offset))
    /\ stop + offset - err * step <= last B 0
       < stop + offset + step + err * step
    /\ Spec.strictly_ascending B
    /\ nth 0 B 0 = start + offset.
Proof.
  intros HB Hd Hm Hs Hk start stop step q Herr Herr1.
  assert (Hstep : 0 < step) by (apply Rdiv_lt_0_compat; lra).
  assert (Hds : deltaB = step * sampling) by (unfold step; field; lra).
  assert (Hhalf : multiplier * deltaB = INR k * step).
  { rewrite <- Hk, Hds at 1. ring. }
  assert (Hstart : B0 - multiplier * deltaB <= start <= B0).
  { unfold start, Rmax. destruct (Rle_dec _ _); nra. }
  assert (Hqs : q * step = stop + step - start) by (unfold q; field; lra).
  assert (Hqlo : INR k + 1 <= q).
  { apply Rmult_le_reg_r with step; [assumption|]. unfold stop in Hqs. lra. }
  assert (Hqhi : q <= 2 * INR k + 1).
  { apply Rmult_le_reg_r with step; [assumption|]. unfold stop in Hqs. lra. }
  pose proof (pos_INR k) as Hk0.
  assert (Hq : err < q) by lra.
  destruct (calc_B_range_rounded_steps fl B0 deltaB multiplier sampling offset
              err Hd Hm Hs Herr Hq) as (n & Heq & _ & Hn & Hlast).
  fold start stop step q in Heq, Hn, Hlast.
  assert (Hfl : q - err <= fl q <= q + err)
    by (apply Rabs_bound in Herr; lra).
  assert (Hlo : (k <= n)%nat).
  { apply Nat.lt_succ_r. apply INR_lt. rewrite S_INR. lra. }
  assert (Hhi : (n <= S (2 * k))%nat).
  { apply Nat.lt_succ_r. apply INR_lt. rewrite !S_INR, mult_INR.
    simpl INR. lra. }
  exists (map (fun i => start + INR i * step + offset) (seq 0 (S n))).
  split; [exact Heq|]. rewrite length_grid, last_grid.
  split; [lia|]. split; [|split; [lra|split]].
  - intros Hclip.
    assert (Hs0 : start = B0 - multiplier * deltaB)
      by (unfold start; apply Rmax_right; assumption).
    assert (Hq2 : q = 2 * INR k + 1).
    { apply Rmult_eq_reg_r with step; [|lra]. unfold stop in Hqs. lra. }
    split; intros Hcmp.
    + assert (Hn2 : n = (2 * k)%nat).
      { apply Nat.le_antisymm.
        - apply Nat.lt_succ_r. apply INR_lt. rewrite S_INR, mult_INR.
          simpl INR. lra.
        - apply Nat.lt_succ_r. apply INR_lt. rewrite S_INR, mult_INR.
          simpl INR. lra. }
      split; [now rewrite Hn2|].
      rewrite Hn2, mult_INR. simpl INR. unfold stop. lra.
    + assert (Hn2 : n = S (2 * k)).
      { apply Nat.le_antisymm; [exact Hhi|].
        apply Nat.lt_succ_r. apply INR_lt. rewrite !S_INR, mult_INR.
        simpl INR. lra. }
      split; [now rewrite Hn2|].
      rewrite Hn2, S_INR, mult_INR. simpl INR. unfold stop. lra.
  - intros i j [Hij Hj]. rewrite length_grid in Hj.
    rewrite !nth_grid by lia. apply lt_INR in Hij. nra.
  - rewrite nth_grid by lia. simpl INR. lra.
Qed.

(** X7.  For a known accuracy and mode, a g-factor that is not zero and a
    positive expected linewidth, [field_sweep] plans a strictly ascending
    sequence of fields.  The three accuracies trade the width of the
    window against the density of the points: each of them has 48 steps
    in each half of the window.  The number of points is the ceiling of
    the quotient [q] of [np.arange] as double arithmetic yields it; when
    that double [fl q] is less than one away from the exact quotient, the
    plan has between 49 and 98 points.  When the window does not reach
    below zero the exact quotient is 97: the plan then has 97 points and
    ends [multiplier] linewidths above the expected resonance field if the
    computed quotient does not exceed 97, and has 98 points and ends one
    step higher if it does.  Above an expected resonance field of 0.3 T
    the offset of the caller is not applied. *)
Theorem field_sweep_plan_points (fl : R -> R)
  (f M alpha g deltaB0 offset err : R)
  (mode accuracy : string) (multiplier sampling : R) :
  g <> 0 ->
  (mode = "ip" \/ mode = "oop")%string ->
  (accuracy = "low"%string /\ multiplier = 12 /\ sampling = 4)
  \/ (accuracy = "medium"%string /\ multiplier = 8 /\ sampling = 6)
  \/ (accuracy = "high"%string /\ multiplier = 6 /\ sampling = 8) ->
  let gamma_prime := g * e / (2 * me) / (2 * PI) in
  let B0 := if (mode =? "ip")%string
            then FMR.kittel_resonance_field_ip f M gamma_prime
            else FMR.kittel_resonance_field_oop f M gamma_prime in
  let deltaB := FMR.delta_B f alpha deltaB0 gamma_prime in
  0 < deltaB ->
  let start := Rmax 0 (B0 - multiplier * deltaB) in
  let stop := B0 + multiplier * deltaB in
  let step := deltaB / sampling in
  let q := (stop + step - start) / step in
  let offset' := if Rlt_dec (3 / 10) B0 then 0 else offset in
  Rabs (fl q - q) <= err -> err < 1 ->
  exists B : list R,
    FMR.field_sweep_plan_rounded fl f M alpha g deltaB0 mode offset accuracy
    = Ok B
    /\ (49 <= length B <= 98)%nat
    /\ Spec.strictly_ascending B
    /\ (0 <= B0 - multiplier * deltaB ->
        q = 97
        /\ (fl q <= q -> length B = 97%nat /\ last B 0 = stop + offset')
        /\ (q < fl q ->
            length B = 98%nat /\ last B 0 = stop + step + offset'))
    /\ stop + offset' - err * step <= last B 0
       < stop + offset' + step + err * step
    /\ (3 / 10 < B0 -> nth 0 B 0 = start)
    /\ (B0 <= 3 / 10 -> nth 0 B 0 = start + offset).
Proof.
  intros _ Hmode Hacc gamma_prime B0 deltaB Hd start stop step q offset'
    Herr Herr1.
  assert (HB0 : 0 <= B0).
  { unfold B0. destruct (mode =? "ip")%string.
    - apply kittel_resonance_field_ip_nonneg.
    - apply kittel_resonance_field_oop_nonneg. }
  assert (Hplan : FMR.field_sweep_plan_rounded fl f M alpha g deltaB0 mode
                    offset accuracy
                  = FMR.calc_B_range_rounded fl B0 deltaB multiplier sampling
                      offset').
  { unfold FMR.field_sweep_plan_rounded, offset', B0, deltaB, gamma_prime,
      np.pi.
    destruct Hacc as [(-> & -> & ->)|[(-> & -> & ->)|(-> & -> & ->)]];
      destruct Hmode as [->| ->]; reflexivity. }
  assert (Hk : multiplier * sampling = INR 48 /\ 0 < multiplier /\ 0 < sampling).
  { rewrite (INR_IZR_INZ 48). cbn [Z.of_nat Pos.of_succ_nat Pos.succ].
    destruct Hacc as [(_ & -> & ->)|[(_ & -> & ->)|(_ & -> & ->)]]; lra. }
  destruct Hk as (Hk & Hm & Hs).
  destruct (calc_B_range_rounded_window fl B0 deltaB multiplier sampling
              offset' err 48 HB0 Hd Hm Hs Hk Herr Herr1)
    as (B & HB & Hlen & Hfull & Hlast & Hasc & Hfirst).
  fold start stop step q in Hfull, Hlast, Hfirst.
  exists B. rewrite Hplan.
  split; [exact HB|]. split; [exact Hlen|]. split; [exact Hasc|].
  split; [|split; [exact Hlast|]].
  - intros Hclip. destruct (Hfull Hclip) as [H1 H2].
    split; [|split; assumption].
    assert (Hstep : 0 < step) by (apply Rdiv_lt_0_compat; lra).
    assert (Hds : deltaB = step * sampling) by (unfold step; field; lra).
    assert (Hs0 : start = B0 - multiplier * deltaB)
      by (unfold start; apply Rmax_right; assumption).
    rewrite (INR_IZR_INZ 48) in Hk.
    cbn [Z.of_nat Pos.of_succ_nat Pos.succ] in Hk.
    unfold q. apply Rmult_eq_reg_r with step; [|lra].
    unfold Rdiv at 1. rewrite Rmult_assoc, Rinv_l by lra.
    unfold stop. rewrite Hs0. nra.
  - split; intros Hfield; rewrite Hfirst; unfold offset';
      destruct (Rlt_dec (3 / 10) B0); lra.
Qed.

(** The out-of-plane sweep at 10 GHz with medium accuracy, with the
    quotient as double arithmetic yields it (a little above 97): the plan
    has 98 points. *)
Lemma field_sweep_plan_points_witness :
  exists B : list R,
    FMR.field_sweep_plan_rounded
      (fun _ => binary64.value binary64.quotient_sweep_10GHz)
      (10 * 10 ^ 9) 0 (1 / 100) 2 0 "oop" (1 / 1000) "medium" = Ok B
    /\ length B = 98%nat.
Proof.
  pose proof quotient_sweep_10GHz_value as Hv.
  assert (Hg : 0 < 2 * e / (2 * me) / (2 * PI)).
  { pose proof PI_RGT_0. unfold e, me.
    repeat apply Rdiv_lt_0_compat; lra. }
  set (x := 10 * 10 ^ 9 / (2 * e / (2 * me) / (2 * PI))).
  assert (Hx : 0 < x) by (apply Rdiv_lt_0_compat; [lra | exact Hg]).
  assert (HdB : FMR.delta_B (10 * 10 ^ 9) (1 / 100) 0
                  (2 * e / (2 * me) / (2 * PI)) = x / 100).
  { unfold FMR.delta_B, x.
    field; pose proof PI_RGT_0; unfold e, me; repeat split; lra. }
  assert (HB0 : FMR.kittel_resonance_field_oop (10 * 10 ^ 9) 0
                  (2 * e / (2 * me) / (2 * PI)) = x).
  { unfold FMR.kittel_resonance_field_oop. fold x.
    rewrite Rmult_0_r, Rplus_0_r. apply Rabs_pos_eq. lra. }
  pose proof (field_sweep_plan_points
                (fun _ => binary64.value binary64.quotient_sweep_10GHz)
                (10 * 10 ^ 9) 0 (1 / 100) 2 0 (1 / 1000) (1 / 10 ^ 12)
                "oop" "medium" 8 6 ltac:(lra) (or_intror eq_refl)
                (or_intror (or_introl (conj eq_refl (conj eq_refl eq_refl)))))
    as H.
  cbv zeta beta in H. change ("oop" =? "ip")%string with false in H.
  cbv iota in H. rewrite HdB, HB0 in H.
  assert (Hq : (x + 8 * (x / 100) + x / 100 / 6 - Rmax 0 (x - 8 * (x / 100)))
               / (x / 100 / 6) = 97).
  { rewrite Rmax_right by lra. field. lra. }
  rewrite Hq in H.
  destruct H as (B & HB & _ & _ & Hfull & _).
  - lra.
  - apply Rabs_le. lra.
  - lra.
  - exists B. split; [exact HB|].
    destruct (Hfull ltac:(lra)) as (_ & _ & H98).
    apply H98. lra.
Defined.

(** X8.  [field_sweep] refuses every accuracy other than "low", "medium"
    and "high" with [ValueError], whatever its other arguments are, and so
    it refuses its own default: called without an accuracy it gets "fine".
    With a known accuracy, a mode other than "ip" and "oop" is not
    refused: it leaves the resonance field unassigned, and the sweep fails
    with [UnboundLocalError]. *)
Theorem field_sweep_plan_refuses (f M alpha g deltaB0 offset : R)
  (mode accuracy : string) :
  (accuracy <> "low" -> accuracy <> "medium" -> accuracy <> "high" ->
   FMR.field_sweep_plan f M alpha g deltaB0 mode offset accuracy
   = Raise ValueError)%string
  /\ FMR.field_sweep_plan f M alpha g deltaB0 mode offset "fine"
     = Raise ValueError
  /\ ((accuracy = "low" \/ accuracy = "medium" \/ accuracy = "high") ->
      mode <> "ip" -> mode <> "oop" ->
      FMR.field_sweep_plan f M alpha g deltaB0 mode offset accuracy
      = Raise UnboundLocalError)%string.
Proof.
  split; [|split].
  - intros Hl Hm Hh. unfold FMR.field_sweep_plan.
    apply String.eqb_neq in Hl, Hm, Hh. now rewrite Hl, Hm, Hh.
  - reflexivity.
  - intros Hacc Hip Hoop. unfold FMR.field_sweep_plan.
    apply String.eqb_neq in Hip, Hoop.
    destruct Hacc as [->|[->| ->]]; cbn [String.eqb Ascii.eqb Bool.eqb bind];
      now rewrite Hip, Hoop.
Qed.

Lemma field_sweep_plan_refuses_witness :
  FMR.field_sweep_plan 1 1 1 1 1 "ip" 0 "coarse" = Raise ValueError
  /\ FMR.field_sweep_plan 1 1 1 1 1 "perp" 0 "low" = Raise UnboundLocalError.
Proof.
  destruct (field_sweep_plan_refuses 1 1 1 1 1 0 "ip" "coarse")
    as (Hacc & _ & _).
  destruct (field_sweep_plan_refuses 1 1 1 1 1 0 "perp" "low")
    as (_ & _ & Hmode).
  split.
  - apply Hacc; discriminate.
  - apply Hmode; [left; reflexivity | discriminate | discriminate].
Defined.

(** ** The range of the teslameter *)

Lemma fold_left_Rmax_spec (t : list R) :
  forall v : R,
    (fold_left Rmax t v = v \/ In (fold_left Rmax t v) t)
    /\ v <= fold_left Rmax t v
    /\ (forall b, In b t -> b <= fold_left Rmax t v).
Proof.
  induction t as [|u t IH]; intros v; cbn [fold_left].
  - split; [now left|]. split; [lra | intros b []].
  - destruct (IH (Rmax v u)) as (Hin & Hge & Hall).
    pose proof (Rmax_l v u). pose proof (Rmax_r v u).
    split; [|split].
    + destruct Hin as [Heq|Hin]; [|right; now right].
      rewrite Heq. unfold Rmax. destruct (Rle_dec v u); [right|]; now left.
    + lra.
    + intros b [<-|Hb]; [lra | now apply Hall].
Qed.

Lemma fold_left_Rmin_spec (t : list R) :
  forall v : R,
    (fold_left Rmin t v = v \/ In (fold_left Rmin t v) t)
    /\ fold_left Rmin t v <= v
    /\ (forall b, In b t -> fold_left Rmin t v <= b).
Proof.
  induction t as [|u t IH]; intros v; cbn [fold_left].
  - split; [now left|]. split; [lra | intros b []].
  - destruct (IH (Rmin v u)) as (Hin & Hge & Hall).
    pose proof (Rmin_l v u). pose proof (Rmin_r v u).
    split; [|split].
    + destruct Hin as [Heq|Hin]; [|right; now right].
      rewrite Heq. unfold Rmin. destruct (Rle_dec v u); [|right]; now left.
    + lra.
    + intros b [<-|Hb]; [lra | now apply Hall].
Qed.

(** The builtins [min] and [max] on a sequence that is not empty. *)
Lemma py_min_max_spec (a : list R) :
  a <> [] ->
  exists lo hi : R,
    py_min a = Ok lo /\ py_max a = Ok hi
    /\ In lo a /\ In hi a
    /\ (forall b, In b a -> lo <= b <= hi).
Proof.
  destruct a as [|v t]; [congruence|]. intros _.
  destruct (fold_left_Rmin_spec t v) as (Hlo_in & Hlo_v & Hlo).
  destruct (fold_left_Rmax_spec t v) as (Hhi_in & Hhi_v & Hhi).
  exists (fold_left Rmin t v), (fold_left Rmax t v).
  split; [reflexivity|]. split; [reflexivity|]. split; [|split].
  - destruct Hlo_in as [->|H]; [now left | now right].
  - destruct Hhi_in as [->|H]; [now left | now right].
  - intros b [<-|Hb]; [lra|]. split; [now apply Hlo | now apply Hhi].
Qed.

(** X9.  [teslameter_set_range] and the teslameter agree on the range.
    For every requested field range the class asks the teslameter for the
    smallest of 30 mT, 300 mT and 3 T that holds it (3 T beyond that);
    the teslameter never refuses the request, selects the range code 4, 5
    or 6 whose range is exactly the one asked for, and writes the command
    unless that code is the one it remembers; and the multiplier that the
    class stores for the analog output is a third of that range: 3 V are
    full scale in every range. *)
Theorem teslameter_set_range_agrees (fieldrange : R)
  (measurement_range : option Z) :
  let (range, multiplier) := Field.teslameter_set_range fieldrange in
  exists k : Z,
    MagnetPhysik_FH55.first_range MagnetPhysik_FH55.ranges_dict range = Ok k
    /\ (4 <= k <= 6)%Z
    /\ MagnetPhysik_FH55.get_range k = Some range
    /\ MagnetPhysik_FH55.set_range measurement_range range
       = Ok (if match measurement_range with
                | Some k' => (k =? k')%Z
                | None => false
                end
             then None else Some k)
    /\ range = 3 * multiplier
    /\ (Rabs fieldrange <= 3 -> Rabs fieldrange <= range)
    /\ (forall r, In r [30 / 1000; 300 / 1000; 3] ->
        Rabs fieldrange <= r -> range <= r).
Proof.
  unfold Field.teslameter_set_range.
  assert (Hset : forall (range : R) (k : Z),
             0 <= range <= 3 ->
             MagnetPhysik_FH55.first_range MagnetPhysik_FH55.ranges_dict range
             = Ok k ->
             MagnetPhysik_FH55.set_range measurement_range range
             = Ok (if match measurement_range with
                      | Some k' => (k =? k')%Z
                      | None => false
                      end
                   then None else Some k)).
  { intros range k Hr Hk. unfold MagnetPhysik_FH55.set_range.
    destruct (Rlt_dec 3 range); [lra|].
    destruct (Rlt_dec range 0); [lra|].
    rewrite Hk. cbn [bind].
    destruct measurement_range as [k'|]; [destruct (k =? k')%Z|];
      reflexivity. }
  assert (Hcode : forall (range : R) (k : Z),
             In (k, range) [(4%Z, 30 / 1000); (5%Z, 300 / 1000); (6%Z, 3000 / 1000)] ->
             MagnetPhysik_FH55.first_range MagnetPhysik_FH55.ranges_dict range
             = Ok k
             /\ MagnetPhysik_FH55.get_range k = Some range).
  { intros range k Hin. cbn [In] in Hin.
    unfold MagnetPhysik_FH55.get_range, MagnetPhysik_FH55.ranges_dict.
    cbn [MagnetPhysik_FH55.first_range MagnetPhysik_FH55.lookup].
    destruct Hin as [H|[H|[H|[]]]]; injection H as <- <-;
      cbn [Z.eqb Pos.eqb];
      repeat match goal with
             | |- context [Rle_dec ?a ?b] => destruct (Rle_dec a b); try lra
             end; split; try reflexivity; f_equal; lra. }
  destruct (Rle_dec (Rabs fieldrange) (3 / 100)) as [H1|H1];
    [|destruct (Rle_dec (Rabs fieldrange) (3 / 10)) as [H2|H2]].
  - exists 4%Z. destruct (Hcode (30 / 1000) 4%Z) as [Hk Hget]; [now left|].
    split; [exact Hk|]. split; [lia|]. split; [exact Hget|].
    split; [apply Hset; [lra | exact Hk]|]. split; [lra|]. split; [lra|].
    intros r [<-|[<-|[<-|[]]]] Hr; lra.
  - exists 5%Z.
    destruct (Hcode (300 / 1000) 5%Z) as [Hk Hget]; [right; now left|].
    split; [exact Hk|]. split; [lia|]. split; [exact Hget|].
    split; [apply Hset; [lra | exact Hk]|]. split; [lra|]. split; [lra|].
    intros r [<-|[<-|[<-|[]]]] Hr; lra.
  - exists 6%Z.
    destruct (Hcode (3000 / 1000) 6%Z) as [Hk Hget]; [right; right; now left|].
    split; [exact Hk|]. split; [lia|]. split; [exact Hget|].
    split; [apply Hset; [lra | exact Hk]|]. split; [lra|]. split; [lra|].
    intros r [<-|[<-|[<-|[]]]] Hr; lra.
Qed.

Lemma teslameter_set_range_agrees_witness :
  exists k : Z,
    MagnetPhysik_FH55.set_range (Some 5%Z) (3000 / 1000) = Ok (Some k)
    /\ MagnetPhysik_FH55.get_range k = Some (3000 / 1000).
Proof.
  pose proof (teslameter_set_range_agrees 2 (Some 5%Z)) as H.
  unfold Field.teslameter_set_range in H.
  rewrite (Rabs_right 2) in H by lra.
  destruct (Rle_dec 2 (3 / 100)) as [Hle|_]; [exfalso; lra|].
  destruct (Rle_dec 2 (3 / 10)) as [Hle|_]; [exfalso; lra|].
  destruct H as (k & Hk & _ & Hget & Hset & Hmult & Hholds & _).
  assert (Hk6 : k = 6%Z).
  { unfold MagnetPhysik_FH55.ranges_dict in Hk.
    cbn [MagnetPhysik_FH55.first_range] in Hk.
    repeat match type of Hk with
           | context [Rle_dec ?a ?b] => destruct (Rle_dec a b); try lra
           end.
    now injection Hk. }
  exists k. split; [|exact Hget].
  rewrite Hset, Hk6. reflexivity.
Defined.

(** X10.  The range that [field_sweep] selects for a plan that is not
    empty is 300 mT or 3 T, never 30 mT: [teslameter_set_range] passes it
    on as it is, with the multiplier 0.1 or 1.  It is 3 T exactly when
    some planned field exceeds 0.25 T in absolute value, and so it holds
    every planned field of at most 3 T. *)
Theorem field_sweep_teslameter_range_holds (B : list R) :
  B <> [] ->
  exists r : R,
    FMR.field_sweep_teslameter_range B = Ok r
    /\ Field.teslameter_set_range r = (r, r / 3)
    /\ (r = 3 / 10 \/ r = 3)
    /\ (r = 3 <-> exists b, In b B /\ 1 / 4 < Rabs b)
    /\ (forall b, In b B -> Rabs b <= 3 -> Rabs b <= r).
Proof.
  intros HB.
  destruct (py_min_max_spec B HB) as (lo & hi & Hlo & Hhi & Hlo_in & Hhi_in & Hall).
  unfold FMR.field_sweep_teslameter_range. rewrite Hlo, Hhi. cbn [bind].
  assert (Hcover : forall b, In b B -> Rabs b <= Rmax (Rabs lo) (Rabs hi)).
  { intros b Hb. destruct (Hall b Hb) as [H1 H2].
    pose proof (Rmax_l (Rabs lo) (Rabs hi)).
    pose proof (Rmax_r (Rabs lo) (Rabs hi)).
    pose proof (Rle_abs hi). pose proof (Rle_abs (- lo)) as Hnlo.
    rewrite Rabs_Ropp in Hnlo.
    unfold Rabs at 1. destruct (Rcase_abs b); lra. }
  assert (Hattained : exists b, In b B /\ Rabs b = Rmax (Rabs lo) (Rabs hi)).
  { unfold Rmax. destruct (Rle_dec (Rabs lo) (Rabs hi)); eauto. }
  destruct (Rlt_dec (25 / 100) (Rmax (Rabs lo) (Rabs hi))) as [Hbig|Hsmall].
  - exists (3000 / 1000). split; [reflexivity|].
    unfold Field.teslameter_set_range.
    rewrite (Rabs_right (3000 / 1000)) by lra.
    destruct (Rle_dec (3000 / 1000) (3 / 100)); [lra|].
    destruct (Rle_dec (3000 / 1000) (3 / 10)); [lra|].
    split; [f_equal; lra|]. split; [right; lra|]. split.
    + split; [|lra]. intros _. destruct Hattained as (b & Hb & Heq).
      exists b. split; [exact Hb | lra].
    + intros b _ Hb. lra.
  - exists (300 / 1000). split; [reflexivity|].
    unfold Field.teslameter_set_range.
    rewrite (Rabs_right (300 / 1000)) by lra.
    destruct (Rle_dec (300 / 1000) (3 / 100)); [lra|].
    destruct (Rle_dec (300 / 1000) (3 / 10)); [|lra].
    split; [f_equal; lra|]. split; [left; lra|]. split.
    + split; [lra|]. intros (b & Hb & Hgt). specialize (Hcover b Hb). lra.
    + intros b Hb _. specialize (Hcover b Hb). lra.
Qed.

Lemma field_sweep_teslameter_range_holds_witness :
  exists r : R,
    FMR.field_sweep_teslameter_range [1 / 10; 2 / 10; 3 / 10] = Ok r
    /\ r = 3.
Proof.
  destruct (field_sweep_teslameter_range_holds [1 / 10; 2 / 10; 3 / 10]
              ltac:(discriminate)) as (r & Hr & _ & _ & [_ Hthree] & _).
  exists r. split; [exact Hr|]. apply Hthree.
  exists (3 / 10). split; [right; right; now left|].
  rewrite Rabs_right; lra.
Defined.

(** ** The reading of the teslameter *)

(** X11.  [teslameter_read_field] scales the voltage of the analog output
    and shrinks it by the nonlinearity correction.  The reading is an odd
    function of the voltage; as long as the scaled value is within the
    3 T of the largest range, the correction takes off at most 6.5 % and
    never changes the sign, and a larger voltage gives a larger reading. *)
Theorem teslameter_read_field_correction (v v' multiplier : R) :
  Rabs (v * multiplier) <= 3 ->
  Rabs (v' * multiplier) <= 3 ->
  Field.teslameter_read_field (- v) multiplier
  = - Field.teslameter_read_field v multiplier
  /\ (1 - 65 / 1000) * Rabs (v * multiplier)
     <= Rabs (Field.teslameter_read_field v multiplier)
     <= Rabs (v * multiplier)
  /\ 0 <= Field.teslameter_read_field v multiplier * (v * multiplier)
  /\ (v * multiplier < v' * multiplier ->
      Field.teslameter_read_field v multiplier
      < Field.teslameter_read_field v' multiplier).
Proof.
  intros Hv Hv'. unfold Field.teslameter_read_field, np.abs. cbv zeta.
  set (w := v * multiplier) in *. set (w' := v' * multiplier) in *.
  replace (- v * multiplier) with (- w) by (unfold w; ring).
  rewrite Rabs_Ropp.
  pose proof (Rabs_pos w) as Hw0.
  assert (Hc : 1 - 65 / 1000 <= 1 - 65 / 1000 / 3 * Rabs w <= 1) by lra.
  split; [ring|]. split; [|split].
  - rewrite Rabs_mult, (Rabs_right (1 - _)) by lra. nra.
  - nra.
  - intros Hlt. pose proof (Rabs_pos w') as Hw'0.
    unfold Rabs in *.
    destruct (Rcase_abs w), (Rcase_abs w'); nra.
Qed.

Lemma teslameter_read_field_correction_witness :
  Field.teslameter_read_field 1 (1 / 10)
  < Field.teslameter_read_field 2 (1 / 10).
Proof.
  assert (H1 : Rabs (1 * (1 / 10)) <= 3) by (rewrite Rabs_right; lra).
  assert (H2 : Rabs (2 * (1 / 10)) <= 3) by (rewrite Rabs_right; lra).
  destruct (teslameter_read_field_correction 1 2 (1 / 10) H1 H2)
    as (_ & _ & _ & Hmono).
  apply Hmono. lra.
Defined.

(** ** The power of the signal generator *)

Lemma py_round_near (x : R) : Rabs (IZR (py_round x) - x) <= 1 / 2.
Proof.
  unfold py_round. cbv zeta.
  destruct (base_Int_part x) as [Hlo Hhi].
  destruct (Rlt_dec _ _) as [H1|H1];
    [|destruct (Rlt_dec _ _) as [H2|H2]; [|destruct (Z.even _)]];
    try rewrite plus_IZR; apply Rabs_le; lra.
Qed.

Lemma py_round_IZR (n : Z) : py_round (IZR n) = n.
Proof.
  unfold py_round. cbv zeta.
  assert (Hn : Int_part (IZR n) = n).
  { symmetry. apply Int_part_spec. lra. }
  rewrite Hn. destruct (Rlt_dec _ _); [reflexivity | lra].
Qed.

Lemma py_round_mono (x y : R) : x <= y -> (py_round x <= py_round y)%Z.
Proof.
  intros Hxy.
  destruct (Z_le_gt_dec (py_round x) (py_round y)) as [Hle|Hgt];
    [exact Hle | exfalso].
  assert (H1 : IZR (py_round y) + 1 <= IZR (py_round x)).
  { rewrite <- plus_IZR. apply IZR_le. lia. }
  pose proof (py_round_near x) as Hx. pose proof (py_round_near y) as Hy.
  apply Rabs_bound in Hx, Hy.
  assert (Heq : x = y) by lra.
  subst y. lia.
Qed.

(** The ramp of [signalgenerator_power] before rounding. *)
Lemma signalgenerator_power_ramp (frequency : R) :
  System.signalgenerator_power frequency
  = IZR (py_round (1 + frequency / 10 ^ 9)) / 2.
Proof.
  unfold System.signalgenerator_power. cbv zeta.
  replace ((1 / 2 + (15 - 1 / 2) / (30 * 10 ^ 9 - 1 * 10 ^ 9) * frequency) * 2)
    with (1 + frequency / 10 ^ 9) by field.
  reflexivity.
Qed.

(** X12.  [signalgenerator_power] returns a whole number of half dBm,
    within a quarter of a dBm of its ramp [0.5 + frequency / 2 GHz], and
    never decreases with the frequency.  The ramp is not the line through
    (f0, P0) and (fmax, Pmax) of its constants but lies half a dBm above
    it: the returned power exceeds that line by at least a quarter of a
    dBm at every frequency; at a whole number [n] of GHz it is
    [(n + 1) / 2] dBm, which is 1 dBm, not P0 = 0.5, at f0 = 1 GHz, and
    15.5 dBm, above Pmax = 15, at fmax = 30 GHz. *)
Theorem signalgenerator_power_steps (frequency frequency' : R) (n : Z) :
  let f0 := 1 * 10 ^ 9 in
  let fmax := 30 * 10 ^ 9 in
  let P0 := 1 / 2 in
  let Pmax := 15 in
  let line := fun f => P0 + (Pmax - P0) / (fmax - f0) * (f - f0) in
  (exists k : Z, System.signalgenerator_power frequency = IZR k / 2)
  /\ Rabs (System.signalgenerator_power frequency
           - (1 / 2 + frequency / (2 * 10 ^ 9))) <= 1 / 4
  /\ line frequency + 1 / 4 <= System.signalgenerator_power frequency
  /\ (frequency <= frequency' ->
      System.signalgenerator_power frequency
      <= System.signalgenerator_power frequency')
  /\ System.signalgenerator_power (IZR n * 10 ^ 9) = (IZR n + 1) / 2
  /\ System.signalgenerator_power f0 = 1
  /\ System.signalgenerator_power fmax = Pmax + 1 / 2.
Proof.
  intros f0 fmax P0 Pmax line.
  assert (Hwhole : forall m : Z,
             System.signalgenerator_power (IZR m * 10 ^ 9) = (IZR m + 1) / 2).
  { intros m. rewrite signalgenerator_power_ramp.
    replace (1 + IZR m * 10 ^ 9 / 10 ^ 9) with (IZR (1 + m))
      by (rewrite plus_IZR; field).
    rewrite py_round_IZR, plus_IZR. lra. }
  pose proof (py_round_near (1 + frequency / 10 ^ 9)) as Hnear.
  apply Rabs_bound in Hnear.
  assert (Hramp : 1 + frequency / 10 ^ 9
                  = 2 * (1 / 2 + frequency / (2 * 10 ^ 9))) by field.
  split; [|split; [|split; [|split; [|split; [|split]]]]].
  - eexists. apply signalgenerator_power_ramp.
  - rewrite signalgenerator_power_ramp. apply Rabs_le. lra.
  - rewrite signalgenerator_power_ramp.
    replace (line frequency) with (frequency / (2 * 10 ^ 9))
      by (unfold line, P0, Pmax, fmax, f0; field).
    lra.
  - intros Hle. rewrite !signalgenerator_power_ramp.
    assert (Hmono : (py_round (1 + frequency / 10 ^ 9)
                     <= py_round (1 + frequency' / 10 ^ 9))%Z).
    { apply py_round_mono. unfold Rdiv.
      apply Rplus_le_compat_l, Rmult_le_compat_r; [|exact Hle].
      apply Rlt_le, Rinv_0_lt_compat. lra. }
    apply IZR_le in Hmono. lra.
  - apply Hwhole.
  - unfold f0. rewrite (Hwhole 1%Z). lra.
  - unfold fmax, Pmax. rewrite (Hwhole 30%Z). lra.
Qed.

Lemma signalgenerator_power_steps_witness :
  System.signalgenerator_power (25 / 10 * 10 ^ 9)
  <= System.signalgenerator_power (5 * 10 ^ 9).
Proof.
  destruct (signalgenerator_power_steps (25 / 10 * 10 ^ 9) (5 * 10 ^ 9) 0)
    as (_ & _ & _ & Hmono & _).
  apply Hmono. lra.
Defined.

(** ** The line fit and the curve drawn from it *)

(** X13.  [calculateFittedLine] evaluates, for every profile name, the
    model function that [fit_derivative] hands to the least-squares
    routine for that name, so the curve drawn over a dataset is the model
    that was fitted to it.  A name other than the three known ones is not
    refused by either: it is fitted and drawn as a Voigt profile, with the
    initial guess of the Voigt fit except that its scale lacks the factor
    10 of that fit. *)
Theorem calculateFittedLine_fitted_model (voigt_profile : R -> R -> R -> R)
  (x y : list R) (fitProfile : string) (call : Fit.curve_fit_call) :
  Fit.fit_derivative_call voigt_profile x y fitProfile = Ok call ->
  (forall x' p : list R,
      Fit.calculateFittedLine voigt_profile x' p fitProfile
      = Fit.f call x' p)
  /\ (fitProfile <> "Lorentz" -> fitProfile <> "Asymmetric Lorentz" ->
      fitProfile <> "Voigt" ->
      exists (scale : R) (rest : list R),
        Fit.p0 call = scale :: rest
        /\ Fit.fit_derivative_call voigt_profile x y "Voigt"
           = Ok {| Fit.f := Fit.f call; Fit.xdata := Fit.xdata call;
                   Fit.ydata := Fit.ydata call;
                   Fit.p0 := scale * 10 :: rest;
                   Fit.bounds := Fit.bounds call |})%string.
Proof.
  unfold Fit.fit_derivative_call, Fit.calculateFittedLine. intros H.
  destruct (np.argmax y) as [imax|]; [|discriminate].
  cbn [bind] in *.
  destruct (getitem x imax) as [x_max|]; [|discriminate].
  destruct (np.argmin y) as [imin|]; [|discriminate].
  cbn [bind] in *.
  destruct (getitem x imin) as [x_min|]; [|discriminate].
  cbn [bind] in *.
  destruct (scipy.integrate.cumtrapz _ x) as [integral|]; [|discriminate].
  cbn [bind] in *.
  match type of H with
  | bind ?m _ = _ => destruct m as [[center scale]|]; [|discriminate]
  end.
  cbn [bind] in *.
  destruct (fitProfile =? "Lorentz")%string eqn:HL;
    [|destruct (fitProfile =? "Asymmetric Lorentz")%string eqn:HA];
    try (apply String.eqb_eq in HL; subst fitProfile);
    try (apply String.eqb_eq in HA; subst fitProfile);
    cbn [String.eqb Ascii.eqb Bool.eqb] in H; injection H as <-;
    (split; [reflexivity|]); intros H1 H2 H3; try congruence.
  apply String.eqb_neq in H3. rewrite H3. cbn [Fit.p0].
  eexists _, _. split; reflexivity.
Qed.

Lemma calculateFittedLine_fitted_model_witness :
  exists call : Fit.curve_fit_call,
    Fit.fit_derivative_call (fun _ _ _ => 0) [0; 1; 2] [1; 0; 2] "Gauss"
    = Ok call
    /\ forall x' p : list R,
         Fit.calculateFittedLine (fun _ _ _ => 0) x' p "Gauss"
         = Fit.f call x' p.
Proof.
  destruct (Fit.fit_derivative_call (fun _ _ _ => 0) [0; 1; 2] [1; 0; 2]
              "Gauss") as [call|err] eqn:Hcall.
  - exists call. split; [reflexivity|].
    apply (calculateFittedLine_fitted_model _ _ _ _ _ Hcall).
  - exfalso.
    destruct (fit_derivative_call_guess (fun _ _ _ => 0) [0; 1; 2] [1; 0; 2]
                Spec.Voigt eq_refl ltac:(simpl; lia))
      as (c & jmin & jmax & k & integral & Hc & Hmin & Hmax & Hint & Hk & _).
    unfold Fit.fit_derivative_call in Hcall, Hc.
    rewrite Hmax, Hmin in Hcall, Hc. cbn [bind] in Hcall, Hc.
    destruct (getitem [0; 1; 2] jmax); [|discriminate].
    destruct (getitem [0; 1; 2] jmin); [|discriminate].
    cbn [bind] in Hcall, Hc.
    rewrite Hint in Hcall, Hc. cbn [bind] in Hcall, Hc.
    match type of Hcall with
    | bind ?m _ = _ => destruct m as [[center scale]|]; discriminate
    end.
Defined.

(** ** The initial guess of the out-of-plane Kittel fit *)

Lemma zip_with_map_r {A B C : Type} (h : A -> B -> C) (g : A -> B)
  (l : list A) :
  zip_with h l (map g l) = map (fun a => h a (g a)) l.
Proof. induction l as [|a l IH]; simpl; [reflexivity | now rewrite IH]. Qed.

Lemma mean_constant (c : R) (l : list R) :
  l <> [] -> (forall v, In v l -> v = c) -> np.mean l = c.
Proof.
  intros Hne Hall. unfold np.mean.
  assert (Hsum : sum l = INR (length l) * c).
  { clear Hne. induction l as [|v l IH]; [simpl; unfold sum; simpl; lra|].
    change (sum (v :: l)) with (v + sum l).
    replace (INR (length (v :: l))) with (INR (length l) + 1)
      by (symmetry; apply S_INR).
    rewrite IH by (intros u Hu; apply Hall; now right).
    rewrite (Hall v) by now left.
    ring. }
  rewrite Hsum. field.
  destruct l; [congruence|]. apply not_0_INR. discriminate.
Qed.

(** X14.  The out-of-plane Kittel fit takes its frequencies in GHz and
    its fitted g-factor in units of 10^9 (the caller multiplies it by
    10^9).  On frequencies that follow the out-of-plane relation exactly,
    with the g-factor 2.1 and any magnetization [M0], the initial guess
    that [KittelFit] computes for the magnetization is [M0] itself.  The
    g-factor it puts beside it is 2.1, not 2.1 * 10^-9: the model function
    reproduces the data at [M0; 2.1 * 10^-9], and at the initial guess it
    returns the data times 10^9. *)
Theorem KittelFit_outofplane_guess
  (curve_fit : Fit.curve_fit_call -> result Fit.fit_result)
  (xs : list R) (M0 : R) :
  xs <> [] ->
  let ys := map (fun B => Fit.kittel_fitfunction_outofplane B M0 (21 / 10)
                          / 10 ^ 9) xs in
  exists top : R,
    py_max xs = Ok top
    /\ Fit.KittelFit curve_fit xs ys "out-of-plane"
       = (' (p, pcov) <-
            curve_fit {| Fit.f := Fit.apply2 Fit.kittel_fitfunction_outofplane;
                         Fit.xdata := xs; Fit.ydata := ys;
                         Fit.p0 := [M0; 21 / 10]; Fit.bounds := None |} ;;
          y_fit <- Fit.apply2 Fit.kittel_fitfunction_outofplane
                     (np.linspace 0 top 100) p ;;
          Ok (np.linspace 0 top 100, y_fit, p, pcov))
    /\ Fit.apply2 Fit.kittel_fitfunction_outofplane xs [M0; 21 / 10 / 10 ^ 9]
       = Ok ys
    /\ Fit.apply2 Fit.kittel_fitfunction_outofplane xs [M0; 21 / 10]
       = Ok (map (fun y => y * 10 ^ 9) ys).
Proof.
  intros Hne ys.
  destruct (py_max_nonempty xs Hne) as [top Htop].
  exists top. split; [exact Htop|].
  assert (Hmu : mu0 <> 0) by (unfold mu0; lra).
  split; [|split].
  - unfold Fit.KittelFit. rewrite Htop. cbn [bind].
    cbn [String.eqb Ascii.eqb Bool.eqb].
    rewrite broadcast_same_length by (unfold ys; now rewrite length_map).
    cbn [bind]. unfold ys. rewrite zip_with_map_r.
    rewrite (mean_constant (mu0 * M0)).
    + replace (1 / mu0 * (mu0 * M0)) with M0 by (field; exact Hmu).
      reflexivity.
    + destruct xs; [congruence | discriminate].
    + intros v Hv. apply in_map_iff in Hv. destruct Hv as (B & <- & _).
      unfold Fit.kittel_fitfunction_outofplane, np.pi. cbv zeta.
      field; pose proof PI_RGT_0; unfold e, me, mu0; repeat split; lra.
  - unfold Fit.apply2, ys. f_equal. apply map_ext. intros B.
    unfold Fit.kittel_fitfunction_outofplane, np.pi. cbv zeta.
    field; pose proof PI_RGT_0; unfold e, me, mu0; repeat split; lra.
  - unfold Fit.apply2, ys. f_equal. rewrite map_map. apply map_ext.
    intros B. field.
Qed.

Lemma KittelFit_outofplane_guess_witness :
  Fit.apply2 Fit.kittel_fitfunction_outofplane [1; 2] [5; 21 / 10 / 10 ^ 9]
  = Ok (map (fun B => Fit.kittel_fitfunction_outofplane B 5 (21 / 10)
                      / 10 ^ 9) [1; 2]).
Proof.
  destruct (KittelFit_outofplane_guess (fun _ => Raise ValueError) [1; 2] 5
              ltac:(discriminate)) as (top & _ & _ & Hfit & _).
  exact Hfit.
Defined.

(** ** The frequencies of a measurement *)

(** X15.  For a positive step and [freqmin <= freqmax], [fmr_measurement]
    steps through the frequencies [freqmin + i * freqstep] that lie below
    [freqmax + 1] Hz, and there is at least one.  The extra hertz puts
    [freqmax] itself on the list whenever it is a whole number of steps
    above [freqmin] and the step is more than 1 Hz: the list then ends at
    [freqmax]. *)
Theorem fmr_measurement_frequencies_spec (freqmin freqstep freqmax : R) :
  0 < freqstep -> freqmin <= freqmax ->
  exists n : nat,
    FMR.fmr_measurement_frequencies freqmin freqstep freqmax
    = Ok (map (fun i => freqmin + INR i * freqstep) (seq 0 (S n)))
    /\ freqmin + INR n * freqstep < freqmax + 1
    /\ freqmax + 1 <= freqmin + INR (S n) * freqstep
    /\ (1 < freqstep ->
        forall k : nat, freqmax = freqmin + INR k * freqstep -> n = k).
Proof.
  intros Hstep Hle.
  set (q := (freqmax + 1 - freqmin) / freqstep).
  assert (Hq : q * freqstep = freqmax + 1 - freqmin)
    by (unfold q; field; lra).
  assert (Hq0 : 0 < q) by (unfold q; apply Rdiv_lt_0_compat; lra).
  destruct (ceil_bounds q) as [Hlo Hhi].
  assert (Hc : (1 <= ceil q)%Z).
  { assert (H : (0 < ceil q)%Z) by (apply lt_IZR; lra). lia. }
  exists (Z.to_nat (ceil q - 1)).
  assert (HS : S (Z.to_nat (ceil q - 1)) = Z.to_nat (ceil q)) by lia.
  assert (Hn : INR (Z.to_nat (ceil q - 1)) = IZR (ceil q) - 1).
  { rewrite INR_to_nat by lia. now rewrite minus_IZR. }
  split; [|split; [|split]].
  - unfold FMR.fmr_measurement_frequencies, np.arange.
    destruct (Req_dec_T freqstep 0) as [H0|_]; [lra|].
    fold q. now rewrite HS.
  - rewrite Hn. nra.
  - rewrite S_INR, Hn. nra.
  - intros Hbig k Hk.
    set (n := Z.to_nat (ceil q - 1)) in *.
    assert (H1 : INR n * freqstep < INR k * freqstep + 1) by (rewrite Hn; nra).
    assert (H2 : INR k * freqstep + 1 <= (INR n + 1) * freqstep)
      by (rewrite Hn; nra).
    apply Nat.le_antisymm.
    + apply Nat.lt_succ_r. apply INR_lt. rewrite S_INR.
      apply Rmult_lt_reg_r with freqstep; [exact Hstep|]. lra.
    + apply Nat.lt_succ_r. apply INR_lt. rewrite S_INR.
      apply Rmult_lt_reg_r with freqstep; [exact Hstep|]. lra.
Qed.

(** The default arguments of [fmr_measurement]: twelve frequencies, from
    2.5 GHz to 30 GHz. *)
Lemma fmr_measurement_frequencies_spec_witness :
  FMR.fmr_measurement_frequencies (25 / 10 * 10 ^ 9) (25 / 10 * 10 ^ 9)
    (30 * 10 ^ 9)
  = Ok (map (fun i => 25 / 10 * 10 ^ 9 + INR i * (25 / 10 * 10 ^ 9))
            (seq 0 12)).
Proof.
  destruct (fmr_measurement_frequencies_spec (25 / 10 * 10 ^ 9)
              (25 / 10 * 10 ^ 9) (30 * 10 ^ 9) ltac:(lra) ltac:(lra))
    as (n & Hlist & _ & _ & Hlast).
  rewrite Hlist.
  rewrite (Hlast ltac:(lra) 11%nat).
  - reflexivity.
  - rewrite (INR_IZR_INZ 11). cbn [Z.of_nat Pos.of_succ_nat Pos.succ]. lra.
Defined.

(** ** The multimeter *)

Lemma Reqb_refl (a : R) : Reqb a a = true.
Proof. unfold Reqb. destruct (Req_dec_T a a); congruence. Qed.

Lemma Reqb_eq (a b : R) : Reqb a b = true -> a = b.
Proof. unfold Reqb. destruct (Req_dec_T a b); congruence. Qed.

Lemma option_eqb_string (a : option string) (b : string) :
  Keithley6500.option_eqb String.eqb a b = true -> a = Some b.
Proof.
  destruct a as [a|]; [|discriminate]. cbn. intros H.
  apply String.eqb_eq in H. now subst.
Qed.

Lemma option_eqb_R (a : option R) (b : R) :
  Keithley6500.option_eqb Reqb a b = true -> a = Some b.
Proof.
  destruct a as [a|]; [|discriminate]. cbn. intros H.
  apply Reqb_eq in H. now subst.
Qed.

Lemma option_eqb_Z (a : option Z) (b : Z) :
  Keithley6500.option_eqb Z.eqb a b = true -> a = Some b.
Proof.
  destruct a as [a|]; [|discriminate]. cbn. intros H.
  apply Z.eqb_eq in H. now subst.
Qed.

Lemma get_measurement_rejected (s : Keithley6500.state) (reading : option R)
  (func : string) (expectedValue nplc_ : R) (filterCount_ : Z)
  (filterFunction delay_ autozero : string) :
  accepts func nplc_ filterFunction delay_ = false ->
  Keithley6500.get_measurement s reading func expectedValue nplc_
    filterCount_ filterFunction delay_ autozero = (s, [], None).
Proof.
  unfold accepts, Keithley6500.get_measurement. intros H.
  destruct (Keithley6500.in_list filterFunction _); [|reflexivity].
  destruct (Keithley6500.in_list func _); [|reflexivity].
  cbn [negb andb] in *.
  destruct (negb (py_last 2 func =? "AC")%string && _)%bool; [reflexivity|].
  cbn [negb andb] in H. rewrite H. reflexivity.
Qed.

Lemma get_measurement_accepted (s : Keithley6500.state) (reading : option R)
  (func : string) (expectedValue nplc_ : R) (filterCount_ : Z)
  (filterFunction delay_ autozero : string) :
  accepts func nplc_ filterFunction delay_ = true ->
  exists (s' : Keithley6500.state) (c : list Keithley6500.command)
         (v : option R),
    Keithley6500.get_measurement s reading func expectedValue nplc_
      filterCount_ filterFunction delay_ autozero
    = (s', c, v)
    /\ v = match Keithley6500.nplc s' with
           | Some _ => reading
           | None => None
           end
    /\ In Keithley6500.READ c
    /\ remembers s' func expectedValue nplc_ filterCount_ delay_
    /\ (remembers s func expectedValue nplc_ filterCount_ delay_ ->
        s' = s /\ c = [Keithley6500.READ])
    /\ ((py_last 2 func =? "AC")%string = true ->
        Keithley6500.nplc s'
        = if Keithley6500.option_eqb String.eqb (Keithley6500.function s) func
          then Keithley6500.nplc s else None).
Proof.
  unfold accepts, Keithley6500.get_measurement. intros H.
  apply andb_prop in H. destruct H as [H Hd].
  apply andb_prop in H. destruct H as [H Hn].
  apply andb_prop in H. destruct H as [Hff Hf].
  rewrite Hff, Hf, Hd. apply negb_true_iff in Hn. rewrite Hn.
  cbn [negb]. clear Hff Hf Hd Hn.
  destruct s as [f n fc d r]. unfold remembers.
  cbn [Keithley6500.function Keithley6500.nplc Keithley6500.filterCount
       Keithley6500.delay Keithley6500.rangE].
  destruct (py_last 2 func =? "AC")%string;
    destruct (Keithley6500.option_eqb String.eqb f func) eqn:E1;
    cbn [negb andb Keithley6500.function Keithley6500.nplc
         Keithley6500.filterCount Keithley6500.delay Keithley6500.rangE
         Keithley6500.option_eqb];
    try (destruct (Keithley6500.option_eqb Reqb n nplc_) eqn:E2);
    cbn [negb andb Keithley6500.function Keithley6500.nplc
         Keithley6500.filterCount Keithley6500.delay Keithley6500.rangE
         Keithley6500.option_eqb];
    try (destruct (Keithley6500.option_eqb Z.eqb fc filterCount_) eqn:E3);
    cbn [negb andb Keithley6500.function Keithley6500.nplc
         Keithley6500.filterCount Keithley6500.delay Keithley6500.rangE
         Keithley6500.option_eqb];
    try (destruct (Keithley6500.option_eqb String.eqb d delay_) eqn:E4);
    cbn [negb andb Keithley6500.function Keithley6500.nplc
         Keithley6500.filterCount Keithley6500.delay Keithley6500.rangE
         Keithley6500.option_eqb];
    try (destruct (Keithley6500.option_eqb Reqb r expectedValue) eqn:E5);
    cbn [negb andb Keithley6500.function Keithley6500.nplc
         Keithley6500.filterCount Keithley6500.delay Keithley6500.rangE
         Keithley6500.option_eqb];
    unfold Keithley6500.scan;
    cbn [Keithley6500.nplc];
    try apply option_eqb_string in E1;
    try apply option_eqb_R in E2;
    try apply option_eqb_Z in E3;
    try apply option_eqb_string in E4;
    try apply option_eqb_R in E5;
    subst.
  all: match goal with
       | |- context [match ?n with Some _ => (_, _) | None => _ end] =>
           destruct n
       | _ => idtac
       end.
  all: eexists _, _, _; (split; [reflexivity|]);
    cbn [Keithley6500.function Keithley6500.nplc Keithley6500.filterCount
         Keithley6500.delay Keithley6500.rangE Keithley6500.option_eqb];
    (split; [reflexivity|]).
  all: split; [rewrite ?in_app_iff; cbn [In]; tauto|].
  all: split; [repeat split; try reflexivity; intros; congruence|].
  all: split; [|intros; try reflexivity; try discriminate].
  all: intros (Hf & Hn & Hfc & Hd & Hr);
    try specialize (Hn eq_refl); subst;
    repeat match goal with
           | H : Some _ = Some _ |- _ => injection H as H; subst
           | H : None = Some _ |- _ => discriminate H
           | H : Keithley6500.option_eqb _ None _ = false |- _ => clear H
           end;
    cbn [Keithley6500.option_eqb] in *;
    rewrite ?String.eqb_refl, ?Reqb_refl, ?Z.eqb_refl in *;
    try discriminate.
  all: try (split; reflexivity).
Qed.

(** X16.  [get_measurement] of the multimeter, called twice in a row with
    the same arguments, from any remembered settings.  Either the checks
    refuse the request: then nothing is sent, nothing is remembered and
    [None] is returned; a request other than an AC one with [nplc] outside
    [1e-4, 12] is refused.  Or the request is sent and ends with [:READ?]:
    then the settings are remembered, and the second call sends [:READ?]
    alone and changes nothing.  An AC function never stores [nplc], which
    the read-out needs: as long as no [nplc] is remembered together with
    an AC function, as is the case after [initialize], this stays so, and
    every AC request returns [None]. *)
Theorem get_measurement_settings (s : Keithley6500.state)
  (reading reading' : option R) (func : string) (expectedValue nplc_ : R)
  (filterCount_ : Z) (filterFunction delay_ autozero : string) :
  let '(s1, c1, v1) :=
    Keithley6500.get_measurement s reading func expectedValue nplc_
      filterCount_ filterFunction delay_ autozero in
  let '(s2, c2, v2) :=
    Keithley6500.get_measurement s1 reading' func expectedValue nplc_
      filterCount_ filterFunction delay_ autozero in
  ((c1 = [] /\ s1 = s /\ v1 = None)
   \/ (In Keithley6500.READ c1 /\ s2 = s1 /\ c2 = [Keithley6500.READ]
       /\ Keithley6500.function s1 = Some func
       /\ Keithley6500.filterCount s1 = Some filterCount_
       /\ Keithley6500.delay s1 = Some delay_
       /\ Keithley6500.rangE s1 = Some expectedValue))
  /\ (py_last 2 func <> "AC"%string ->
      nplc_ < 1 / 10 ^ 4 \/ 12 < nplc_ -> c1 = [])
  /\ ((forall f, Keithley6500.function s = Some f ->
                 py_last 2 f = "AC"%string -> Keithley6500.nplc s = None) ->
      (forall f, Keithley6500.function s1 = Some f ->
                 py_last 2 f = "AC"%string -> Keithley6500.nplc s1 = None)
      /\ (py_last 2 func = "AC"%string -> v1 = None)).
Proof.
  destruct (accepts func nplc_ filterFunction delay_) eqn:Hacc.
  - destruct (get_measurement_accepted s reading func expectedValue nplc_
                filterCount_ filterFunction delay_ autozero Hacc)
      as (s1 & c1 & v1 & Heq & Hv & Hin & Hrem & _ & Hac).
    rewrite Heq.
    destruct (get_measurement_accepted s1 reading' func expectedValue nplc_
                filterCount_ filterFunction delay_ autozero Hacc)
      as (s2 & c2 & v2 & Heq2 & _ & _ & _ & Hsame & _).
    rewrite Heq2. destruct (Hsame Hrem) as [-> ->].
    destruct Hrem as (Hf & Hn & Hfc & Hd & Hr).
    split; [right; repeat split; assumption|]. split.
    + intros Hdc Hout. exfalso.
      apply String.eqb_neq in Hdc. unfold accepts in Hacc.
      rewrite Hdc in Hacc. cbn [negb andb] in Hacc.
      unfold Keithley6500.min_nplc, Keithley6500.max_nplc in Hacc.
      destruct (Rlt_dec nplc_ (1 / 10 ^ 4));
        [|destruct (Rlt_dec 12 nplc_); [|lra]];
        cbn [negb andb] in Hacc; rewrite andb_false_r in Hacc;
        discriminate.
    + intros Hinv.
      assert (Hnone : py_last 2 func = "AC"%string ->
                      Keithley6500.nplc s1 = None).
      { intros Hfac. apply String.eqb_eq in Hfac. rewrite (Hac Hfac).
        destruct (Keithley6500.option_eqb String.eqb
                    (Keithley6500.function s) func) eqn:E; [|reflexivity].
        apply option_eqb_string in E. apply (Hinv func E).
        now apply String.eqb_eq. }
      split.
      * intros f Hf' Hfac. rewrite Hf in Hf'. injection Hf' as <-.
        now apply Hnone.
      * intros Hfac. rewrite Hv, (Hnone Hfac). reflexivity.
  - rewrite (get_measurement_rejected s reading _ _ _ _ _ _ _ Hacc).
    rewrite (get_measurement_rejected s reading' _ _ _ _ _ _ _ Hacc).
    split; [left; repeat split; reflexivity|]. split; [reflexivity|].
    intros Hinv. split; [exact Hinv | reflexivity].
Qed.

(** An AC voltage asked of a multimeter that has just been initialised
    comes back as [None]. *)
Lemma get_measurement_settings_witness :
  snd (Keithley6500.get_measurement
         {| Keithley6500.function := None; Keithley6500.nplc := None;
            Keithley6500.filterCount := None; Keithley6500.delay := None;
            Keithley6500.rangE := None |}
         (Some 1) "VOLT:AC" 10 1 4 "REP" "ON" "ON")
  = None.
Proof.
  pose proof (get_measurement_settings
                {| Keithley6500.function := None; Keithley6500.nplc := None;
                   Keithley6500.filterCount := None;
                   Keithley6500.delay := None;
                   Keithley6500.rangE := None |}
                (Some 1) (Some 1) "VOLT:AC" 10 1 4 "REP" "ON" "ON") as H.
  destruct (Keithley6500.get_measurement _ (Some 1) "VOLT:AC" 10 1 4 "REP"
              "ON" "ON") as [[s1 c1] v1].
  destruct (Keithley6500.get_measurement s1 _ _ _ _ _ _ _ _)
    as [[s2 c2] v2].
  destruct H as (_ & _ & Hinv).
  destruct Hinv as [_ Hnone]; [intros f Hf; discriminate|].
  exact (Hnone eq_refl).
Defined.

(** ** The lock-in amplifier *)

(** X17.  [setOutputVoltage] for a known unit, a demodulator 0..3 and a
    differential setting 0 or 1, with the positive tolerance factor of its
    default.  An amplitude above the limit (10 V peak, 20 V with the
    differential output; a voltage in Vrms counts [sqrt 2] times) is
    refused before anything is written.  Only the upper limit is checked:
    a negative voltage of any size is written to the instrument, and the
    call then fails whatever the instrument reports, because the tolerance
    is the factor times the (negative) amplitude.  A voltage of 0 disables
    the output and is accepted only if the instrument reports exactly 0.
    A positive amplitude within the limit is written with the output
    enabled, and accepted when the instrument reports it within the
    tolerance. *)
Theorem setOutputVoltage_outcomes (diff : Z) (setamplitude voltage : R)
  (demod : Z) (unit_ : string) (voltage_epsilon_factor : R) :
  MFLI.in_0_3 demod = true ->
  (unit_ = "Vrms" \/ unit_ = "Vpk")%string ->
  (diff = 0 \/ diff = 1)%Z ->
  0 < voltage_epsilon_factor ->
  let amplitude :=
    if (unit_ =? "Vrms")%string then voltage * sqrt 2 else voltage in
  let limit := if (diff =? 0)%Z then 10 else 20 in
  let outcome :=
    MFLI.setOutputVoltage diff setamplitude voltage demod unit_
      voltage_epsilon_factor in
  let writes := fun enable =>
    [(MFLI.sigouts_enables demod, enable);
     (MFLI.sigouts_amplitudes demod, amplitude)] in
  (limit < amplitude -> outcome = ([], Raise ValueError))
  /\ (voltage < 0 -> outcome = (writes 1, Raise ValueError))
  /\ (voltage = 0 ->
      outcome = (writes 0,
                 if Req_dec_T setamplitude 0 then Ok tt
                 else Raise ValueError))
  /\ (0 < voltage -> amplitude <= limit ->
      Rabs (amplitude - setamplitude) <= voltage_epsilon_factor * amplitude ->
      outcome = (writes 1, Ok tt)).
Proof.
  intros Hdemod Hunit Hdiff Heps amplitude limit outcome writes.
  pose proof (sqrt_lt_R0 2 ltac:(lra)) as Hsqrt.
  assert (Hsign : (voltage < 0 -> amplitude < 0)
                  /\ (voltage = 0 -> amplitude = 0)
                  /\ (0 < voltage -> 0 < amplitude)).
  { unfold amplitude. destruct (unit_ =? "Vrms")%string; repeat split;
      intros; subst; nra. }
  destruct Hsign as (Hneg & Hzero & Hpos).
  assert (Hlimit : 10 <= limit)
    by (unfold limit; destruct (diff =? 0)%Z; lra).
  assert (Hout : outcome
                 = if Rlt_dec limit amplitude then ([], Raise ValueError)
                   else if Rlt_dec (voltage_epsilon_factor * amplitude)
                                   (Rabs (amplitude - setamplitude))
                        then (writes (if Req_dec_T voltage 0 then 0 else 1),
                              Raise ValueError)
                        else (writes (if Req_dec_T voltage 0 then 0 else 1),
                              Ok tt)).
  { unfold outcome, MFLI.setOutputVoltage. rewrite Hdemod.
    fold amplitude.
    assert (Hu : ((unit_ =? "Vrms") || (unit_ =? "Vpk"))%string = true)
      by (destruct Hunit as [->| ->]; reflexivity).
    rewrite Hu. cbn [negb]. unfold limit.
    destruct Hdiff as [->| ->]; reflexivity. }
  rewrite Hout. clear Hout.
  pose proof (Rabs_pos (amplitude - setamplitude)) as Habs.
  split; [|split; [|split]].
  - intros H. destruct (Rlt_dec limit amplitude); [reflexivity | lra].
  - intros H. specialize (Hneg H).
    destruct (Rlt_dec limit amplitude); [lra|].
    destruct (Rlt_dec _ _) as [_|Hn]; [|exfalso; apply Hn; nra].
    destruct (Req_dec_T voltage 0); [lra | reflexivity].
  - intros H. specialize (Hzero H). rewrite Hzero in *.
    destruct (Rlt_dec limit 0); [lra|].
    destruct (Req_dec_T voltage 0); [|contradiction].
    rewrite Rmult_0_r, Rminus_0_l, Rabs_Ropp.
    destruct (Req_dec_T setamplitude 0) as [->|Hne].
    + rewrite Rabs_R0. destruct (Rlt_dec 0 0); [lra | reflexivity].
    + apply Rabs_pos_lt in Hne.
      destruct (Rlt_dec 0 (Rabs setamplitude)); [reflexivity | lra].
  - intros H Hle Hclose.
    destruct (Rlt_dec limit amplitude); [lra|].
    destruct (Rlt_dec _ _); [lra|].
    destruct (Req_dec_T voltage 0); [lra | reflexivity].
Qed.

Lemma setOutputVoltage_outcomes_witness :
  MFLI.setOutputVoltage 0 0 (- 100) 0 "Vpk" (1 / 1000)
  = ([(MFLI.sigouts_enables 0, 1); (MFLI.sigouts_amplitudes 0, - 100)],
     Raise ValueError).
Proof.
  destruct (setOutputVoltage_outcomes 0 0 (- 100) 0 "Vpk" (1 / 1000)
              eq_refl (or_intror eq_refl) (or_introl eq_refl) ltac:(lra))
    as (_ & Hneg & _).
  apply Hneg. lra.
Defined.

Lemma py_mod_range (x m : R) :
  0 < m -> 0 <= py_mod x m < m /\ x = py_mod x m + m * IZR (Int_part (x / m)).
Proof.
  intros Hm. unfold py_mod.
  destruct (base_Int_part (x / m)) as [Hlo Hhi].
  assert (Hx : x = x / m * m) by (field; lra).
  split; [|ring]. split; nra.
Qed.

(** X18.  The phase that [setDemod] writes lies in (-180, 180] and
    differs from the phase asked for by a whole number of turns; a phase
    that is already in that interval is written as it is.  With a
    demodulator and an oscillator in 0..3 and a harmonic that is a whole
    number of at least 1, [setDemod] writes the oscillator, that phase
    and the harmonic, and succeeds when the instrument reports what was
    written. *)
Theorem setDemod_phase_range (demod osc h : Z) (phase phase_epsilon : R) :
  MFLI.in_0_3 demod = true -> MFLI.in_0_3 osc = true -> (1 <= h)%Z ->
  0 <= phase_epsilon ->
  let p := MFLI.setDemod_phase phase in
  - 180 < p <= 180
  /\ (exists k : Z, phase = p + 360 * IZR k)
  /\ (- 180 < phase <= 180 -> p = phase)
  /\ MFLI.setDemod osc p (IZR h) demod phase (IZR h) osc phase_epsilon
     = ([(MFLI.demods_oscselect demod, IZR osc);
         (MFLI.demods_phaseshift demod, p);
         (MFLI.demods_harmonic demod, IZR h)], Ok tt).
Proof.
  intros Hdemod Hosc Hh Heps p.
  destruct (py_mod_range phase 360 ltac:(lra)) as [Hr Hturns].
  set (q := Int_part (phase / 360)) in *.
  assert (Hp : p = if Rlt_dec 180 (py_mod phase 360)
                   then py_mod phase 360 - 360 else py_mod phase 360)
    by reflexivity.
  split; [|split; [|split]].
  - rewrite Hp. destruct (Rlt_dec _ _); lra.
  - rewrite Hp. destruct (Rlt_dec _ _).
    + exists (q + 1)%Z. rewrite plus_IZR. lra.
    + exists q. lra.
  - intros Hin.
    assert (Hq : (q = 0 \/ q = -1)%Z).
    { assert (H1 : (-2 < q)%Z) by (apply lt_IZR; lra).
      assert (H2 : (q < 1)%Z) by (apply lt_IZR; lra). lia. }
    rewrite Hp. destruct Hq as [Hq|Hq]; rewrite Hq in Hturns;
      destruct (Rlt_dec _ _); lra.
  - unfold MFLI.setDemod. rewrite Hdemod, Hosc. cbn [negb]. fold p.
    destruct (Rlt_dec (IZR h) 1) as [Hlt|_].
    { exfalso. apply IZR_le in Hh. lra. }
    rewrite py_int_IZR. unfold Reqb.
    destruct (Req_dec_T (IZR h) (IZR h)); [|contradiction]. cbn [negb].
    rewrite Rminus_diag, Rabs_R0.
    destruct (Rlt_dec phase_epsilon 0); [lra|].
    rewrite Z.eqb_refl. reflexivity.
Qed.

Lemma setDemod_phase_range_witness :
  MFLI.setDemod_phase 270 = - 90.
Proof.
  destruct (setDemod_phase_range 0 0 1 270 (1 / 1000) eq_refl eq_refl
              ltac:(lia) ltac:(lra)) as (Hrange & (k & Hk) & _).
  assert (Hk' : (k = 1)%Z).
  { assert (H1 : (0 < k)%Z) by (apply lt_IZR; lra).
    assert (H2 : (k < 2)%Z) by (apply lt_IZR; lra). lia. }
  rewrite Hk' in Hk. lra.
Defined.

(** ** The signal generator *)

(** X19.  [set_frequency] sends whole MHz, cut off and not rounded: for a
    frequency that is not negative the generator gets the largest whole
    number of MHz that is not above it, so it is set less than 1 MHz too
    low, and exactly for a whole number of MHz.  The frequencies of a
    measurement whose lowest frequency and step are whole numbers of MHz
    are all set exactly. *)
Theorem set_frequency_truncates (freq : R) (a b : Z) :
  0 <= freq ->
  let m := SG30000PRO.set_frequency freq in
  IZR m * 10 ^ 6 <= freq < (IZR m + 1) * 10 ^ 6
  /\ SG30000PRO.set_frequency (IZR a * 10 ^ 6) = a
  /\ forall (freqmax : R) (frequencies : list R),
       FMR.fmr_measurement_frequencies (IZR a * 10 ^ 6) (IZR b * 10 ^ 6)
         freqmax = Ok frequencies ->
       forall f, In f frequencies ->
                 IZR (SG30000PRO.set_frequency f) * 10 ^ 6 = f.
Proof.
  intros Hf m.
  assert (Hwhole : forall k : Z, SG30000PRO.set_frequency (IZR k * 10 ^ 6) = k).
  { intros k. unfold SG30000PRO.set_frequency.
    replace (IZR k * 10 ^ 6 * (1 / 10 ^ 6)) with (IZR k) by (field; lra).
    apply py_int_IZR. }
  split; [|split].
  - unfold m, SG30000PRO.set_frequency, py_int.
    assert (Hq : 0 <= freq * (1 / 10 ^ 6)) by nra.
    destruct (Rle_dec 0 (freq * (1 / 10 ^ 6))); [|contradiction].
    destruct (base_Int_part (freq * (1 / 10 ^ 6))) as [Hlo Hhi]. lra.
  - apply Hwhole.
  - intros freqmax frequencies Hlist f Hin.
    unfold FMR.fmr_measurement_frequencies, np.arange in Hlist.
    destruct (Req_dec_T (IZR b * 10 ^ 6) 0); [discriminate|].
    assert (Hgrid : forall i : nat,
               IZR a * 10 ^ 6 + INR i * (IZR b * 10 ^ 6)
               = IZR (a + Z.of_nat i * b) * 10 ^ 6).
    { intros i. rewrite plus_IZR, mult_IZR, <- INR_IZR_INZ. ring. }
    rewrite (map_ext _ _ Hgrid) in Hlist.
    assert (Hl : frequencies
                 = map (fun i => IZR (a + Z.of_nat i * b) * 10 ^ 6)
                       (seq 0 (Z.to_nat (ceil ((freqmax + 1 - IZR a * 10 ^ 6)
                                               / (IZR b * 10 ^ 6))))))
      by congruence.
    rewrite Hl in Hin. apply in_map_iff in Hin.
    destruct Hin as (i & <- & _).
    now rewrite Hwhole.
Qed.

Lemma set_frequency_truncates_witness :
  SG30000PRO.set_frequency (2500 * 10 ^ 6) = 2500%Z.
Proof.
  destruct (set_frequency_truncates (2500 * 10 ^ 6) 2500 2500 ltac:(lra))
    as (_ & Hwhole & _).
  exact Hwhole.
Defined.

(** ** The magnet power supply *)

Lemma sends_only_refl (allowed : CaenelsFastPS.command -> Prop)
  (s : CaenelsFastPS.state) : sends_only allowed s s.
Proof.
  repeat split. exists []. split; [now rewrite app_nil_r | constructor].
Qed.

Lemma sends_only_trans (allowed : CaenelsFastPS.command -> Prop)
  (s1 s2 s3 : CaenelsFastPS.state) :
  sends_only allowed s1 s2 -> sends_only allowed s2 s3 ->
  sends_only allowed s1 s3.
Proof.
  intros (Ha & Hb & Hc & n1 & Hs1 & Hn1) (Ha' & Hb' & Hc' & n2 & Hs2 & Hn2).
  repeat split; try congruence.
  exists (n1 ++ n2). split.
  - rewrite Hs2, Hs1. now rewrite app_assoc.
  - apply Forall_app. now split.
Qed.

Lemma sends_only_weaken (allowed allowed' : CaenelsFastPS.command -> Prop)
  (s s' : CaenelsFastPS.state) :
  (forall c, allowed c -> allowed' c) ->
  sends_only allowed s s' -> sends_only allowed' s s'.
Proof.
  intros Hsub (Ha & Hb & Hc & new & Hs & Hn).
  repeat split; try assumption.
  exists new. split; [exact Hs|]. eapply Forall_impl; eassumption.
Qed.

Lemma sends_only_query (allowed : CaenelsFastPS.command -> Prop)
  (cmd : CaenelsFastPS.command) (s : CaenelsFastPS.state) :
  allowed cmd ->
  sends_only allowed s (fst (CaenelsFastPS.query cmd s))
  /\ CaenelsFastPS.slewRateCurrent (fst (CaenelsFastPS.query cmd s))
     = CaenelsFastPS.slewRateCurrent s.
Proof.
  intros Hcmd. unfold CaenelsFastPS.query.
  destruct (CaenelsFastPS.replies s); cbn; (split; [|reflexivity]);
    repeat split; exists [cmd]; (split; [reflexivity|]);
    now repeat constructor.
Qed.

Lemma quiet_refl (s : CaenelsFastPS.state) : quiet s s.
Proof. split; [apply sends_only_refl | reflexivity]. Qed.

Lemma quiet_trans (s1 s2 s3 : CaenelsFastPS.state) :
  quiet s1 s2 -> quiet s2 s3 -> quiet s1 s3.
Proof.
  intros [H1 E1] [H2 E2]. split; [|congruence].
  now apply (sends_only_trans _ s1 s2 s3).
Qed.

Lemma quiet_set_outputOff (s : CaenelsFastPS.state) :
  quiet s (CaenelsFastPS.set_outputOff s).
Proof.
  unfold CaenelsFastPS.set_outputOff.
  pose proof (sends_only_query switching CaenelsFastPS.MOFF s
                ltac:(now left)) as Hq.
  destruct (CaenelsFastPS.query CaenelsFastPS.MOFF s) as [s1 ret].
  cbn [fst] in Hq.
  assert (H : quiet s (if CaenelsFastPS.NAK ret then s1
                       else if CaenelsFastPS.AK ret
                            then CaenelsFastPS.with_output_state 0 s1
                            else s1)).
  { destruct (CaenelsFastPS.NAK ret); [exact Hq|].
    destruct (CaenelsFastPS.AK ret); exact Hq. }
  destruct (CaenelsFastPS.output_state s) as [[|[]|]|];
    try exact H; apply quiet_refl.
Qed.

Lemma quiet_set_outputOn (s : CaenelsFastPS.state) :
  quiet s (CaenelsFastPS.set_outputOn s).
Proof.
  unfold CaenelsFastPS.set_outputOn.
  pose proof (sends_only_query switching CaenelsFastPS.MON s
                ltac:(right; now left)) as Hq.
  destruct (CaenelsFastPS.query CaenelsFastPS.MON s) as [s1 ret].
  cbn [fst] in Hq.
  assert (H : quiet s (if CaenelsFastPS.NAK ret then s1
                       else if CaenelsFastPS.AK ret
                            then CaenelsFastPS.with_output_state 1 s1
                            else s1)).
  { destruct (CaenelsFastPS.NAK ret); [exact Hq|].
    destruct (CaenelsFastPS.AK ret); exact Hq. }
  destruct (CaenelsFastPS.output_state s) as [[|[]|]|];
    try exact H; apply quiet_refl.
Qed.

Lemma quiet_set_ccMode (s : CaenelsFastPS.state) :
  quiet s (CaenelsFastPS.set_ccMode s).
Proof.
  unfold CaenelsFastPS.set_ccMode.
  destruct (CaenelsFastPS.mode s =? "I")%string; [apply quiet_refl|].
  pose proof (quiet_set_outputOff s) as Hoff.
  set (s0 := CaenelsFastPS.set_outputOff s) in *.
  pose proof (sends_only_query switching CaenelsFastPS.LOOP_I s0
                ltac:(right; now right)) as Hq.
  destruct (CaenelsFastPS.query CaenelsFastPS.LOOP_I s0) as [s1 ret].
  cbn [fst] in Hq. apply (quiet_trans _ _ _ Hoff).
  destruct (CaenelsFastPS.NAK ret); [exact Hq|].
  destruct (CaenelsFastPS.AK ret); exact Hq.
Qed.

Lemma switching_no_ramp (c : CaenelsFastPS.command) : switching c -> no_ramp c.
Proof. intros [->|[->| ->]] current; discriminate. Qed.

(** [set_currentSlewRate] sends no ramp command, and with a rate above
    the maximum it sends no rate and keeps the remembered one. *)
Lemma set_currentSlewRate_sends (ampPerSec : R) (s : CaenelsFastPS.state) :
  sends_only no_ramp s (CaenelsFastPS.set_currentSlewRate ampPerSec s)
  /\ (CaenelsFastPS.max_slewRateCurrent s < Rabs ampPerSec ->
      quiet s (CaenelsFastPS.set_currentSlewRate ampPerSec s)).
Proof.
  unfold CaenelsFastPS.set_currentSlewRate. cbv zeta.
  pose proof (quiet_set_ccMode s) as Hcc.
  set (s0 := CaenelsFastPS.set_ccMode s) in *.
  assert (Hcc' : sends_only no_ramp s s0).
  { apply (sends_only_weaken switching); [apply switching_no_ramp|].
    apply Hcc. }
  assert (Hmax : CaenelsFastPS.max_slewRateCurrent s0
                 = CaenelsFastPS.max_slewRateCurrent s) by apply Hcc.
  rewrite Hmax.
  destruct (Rlt_dec _ _) as [Hbig|Hok]; [split; [exact Hcc' | now intros _]|].
  split; [|intros; lra].
  pose proof (sends_only_query no_ramp (CaenelsFastPS.MSRI (Rabs ampPerSec))
                s0 ltac:(intros c; discriminate)) as [Hq _].
  destruct (CaenelsFastPS.query _ s0) as [s1 ret].
  cbn [fst] in Hq.
  assert (H : sends_only no_ramp s
                (if CaenelsFastPS.NAK ret then s1
                 else if CaenelsFastPS.AK ret
                      then CaenelsFastPS.with_slewRateCurrent
                             (Rabs ampPerSec) s1
                      else s1)).
  { apply (sends_only_trans _ _ _ _ Hcc').
    destruct (CaenelsFastPS.NAK ret); [exact Hq|].
    destruct (CaenelsFastPS.AK ret); exact Hq. }
  destruct (CaenelsFastPS.slewRateCurrent s0) as [v|]; [|exact H].
  destruct (Reqb v (Rabs ampPerSec)); [exact Hcc' | exact H].
Qed.

(** X20.  [set_rampToCurrent] never commands a current beyond the limit
    of the power supply.  A current beyond [max_current] in absolute
    value changes nothing and sends nothing.  Otherwise the commands that
    the call sends contain one ramp command, the last of them and for the
    current asked for, whatever the power supply replies on the way and
    whatever becomes of the slew rate: a slew rate above its maximum is
    not sent and the remembered one is kept, but the ramp is commanded
    all the same.  The limits are never changed, the remembered current
    is the old one or the new one, so it stays within the limit if it was,
    and with a slew rate of zero it is never updated, acknowledged or
    not. *)
Theorem set_rampToCurrent_within_limit (current slewRateAmpPerSec : R)
  (s : CaenelsFastPS.state) :
  let s' := CaenelsFastPS.set_rampToCurrent current slewRateAmpPerSec s in
  CaenelsFastPS.max_current s' = CaenelsFastPS.max_current s
  /\ (CaenelsFastPS.max_current s < Rabs current -> s' = s)
  /\ (exists new : list CaenelsFastPS.command,
        CaenelsFastPS.sent s' = CaenelsFastPS.sent s ++ new
        /\ (forall c, In (CaenelsFastPS.MWIR c) new ->
                      c = current /\ Rabs c <= CaenelsFastPS.max_current s)
        /\ (Rabs current <= CaenelsFastPS.max_current s ->
            last new CaenelsFastPS.MOFF = CaenelsFastPS.MWIR current)
        /\ (CaenelsFastPS.max_slewRateCurrent s < Rabs slewRateAmpPerSec ->
            (forall a, ~ In (CaenelsFastPS.MSRI a) new)
            /\ CaenelsFastPS.slewRateCurrent s'
               = CaenelsFastPS.slewRateCurrent s))
  /\ (CaenelsFastPS.actual_current s' = CaenelsFastPS.actual_current s
      \/ CaenelsFastPS.actual_current s' = current)
  /\ (Rabs (CaenelsFastPS.actual_current s) <= CaenelsFastPS.max_current s ->
      Rabs (CaenelsFastPS.actual_current s') <= CaenelsFastPS.max_current s')
  /\ (slewRateAmpPerSec = 0 ->
      CaenelsFastPS.actual_current s' = CaenelsFastPS.actual_current s).
Proof.
  intros s'. unfold s', CaenelsFastPS.set_rampToCurrent.
  destruct (Rlt_dec (CaenelsFastPS.max_current s) (Rabs current)) as [Hbig|Hok].
  { split; [reflexivity|]. split; [reflexivity|]. split.
    - exists []. rewrite app_nil_r. split; [reflexivity|].
      split; [intros c []|]. split; [lra|].
      intros _. split; [intros a [] | reflexivity].
    - split; [now left|]. split; [tauto | reflexivity]. }
  pose proof (quiet_set_ccMode s) as H1.
  set (s1 := CaenelsFastPS.set_ccMode s) in *.
  pose proof (quiet_set_outputOn s1) as H2.
  set (s2 := CaenelsFastPS.set_outputOn s1) in *.
  pose proof (quiet_trans _ _ _ H1 H2) as H12.
  pose proof (set_currentSlewRate_sends slewRateAmpPerSec s2) as [H3 H3q].
  set (s3 := CaenelsFastPS.set_currentSlewRate slewRateAmpPerSec s2) in *.
  assert (Hms : CaenelsFastPS.max_slewRateCurrent s2
                = CaenelsFastPS.max_slewRateCurrent s) by apply H12.
  rewrite Hms in H3q.
  assert (Hquiet : CaenelsFastPS.max_slewRateCurrent s < Rabs slewRateAmpPerSec ->
                   quiet s s3).
  { intros Hr. apply (quiet_trans _ _ _ H12). now apply H3q. }
  assert (H123 : sends_only no_ramp s s3).
  { apply (sends_only_trans _ _ _ _
             (sends_only_weaken _ _ _ _ switching_no_ramp (proj1 H12)) H3). }
  destruct H123 as (Hmax & _ & Hact & new & Hsent & Hnew).
  clearbody s1 s2 s3. clear H1 H2 H12 H3 H3q Hms.
  assert (Hq : exists s4 ret,
             CaenelsFastPS.query (CaenelsFastPS.MWIR current) s3 = (s4, ret)
             /\ CaenelsFastPS.max_current s4 = CaenelsFastPS.max_current s
             /\ CaenelsFastPS.actual_current s4 = CaenelsFastPS.actual_current s
             /\ CaenelsFastPS.slewRateCurrent s4
                = CaenelsFastPS.slewRateCurrent s3
             /\ CaenelsFastPS.sent s4
                = CaenelsFastPS.sent s ++ new ++ [CaenelsFastPS.MWIR current]).
  { unfold CaenelsFastPS.query.
    destruct (CaenelsFastPS.replies s3); eexists _, _;
      (split; [reflexivity|]); cbn; rewrite Hsent, <- app_assoc; auto. }
  destruct Hq as (s4 & ret & -> & Hmax4 & Hact4 & Hrate4 & Hsent4).
  set (s5 := if CaenelsFastPS.NAK ret then s4 else _).
  assert (H5 : CaenelsFastPS.max_current s5 = CaenelsFastPS.max_current s
               /\ CaenelsFastPS.sent s5 = CaenelsFastPS.sent s4
               /\ CaenelsFastPS.slewRateCurrent s5
                  = CaenelsFastPS.slewRateCurrent s4
               /\ (CaenelsFastPS.actual_current s5
                   = CaenelsFastPS.actual_current s
                   \/ (CaenelsFastPS.actual_current s5 = current
                       /\ slewRateAmpPerSec <> 0))).
  { unfold s5.
    destruct (CaenelsFastPS.NAK ret); [auto 10|].
    destruct (CaenelsFastPS.AK ret); [|auto 10].
    destruct (Req_dec_T slewRateAmpPerSec 0); [auto 10|].
    destruct (Rlt_dec _ _); [auto 10|]. cbn. auto 10. }
  clearbody s5. destruct H5 as (Hmax5 & Hsent5 & Hrate5 & Hact5).
  assert (Hle : Rabs current <= CaenelsFastPS.max_current s) by lra.
  split; [exact Hmax5|]. split; [intros; lra|]. split; [|split; [|split]].
  - exists (new ++ [CaenelsFastPS.MWIR current]).
    split; [now rewrite Hsent5, Hsent4|]. split; [|split].
    + intros c Hin. apply in_app_or in Hin. destruct Hin as [Hin|[Heq|[]]].
      * exfalso. rewrite Forall_forall in Hnew.
        exact (Hnew _ Hin c eq_refl).
      * injection Heq as <-. split; [reflexivity | exact Hle].
    + intros _. apply last_last.
    + intros Hr. destruct (Hquiet Hr) as [(_ & _ & _ & new' & Hs' & Hn') Hrate].
      rewrite Hsent in Hs'. apply app_inv_head in Hs'. subst new'.
      split; [|congruence].
      intros a Hin. apply in_app_or in Hin. destruct Hin as [Hin|[Heq|[]]].
      * rewrite Forall_forall in Hn'.
        destruct (Hn' _ Hin) as [H|[H|H]]; discriminate.
      * discriminate.
  - destruct Hact5 as [H|[H _]]; [now left | now right].
  - intros Hinv. rewrite Hmax5.
    destruct Hact5 as [->|[-> _]]; assumption.
  - intros H0. destruct Hact5 as [H|[_ H]]; [exact H | contradiction].
Qed.

Lemma set_rampToCurrent_within_limit_witness :
  CaenelsFastPS.set_rampToCurrent 31 1
    {| CaenelsFastPS.mode := "I"; CaenelsFastPS.output_state := Some 1%Z;
       CaenelsFastPS.slewRateCurrent := Some 1;
       CaenelsFastPS.actual_current := 0; CaenelsFastPS.max_current := 30;
       CaenelsFastPS.max_slewRateCurrent := 200;
       CaenelsFastPS.replies := []; CaenelsFastPS.sent := [] |}
  = {| CaenelsFastPS.mode := "I"; CaenelsFastPS.output_state := Some 1%Z;
       CaenelsFastPS.slewRateCurrent := Some 1;
       CaenelsFastPS.actual_current := 0; CaenelsFastPS.max_current := 30;
       CaenelsFastPS.max_slewRateCurrent := 200;
       CaenelsFastPS.replies := []; CaenelsFastPS.sent := [] |}.
Proof.
  apply (set_rampToCurrent_within_limit 31 1). cbn.
  rewrite Rabs_right; lra.
Defined.

(** ** Data files and the progress line *)

Lemma split_ws_inside (s : string) :
  snd (split_ws s) = true -> fst (split_ws s) <> [].
Proof.
  destruct s as [|c s]; cbn [split_ws]; [discriminate|].
  destruct (split_ws s) as [tokens inside].
  destruct (is_space c); [discriminate|].
  destruct inside; [destruct tokens|]; discriminate.
Qed.

(** White space between two texts keeps their tokens apart. *)
Lemma split_ws_app (c : ascii) (a b : string) :
  is_space c = true ->
  split_ws (a ++ String c b)
  = (fst (split_ws a) ++ fst (split_ws b), snd (split_ws a)).
Proof.
  intros Hc. induction a as [|d a IH].
  - cbn [append split_ws]. rewrite Hc.
    destruct (split_ws b) as [tokens inside]. reflexivity.
  - cbn [append split_ws]. rewrite IH.
    pose proof (split_ws_inside a) as Hin.
    destruct (split_ws a) as [tokens inside]. cbn [fst snd] in *.
    destruct (is_space d); [reflexivity|].
    destruct inside; [|reflexivity].
    destruct tokens as [|t tokens]; [now specialize (Hin eq_refl)|].
    reflexivity.
Qed.

Lemma py_split_app (c : ascii) (a b : string) :
  is_space c = true ->
  py_split (a ++ String c b) = py_split a ++ py_split b.
Proof. intros Hc. unfold py_split. now rewrite split_ws_app. Qed.

Lemma split_on_nonempty (sep : ascii) (s : string) : split_on sep s <> [].
Proof.
  destruct s as [|c s]; cbn [split_on]; [discriminate|].
  destruct (c =? sep)%char; [discriminate|].
  destruct (split_on sep s); discriminate.
Qed.

(** A text without the separator, then the separator. *)
Lemma split_on_app (sep : ascii) (a b : string) :
  contains sep a = false ->
  split_on sep (a ++ String sep b) = a :: split_on sep b.
Proof.
  induction a as [|c a IH]; intros Ha.
  - cbn [append split_on]. now rewrite Ascii.eqb_refl.
  - cbn [append split_on]. unfold contains in Ha.
    cbn [list_ascii_of_string existsb] in Ha.
    apply orb_false_elim in Ha. destruct Ha as [Hc Ha].
    rewrite Ascii.eqb_sym in Hc. rewrite Hc. now rewrite IH.
Qed.

Lemma split_on_none (sep : ascii) (a : string) :
  contains sep a = false -> split_on sep a = [a].
Proof.
  induction a as [|c a IH]; intros Ha; [reflexivity|].
  cbn [split_on]. unfold contains in Ha.
  cbn [list_ascii_of_string existsb] in Ha.
  apply orb_false_elim in Ha. destruct Ha as [Hc Ha].
  rewrite Ascii.eqb_sym in Hc. rewrite Hc. now rewrite IH.
Qed.

Lemma contains_app (c : ascii) (a b : string) :
  contains c (a ++ b) = (contains c a || contains c b)%bool.
Proof.
  unfold contains. induction a as [|d a IH]; [reflexivity|].
  cbn [append list_ascii_of_string existsb]. now rewrite IH, orb_assoc.
Qed.

Lemma append_assoc (a b c : string) : ((a ++ b) ++ c = a ++ (b ++ c))%string.
Proof. induction a as [|d a IH]; cbn; [reflexivity | now rewrite IH]. Qed.

Lemma append_nil_r (a : string) : (a ++ "" = a)%string.
Proof. induction a as [|d a IH]; cbn; [reflexivity | now rewrite IH]. Qed.

(** Stripping gives back a text that neither begins nor ends with one of
    the characters, whatever stood around it. *)
Lemma lstrip_prefix (chars p s : string) :
  (forall c, In c (list_ascii_of_string p) -> contains c chars = true) ->
  lstrip chars (p ++ s) = lstrip chars s.
Proof.
  induction p as [|c p IH]; intros Hp; [reflexivity|].
  cbn [append lstrip]. rewrite (Hp c) by now left.
  apply IH. intros d Hd. apply Hp. now right.
Qed.

Lemma rstrip_suffix (chars s p : string) :
  (forall c, In c (list_ascii_of_string p) -> contains c chars = true) ->
  rstrip chars (s ++ p) = rstrip chars s.
Proof.
  intros Hp. induction s as [|c s IH].
  - cbn [append]. induction p as [|c p IH]; [reflexivity|].
    cbn [rstrip]. rewrite IH by (intros d Hd; apply Hp; now right).
    cbn [rstrip]. now rewrite (Hp c) by now left.
  - cbn [append rstrip]. now rewrite IH.
Qed.

Lemma rstrip_keeps (chars s : string) (c : ascii) :
  contains c chars = false ->
  rstrip chars (s ++ String c "") = (s ++ String c "")%string.
Proof.
  intros Hc. induction s as [|d s IH].
  - cbn [append rstrip]. now rewrite Hc.
  - cbn [append rstrip]. rewrite IH.
    destruct (s ++ String c "")%string eqn:E; [|reflexivity].
    destruct s; discriminate.
Qed.

Lemma py_strip_between (chars p s q : string) (c0 c1 : ascii) :
  (forall c, In c (list_ascii_of_string p) -> contains c chars = true) ->
  (forall c, In c (list_ascii_of_string q) -> contains c chars = true) ->
  contains c0 chars = false -> contains c1 chars = false ->
  py_strip chars (p ++ (String c0 s ++ String c1 "") ++ q)
  = (String c0 s ++ String c1 "")%string.
Proof.
  intros Hp Hq H0 H1. unfold py_strip.
  rewrite lstrip_prefix by assumption.
  cbn [append lstrip]. rewrite H0.
  change (String c0 ((s ++ String c1 "") ++ q))%string
    with ((String c0 (s ++ String c1 "")) ++ q)%string.
  rewrite rstrip_suffix by assumption.
  change (String c0 (s ++ String c1 ""))%string
    with ((String c0 s) ++ String c1 "")%string.
  now apply rstrip_keeps.
Qed.

Lemma endswith_app (suffix s : string) :
  endswith suffix (s ++ suffix) = true.
Proof.
  unfold endswith, py_last.
  assert (H : forall a b : string,
             String.substring (String.length (a ++ b) - String.length b)
               (String.length b) (a ++ b) = b).
  { induction a as [|c a IHa]; intros b.
    - cbn [append]. rewrite Nat.sub_diag.
      induction b as [|d b IHb]; [reflexivity|].
      cbn [String.length String.substring]. now rewrite IHb.
    - cbn [append String.length].
      assert (Hlen : (String.length b <= String.length (a ++ b))%nat).
      { clear. induction a; cbn; lia. }
      replace (S (String.length (a ++ b)) - String.length b)%nat
        with (S (String.length (a ++ b) - String.length b)) by lia.
      cbn [String.substring]. apply IHa. }
  rewrite H. apply String.eqb_refl.
Qed.

Lemma removelast_cons {A : Type} (a : A) (l : list A) :
  l <> [] -> removelast (a :: l) = a :: removelast l.
Proof. destruct l; [congruence | reflexivity]. Qed.

(** The lines of a member written by [writedatafile], read as
    [loadDatasets] reads them. *)
Lemma loadDatasets_lines_written (format_14_10f : R -> string)
  (float : string -> result R) (value : R -> R) :
  (forall x, exists t, py_split (format_14_10f x) = [t]
                       /\ float t = Ok (value x)) ->
  (forall x, contains "010" (format_14_10f x) = false) ->
  forall fields voltages : list R,
    length fields = length voltages ->
    loadDatasets_lines float
      (removelast
         (split_on "010" (writedatafile_string format_14_10f fields voltages)))
    = Ok (map value fields, map value voltages).
Proof.
  intros Htoken Hline.
  induction fields as [|f fields IH]; intros [|v voltages] Hlen;
    try discriminate; [reflexivity|].
  cbn [writedatafile_string].
  assert (E : ((format_14_10f f ++ " " ++ format_14_10f v ++ String "010" "")
               ++ writedatafile_string format_14_10f fields voltages
               = (format_14_10f f ++ String " " (format_14_10f v))
                 ++ String "010"
                      (writedatafile_string format_14_10f fields voltages))%string).
  { rewrite !append_assoc. cbn [append]. rewrite ?append_assoc. reflexivity. }
  rewrite E. clear E.
  assert (Hno : contains "010"
                  (format_14_10f f ++ String " " (format_14_10f v)) = false).
  { rewrite contains_app, Hline. cbn [orb]. unfold contains.
    cbn [list_ascii_of_string existsb]. fold (contains "010" (format_14_10f v)).
    now rewrite Hline. }
  rewrite (split_on_app _ _ _ Hno).
  rewrite removelast_cons by apply split_on_nonempty.
  cbn [loadDatasets_lines].
  rewrite py_split_app by reflexivity.
  destruct (Htoken f) as (tf & -> & Hf). destruct (Htoken v) as (tv & -> & Hv).
  cbn [app]. rewrite Hf, Hv. cbn [bind].
  rewrite IH by (simpl in Hlen; lia). reflexivity.
Qed.

(** ** Members of an archive *)

Lemma find_map {A B : Type} (p : B -> bool) (g : A -> B) (l : list A) :
  find p (map g l) = option_map g (find (fun a => p (g a)) l).
Proof.
  induction l as [|a l IH]; [reflexivity|].
  cbn [map find]. destruct (p (g a)); [reflexivity | exact IH].
Qed.

Lemma find_rev_unique {A : Type} (p : A -> bool) (l : list A) (a : A) :
  In a l -> p a = true ->
  (forall b, In b l -> p b = true -> b = a) ->
  find p (rev l) = Some a.
Proof.
  intros Ha Hp Huniq. destruct (find p (rev l)) as [b|] eqn:E.
  - apply find_some in E. destruct E as [Hb Hpb].
    apply in_rev in Hb. f_equal. now apply Huniq.
  - apply in_rev in Ha. rewrite (find_none _ _ E a Ha) in Hp. discriminate.
Qed.

Lemma NoDup_map_injective {A B : Type} (g : A -> B) (l : list A) (a b : A) :
  NoDup (map g l) -> In a l -> In b l -> g a = g b -> a = b.
Proof.
  induction l as [|c l IH]; intros Hnd Ha Hb Hg; [destruct Ha|].
  cbn [map] in Hnd. inversion Hnd as [|? ? Hnot Hnd']. subst.
  destruct Ha as [->|Ha], Hb as [->|Hb].
  - reflexivity.
  - exfalso. apply Hnot. rewrite Hg. now apply in_map.
  - exfalso. apply Hnot. rewrite <- Hg. now apply in_map.
  - now apply IH.
Qed.

(** The archive after [fmr_measurement] has written the sweeps: one member
    for each, in their order. *)
Lemma writedatafile_fold (format_14_10f format_2f : R -> string)
  (sweeps : list (R * list R * list R)) (zf0 : archive) :
  fold_left (fun zf '(f, fields, voltages) =>
               writedatafile format_14_10f zf (dataset_filename format_2f f)
                 fields voltages) sweeps zf0
  = zf0 ++ map (fun s : R * list R * list R =>
                  (dataset_filename format_2f (fst (fst s)),
                   writedatafile_string format_14_10f (snd (fst s)) (snd s)))
             sweeps.
Proof.
  revert zf0. induction sweeps as [|[[f fields] voltages] sweeps IH];
    intros zf0.
  - cbn. now rewrite app_nil_r.
  - cbn [fold_left map]. rewrite IH. unfold writedatafile.
    now rewrite <- app_assoc.
Qed.

(** X21.  The datasets that [fmr_measurement] writes into a new archive
    are read by [loadDatasets] in their order: the frequency from the name
    of the member, which ends in [.txt] and from which the stripping of
    the characters of "GHz.txt" leaves the number as it was printed, and
    from every line the field and the voltage.  A member is opened by its
    name, and of the members of one name the archive yields the last: a
    sweep is read with the data of the last sweep that was stored under
    its name.  Names printed with [%.2f] of the frequency in GHz coincide
    for frequencies less than 10 MHz apart; when the names of the sweeps
    differ, every sweep is read back with its own data.  This holds for
    every way of printing numbers that puts neither white space nor a
    line break inside a number, and for names, neither begins nor ends the
    number with one of the characters G, H, z, ., t, x: as [%14.10f] does,
    and [%.2f], which ends with a digit. *)
Theorem datasets_read_back (format_14_10f format_2f : R -> string)
  (float : string -> result R) (value_14_10f value_2f : R -> R)
  (sweeps : list (R * list R * list R)) :
  (forall x, exists t, py_split (format_14_10f x) = [t]
                       /\ float t = Ok (value_14_10f x)) ->
  (forall x, contains "010" (format_14_10f x) = false) ->
  (forall x, exists (c0 : ascii) (s : string) (c1 : ascii),
      format_2f x = (String c0 s ++ String c1 "")%string
      /\ contains c0 "GHz.txt" = false /\ contains c1 "GHz.txt" = false) ->
  (forall x, float (format_2f x) = Ok (value_2f x)) ->
  (forall f fields voltages,
      In (f, fields, voltages) sweeps -> length fields = length voltages) ->
  let name := fun s : R * list R * list R =>
    dataset_filename format_2f (fst (fst s)) in
  let data := fun s : R * list R * list R =>
    (map value_14_10f (snd (fst s)), map value_14_10f (snd s)) in
  let last_named := fun s : R * list R * list R =>
    match find (fun s' => (name s' =? name s)%string) (rev sweeps) with
    | Some s' => s'
    | None => s
    end in
  let zf :=
    fold_left (fun zf '(f, fields, voltages) =>
                 writedatafile format_14_10f zf (dataset_filename format_2f f)
                   fields voltages) sweeps [] in
  loadDatasets float zf
  = Ok (map (fun s => data (last_named s)) sweeps,
        map (fun s => value_2f (fst (fst s) * (1 / 10 ^ 9))) sweeps,
        map name sweeps)
  /\ (NoDup (map name sweeps) ->
      loadDatasets float zf
      = Ok (map data sweeps,
            map (fun s => value_2f (fst (fst s) * (1 / 10 ^ 9))) sweeps,
            map name sweeps)).
Proof.
  intros Htoken Hline Hname Hfreq Hlen name data last_named zf.
  set (member := fun s : R * list R * list R =>
         (name s, writedatafile_string format_14_10f (snd (fst s)) (snd s))).
  assert (Hzf : zf = map member sweeps).
  { unfold zf. now rewrite writedatafile_fold. }
  assert (Hfiles : map fst zf = map name sweeps).
  { rewrite Hzf, map_map. reflexivity. }
  assert (Hread : forall s, In s sweeps ->
             zip_read zf (name s)
             = Ok (writedatafile_string format_14_10f
                     (snd (fst (last_named s))) (snd (last_named s)))
               /\ In (last_named s) sweeps).
  { intros s Hs. unfold zip_read, last_named.
    rewrite Hzf, <- map_rev, find_map. cbn [fst member].
    destruct (find (fun s' => (name s' =? name s)%string) (rev sweeps))
      as [s'|] eqn:E.
    - cbn [option_map snd]. split; [reflexivity|].
      apply find_some in E. destruct E as [Hin _]. now apply in_rev in Hin.
    - exfalso. apply in_rev in Hs.
      pose proof (find_none _ _ E s Hs) as H. cbv beta in H.
      now rewrite String.eqb_refl in H. }
  assert (Hloop : forall files : list (R * list R * list R),
             (forall s, In s files -> In s sweeps) ->
             loadDatasets_files float zf (map name files)
             = Ok (map (fun s => data (last_named s)) files,
                   map (fun s => value_2f (fst (fst s) * (1 / 10 ^ 9))) files,
                   map name files)).
  { induction files as [|s files IH]; intros Hsub; [reflexivity|].
    cbn [map loadDatasets_files].
    assert (Hends : endswith ".txt" (name s) = true).
    { unfold name, dataset_filename.
      change "GHz.txt"%string with ("GHz" ++ ".txt")%string.
      rewrite <- append_assoc. apply endswith_app. }
    rewrite Hends.
    assert (Hstrip : py_strip "GHz.txt" (name s)
                     = format_2f (fst (fst s) * (1 / 10 ^ 9))).
    { unfold name, dataset_filename.
      destruct (Hname (fst (fst s) * (1 / 10 ^ 9)))
        as (c0 & t & c1 & -> & H0 & H1).
      apply (py_strip_between "GHz.txt" "" t "GHz.txt" c0 c1);
        try assumption; [intros c []|].
      intros c Hc. cbn [list_ascii_of_string In] in Hc.
      repeat destruct Hc as [<-|Hc]; try reflexivity. destruct Hc. }
    rewrite Hstrip, Hfreq. cbn [bind].
    destruct (Hread s (Hsub s (or_introl eq_refl))) as [-> Hin].
    cbn [bind].
    rewrite (loadDatasets_lines_written format_14_10f float value_14_10f
               Htoken Hline).
    - cbn [bind]. rewrite IH by (intros; apply Hsub; right; assumption).
      reflexivity.
    - destruct (last_named s) as [[f' fields'] voltages'] eqn:E.
      cbn [fst snd]. now apply (Hlen f'). }
  assert (Hall : loadDatasets float zf
                 = Ok (map (fun s => data (last_named s)) sweeps,
                       map (fun s => value_2f (fst (fst s) * (1 / 10 ^ 9)))
                         sweeps,
                       map name sweeps)).
  { unfold loadDatasets. rewrite Hfiles. apply Hloop. auto. }
  split; [exact Hall|].
  intros Hnd. rewrite Hall. f_equal. f_equal. f_equal.
  apply map_ext_in. intros s Hs. f_equal. unfold last_named.
  rewrite (find_rev_unique _ sweeps s Hs); [reflexivity | |].
  - apply String.eqb_refl.
  - intros b Hb Heq. apply String.eqb_eq in Heq.
    now apply (NoDup_map_injective name sweeps b s Hnd).
Qed.

(** Two sweeps stored under one name: both are read with the data of the
    second. *)
Lemma datasets_read_back_witness :
  loadDatasets (fun t => if (t =? "0")%string then Ok 0 else Ok 1)
    (writedatafile
       (fun x => if Req_dec_T x 0 then "0"%string else "1"%string)
       (writedatafile
          (fun x => if Req_dec_T x 0 then "0"%string else "1"%string) []
          (dataset_filename (fun _ => "10"%string) (10 * 10 ^ 9)) [0] [0])
       (dataset_filename (fun _ => "10"%string) (10004 * 10 ^ 6)) [1] [1])
  = Ok ([([1], [1]); ([1], [1])], [1; 1],
        ["10GHz.txt"%string; "10GHz.txt"%string]).
Proof.
  destruct (datasets_read_back
              (fun x => if Req_dec_T x 0 then "0"%string else "1"%string)
              (fun _ => "10"%string)
              (fun t => if (t =? "0")%string then Ok 0 else Ok 1)
              (fun x => if Req_dec_T x 0 then 0 else 1) (fun _ => 1)
              [(10 * 10 ^ 9, [0], [0]); (10004 * 10 ^ 6, [1], [1])])
    as [H _].
  - intros x. destruct (Req_dec_T x 0); eexists; split; reflexivity.
  - intros x. destruct (Req_dec_T x 0); reflexivity.
  - intros x. exists "1"%char, ""%string, "0"%char. repeat split.
  - intros x. reflexivity.
  - intros f fields voltages [H|[H|[]]]; injection H as <- <- <-;
      reflexivity.
  - cbn [fold_left] in H. rewrite H. clear H.
    cbn [rev app find fst snd map].
    unfold dataset_filename. rewrite !String.eqb_refl.
    cbn [fst snd map].
    destruct (Req_dec_T 1 0) as [E|_]; [lra|]. reflexivity.
Defined.

(** X22.  [parse_data] of the GUI finds the three numbers of the progress
    line that [field_sweep] prints for it: the field, X and Y, in this
    order, whatever the progress is printed as, for every way of printing
    numbers that yields one word without the bar [|]. *)
Theorem parse_data_progress_line
  (format_8_5f format_12_8f format_5_1f : R -> string)
  (float : string -> result R) (field x y progress : R)
  (t1 t2 t3 : string) :
  py_split (format_8_5f field) = [t1] ->
  py_split (format_12_8f x) = [t2] ->
  py_split (format_12_8f y) = [t3] ->
  contains "|" (format_8_5f field) = false ->
  contains "|" (format_12_8f x) = false ->
  contains "|" (format_12_8f y) = false ->
  parse_data float
    (progress_line format_8_5f format_12_8f format_5_1f field x y progress)
  = (v1 <- float t1 ;; v2 <- float t2 ;; v3 <- float t3 ;; Ok (v1, v2, v3)).
Proof.
  intros H1 H2 H3 Hb1 Hb2 Hb3.
  set (F := format_8_5f field) in *. set (X := format_12_8f x) in *.
  set (Y := format_12_8f y) in *. set (P := format_5_1f progress).
  set (p0 := ("<> Field: " ++ F ++ " T  ")%string).
  set (p1 := (" X: " ++ X ++ " V ")%string).
  set (p2 := (" Y: " ++ Y ++ " V ")%string).
  assert (Hline : progress_line format_8_5f format_12_8f format_5_1f
                    field x y progress
                  = (p0 ++ String "|" (p1 ++ String "|" (p2 ++ String "|"
                       (" Progress: " ++ P ++ "% </>"))))%string).
  { unfold progress_line, p0, p1, p2. fold F X Y P.
    cbn [append]. rewrite !append_assoc. cbn [append].
    rewrite ?append_assoc. reflexivity. }
  assert (Hbar : forall (a b Z : string),
             contains "|" a = false -> contains "|" b = false ->
             contains "|" Z = false ->
             contains "|" (a ++ Z ++ b) = false).
  { intros a b Z Ha Hb HZ. now rewrite !contains_app, Ha, Hb, HZ. }
  assert (Hp : exists rest : list string,
             split_on "|" (progress_line format_8_5f format_12_8f format_5_1f
                             field x y progress)
             = p0 :: p1 :: p2 :: rest).
  { rewrite Hline.
    rewrite (split_on_app "|" p0) by (apply Hbar; [reflexivity.. | exact Hb1]).
    rewrite (split_on_app "|" p1) by (apply Hbar; [reflexivity.. | exact Hb2]).
    rewrite (split_on_app "|" p2) by (apply Hbar; [reflexivity.. | exact Hb3]).
    eexists. reflexivity. }
  destruct Hp as [rest Hp].
  assert (Hs0 : py_split p0 = ["<>"; "Field:"; t1; "T"]%string).
  { change p0 with ("<>" ++ String " " ("Field:" ++ String " "
                      (F ++ String " " ("T" ++ String " "
                         ("" ++ String " " "")))))%string.
    rewrite !py_split_app by reflexivity. now rewrite H1. }
  assert (Hs1 : py_split p1 = ["X:"; t2; "V"]%string).
  { change p1 with ("" ++ String " " ("X:" ++ String " "
                      (X ++ String " " ("V" ++ String " " ""))))%string.
    rewrite !py_split_app by reflexivity. now rewrite H2. }
  assert (Hs2 : py_split p2 = ["Y:"; t3; "V"]%string).
  { change p2 with ("" ++ String " " ("Y:" ++ String " "
                      (Y ++ String " " ("V" ++ String " " ""))))%string.
    rewrite !py_split_app by reflexivity. now rewrite H3. }
  unfold parse_data. rewrite Hp. cbn [getitem_str nth_error bind].
  rewrite Hs0, Hs1, Hs2. cbn [getitem_str nth_error bind].
  reflexivity.
Qed.

Lemma parse_data_progress_line_witness :
  parse_data (fun _ => Ok 1)
    (progress_line (fun _ => "1"%string) (fun _ => "1"%string)
       (fun _ => "1"%string) 0 0 0 0)
  = Ok (1, 1, 1).
Proof.
  apply (parse_data_progress_line (fun _ => "1"%string) (fun _ => "1"%string)
           (fun _ => "1"%string) (fun _ => Ok 1) 0 0 0 0 "1" "1" "1");
    reflexivity.
Defined.

(** ** The offset measurement *)

(** The readings after a loop of [get_offset] that is not stopped. *)
Lemma offset_loop_full (STOP : nat -> bool) (read_field : nat -> R) (n : nat) :
  (forall j, (j < n)%nat -> STOP j = false) ->
  forall passes i : nat,
    (i + passes = n)%nat ->
    FMR.offset_loop STOP read_field i passes
      (map read_field (seq 0 i) ++ repeat 0 passes)
    = Ok (map read_field (seq 0 n)).
Proof.
  intros Hrun. induction passes as [|passes IH]; intros i Hi.
  - cbn [FMR.offset_loop repeat]. rewrite app_nil_r.
    now replace i with n by lia.
  - cbn [FMR.offset_loop]. rewrite Hrun by lia.
    rewrite <- (length_grid read_field i) at 2.
    rewrite setitem_next. cbn [bind].
    specialize (IH (S i) ltac:(lia)).
    rewrite seq_S, map_app in IH. exact IH.
Qed.

Lemma sum_cons (v : R) (l : list R) : sum (v :: l) = v + sum l.
Proof. reflexivity. Qed.

(** The sums of [polyfit_1] for ordinates on a line. *)
Lemma sums_on_line (a b : R) (x : list R) :
  let y := map (fun u => a * u + b) x in
  sum y = a * sum x + INR (length x) * b
  /\ sum (map (fun '(u, v) => u * v) (combine x y))
     = a * sum (map (fun v => v * v) x) + b * sum x.
Proof.
  induction x as [|u x [IH1 IH2]]; cbn zeta in *.
  - unfold sum. simpl. split; ring.
  - cbn [map combine]. rewrite !sum_cons, IH1, IH2.
    replace (INR (length (u :: x))) with (INR (length x) + 1)
      by (symmetry; apply S_INR).
    split; ring.
Qed.

(** [polyfit_1] is exact on a line, when the abscissae are not all
    equal. *)
Lemma polyfit_1_exact (a b : R) (x : list R) :
  INR (length x) * sum (map (fun v => v * v) x) - sum x * sum x <> 0 ->
  np.polyfit_1 x (map (fun u => a * u + b) x) = Ok [a; b].
Proof.
  intros HD. unfold np.polyfit_1.
  destruct x as [|u x]; [exfalso; apply HD; unfold sum; simpl; ring|].
  set (xs := u :: x) in *.
  assert (Hn : INR (length xs) <> 0) by (apply not_0_INR; discriminate).
  change (length xs =? 0)%nat with false. cbn [negb].
  rewrite length_map, Nat.eqb_refl. cbn [negb].
  destruct (sums_on_line a b xs) as [Hy Hxy]. cbv zeta in Hy, Hxy.
  rewrite Hy, Hxy.
  set (n := INR (length xs)) in *. set (sx := sum xs) in *.
  set (sxx := sum (map (fun v => v * v) xs)) in *.
  assert (Hslope : (n * (a * sxx + b * sx) - sx * (a * sx + n * b))
                   / (n * sxx - sx * sx) = a) by (field; exact HD).
  rewrite Hslope. do 3 f_equal. field. exact Hn.
Qed.

Lemma get_offset_grid :
  skipn 2 (np.linspace (- (15 / 1000)) (15 / 1000) 31)
  = map (fun i => (INR i - 13) / 1000) (seq 0 29).
Proof.
  unfold np.linspace.
  replace (INR (31 - 1)) with 30
    by (change (31 - 1)%nat with 30%nat; rewrite INR_IZR_INZ; reflexivity).
  change (seq 0 31) with (0 :: 1 :: seq 2 29)%nat. cbn [map skipn].
  rewrite <- (seq_shift 29 1), map_map.
  rewrite <- (seq_shift 29 0), map_map.
  apply map_ext. intros i.
  rewrite !S_INR. field.
Qed.

(** X23.  When the offset measurement is not stopped and the teslameter
    reads [a * B + b] at each of the 31 nominal fields [B] from -15 mT to
    15 mT, [get_offset] returns [- b] exactly, whatever the slope [a]
    is. *)
Theorem get_offset_linear (STOP : nat -> bool) (read_field : nat -> R)
  (a b : R) :
  (forall i, (i < 31)%nat -> STOP i = false) ->
  (forall i, (i < 31)%nat ->
             read_field i
             = a * nth i (np.linspace (- (15 / 1000)) (15 / 1000) 31) 0 + b) ->
  FMR.get_offset STOP read_field = Ok (- b).
Proof.
  intros Hrun Hread.
  unfold FMR.get_offset. cbv zeta.
  assert (Hlen : length (np.linspace (- (15 / 1000)) (15 / 1000) 31) = 31%nat)
    by apply length_grid.
  rewrite Hlen.
  pose proof (offset_loop_full STOP read_field 31 Hrun 31 0 eq_refl) as Hloop.
  change (map read_field (seq 0 0) ++ repeat 0 31) with (repeat 0 31)
    in Hloop.
  rewrite Hloop. cbn [bind].
  assert (Hfields : map read_field (seq 0 31)
                    = map (fun u => a * u + b)
                          (np.linspace (- (15 / 1000)) (15 / 1000) 31)).
  { unfold np.linspace at 1. rewrite map_map. apply map_ext_in.
    intros i Hi. apply in_seq in Hi. rewrite Hread by lia.
    unfold np.linspace.
    rewrite (nth_indep _ 0 ((fun i => - (15 / 1000) + INR i
                               * ((15 / 1000 - - (15 / 1000)) / INR (31 - 1)))
                              0%nat))
      by (rewrite length_grid; lia).
    rewrite (map_nth (fun i => - (15 / 1000) + INR i
                               * ((15 / 1000 - - (15 / 1000)) / INR (31 - 1)))
                     (seq 0 31) 0%nat i).
    rewrite seq_nth by lia. reflexivity. }
  rewrite Hfields, skipn_map, polyfit_1_exact.
  - reflexivity.
  - rewrite get_offset_grid, length_grid.
    unfold sum. cbn [seq map fold_right INR]. lra.
Qed.


Lemma get_offset_linear_witness :
  FMR.get_offset (fun _ => false)
    (fun i => 1 * nth i (np.linspace (- (15 / 1000)) (15 / 1000) 31) 0
              + 2 / 1000)
  = Ok (- (2 / 1000)).
Proof.
  apply (get_offset_linear (fun _ => false) _ 1 (2 / 1000));
    intros i Hi; reflexivity.
Defined.
